(** * ralph-inferno: the LLM client (src/core/llm_client.py)

    A shallow embedding of [is_llm_response_incomplete],
    [call_llm_with_timeout_handling] and [main], and the properties of the
    completeness classifier and of the retry loop.

    Modelling conventions.
    - A Python [str] is the list of its code points ([pystr]); [len] is the
      length of that list.
    - The values that [response.json()] can produce are the terms of [json];
      a Python [dict] is an association list read through [dict_get].
    - Effects are explicit: a computation returns the events it performed
      (console output, HTTP requests, sleeps) and either a value or the
      exception that left it.
    - [json.loads] belongs to the Python library, not to this repository.  The
      classifier is parameterised by it ([json_loads s = true] when the call
      returns, [false] when it raises [JSONDecodeError], the two outcomes the
      library documents for a [str]); [Json.loads] is a recogniser written
      after CPython's decoder and instantiates the parameter on concrete
      inputs.
    - The interpreter makes [json.loads] raise two exceptions that are no
      [JSONDecodeError]: [ValueError] on an integer literal of more digits
      than it converts (4300 by default since CPython 3.11) and
      [RecursionError] on a document nested deeper than the recursion limit.
      [Decoder.is_llm_response_incomplete] is the classifier over a decoder
      with this third outcome, which [except json.JSONDecodeError] does not
      catch; the classifier of [Section Client] is its restriction to the
      decoders that raise nothing else ([DecoderFacts.agrees]), and
      [Json.loads] does not model the two limits. *)

From Stdlib Require Import String Ascii.
From Stdlib Require Import List Bool Arith NArith ZArith Lia.
From Stdlib Require Import PrimFloat.
Import ListNotations.

(** ** Python strings *)

(** A [str]: the sequence of its Unicode code points. *)
Definition pystr := list N.

(** An ASCII literal as a [str]. *)
Definition py (s : string) : pystr :=
  map N_of_ascii (list_ascii_of_string s).

Definition pystr_eqb (a b : pystr) : bool :=
  if list_eq_dec N.eq_dec a b then true else false.

(** [str.isspace] on one code point, which is also what [\s] matches in a
    [str] pattern: CPython's [_PyUnicode_IsWhitespace]. *)
Definition isspace (c : N) : bool :=
  ((9 <=? c) && (c <=? 13) || (28 <=? c) && (c <=? 32)
   || (c =? 133) || (c =? 160) || (c =? 5760)
   || (8192 <=? c) && (c <=? 8202)
   || (c =? 8232) || (c =? 8233) || (c =? 8239) || (c =? 8287)
   || (c =? 12288))%N.

Fixpoint lstrip (s : pystr) : pystr :=
  match s with
  | c :: s' => if isspace c then lstrip s' else s
  | [] => []
  end.

Definition rstrip (s : pystr) : pystr := rev (lstrip (rev s)).

(** [s.strip()] *)
Definition strip (s : pystr) : pystr := rstrip (lstrip s).

(** [a in b] for two [str]: [a] occurs in [b] as a substring. *)
Fixpoint startswith (p s : pystr) : bool :=
  match p, s with
  | [], _ => true
  | _ :: _, [] => false
  | a :: p', b :: s' => (a =? b)%N && startswith p' s'
  end.

Fixpoint str_contains (p s : pystr) : bool :=
  startswith p s ||
  match s with
  | [] => false
  | _ :: s' => str_contains p s'
  end.

(** ** The regular expressions of the classifier

    The six patterns have the shape [c\s*$].  [re_search] is a backtracking
    matcher for the fragment of [re] they use: a literal character, [\s*] and
    the anchor [$], which (without [re.MULTILINE]) matches at the end of the
    string and just before a newline that ends the string. *)
Module Re.

Inductive item :=
| Lit (c : N)
| SpaceStar
| EndAnchor.

Definition pattern := list item.

Definition at_end (s : pystr) : bool :=
  match s with
  | [] => true
  | [c] => (c =? 10)%N
  | _ => false
  end.

Fixpoint match_here (p : pattern) (s : pystr) {struct p} : bool :=
  match p with
  | [] => true
  | Lit c :: p' =>
      match s with
      | x :: s' => (x =? c)%N && match_here p' s'
      | [] => false
      end
  | EndAnchor :: p' => at_end s && match_here p' s
  | SpaceStar :: p' =>
      (fix star (t : pystr) : bool :=
         match t with
         | x :: t' => (isspace x && star t') || match_here p' t
         | [] => match_here p' t
         end) s
  end.

(** [re.search(p, s)] as a truth value: a match starts at some position. *)
Fixpoint search (p : pattern) (s : pystr) : bool :=
  match_here p s ||
  match s with
  | [] => false
  | _ :: s' => search p s'
  end.

End Re.

(** ** JSON values *)

(** What [response.json()] returns: [None], [bool], [int], [float], [str],
    [list] and [dict] with [str] keys. *)
#[local] Set Warnings "-register-all".
Inductive json :=
| JNull
| JBool (b : bool)
| JInt (z : Z)
| JFloat (f : float)
| JStr (s : pystr)
| JArr (items : list json)
| JObj (members : list (pystr * json)).

(** [d.get(k)] on the association list of a [dict]. *)
Fixpoint dict_get (k : pystr) (d : list (pystr * json)) : option json :=
  match d with
  | [] => None
  | (k', v) :: d' => if pystr_eqb k k' then Some v else dict_get k d'
  end.

(** Python truthiness, as [if not v] tests it. *)
Definition truthy (v : json) : bool :=
  match v with
  | JNull => false
  | JBool b => b
  | JInt z => negb (z =? 0)%Z
  | JFloat f => negb (PrimFloat.eqb f 0%float)
  | JStr s => match s with [] => false | _ => true end
  | JArr l => match l with [] => false | _ => true end
  | JObj d => match d with [] => false | _ => true end
  end.

(** ** The JSON decoder of the Python library

    [Json.loads s] is [true] when [json.loads(s)] returns and [false] when it
    raises [JSONDecodeError].  The recogniser follows CPython's decoder
    ([json.decoder] and the scanner of [_json]): each function takes the text
    that starts at the current index and returns the text that starts at the
    index the decoder would return. *)
Module Json.

(** The whitespace of JSON: space, tab, line feed, carriage return. *)
Definition is_ws (c : N) : bool :=
  ((c =? 32) || (c =? 9) || (c =? 10) || (c =? 13))%N.

Fixpoint skip_ws (s : pystr) : pystr :=
  match s with
  | c :: s' => if is_ws c then skip_ws s' else s
  | [] => []
  end.

Definition is_digit (c : N) : bool := ((48 <=? c) && (c <=? 57))%N.

Definition is_hex (c : N) : bool :=
  (is_digit c || (97 <=? c) && (c <=? 102) || (65 <=? c) && (c <=? 70))%N.

(** The characters that may follow a backslash, [u] apart:
    quote, backslash, slash, b, f, n, r, t. *)
Definition is_escape (c : N) : bool :=
  ((c =? 34) || (c =? 92) || (c =? 47) || (c =? 98) || (c =? 102)
   || (c =? 110) || (c =? 114) || (c =? 116))%N.

(** [scanstring] in strict mode, entered after the opening quote. *)
Fixpoint scanstring (s : pystr) : option pystr :=
  match s with
  | [] => None
  | c :: r =>
      if (c =? 34)%N then Some r
      else if (c =? 92)%N then
        match r with
        | [] => None
        | e :: r1 =>
            if (e =? 117)%N then
              match r1 with
              | h1 :: h2 :: h3 :: h4 :: r2 =>
                  if is_hex h1 && is_hex h2 && is_hex h3 && is_hex h4
                  then scanstring r2 else None
              | _ => None
              end
            else if is_escape e then scanstring r1 else None
        end
      else if (c <=? 31)%N then None
      else scanstring r
  end.

Fixpoint skip_digits (s : pystr) : pystr :=
  match s with
  | c :: s' => if is_digit c then skip_digits s' else s
  | [] => []
  end.

(** The optional fraction: a dot followed by at least one digit. *)
Definition match_frac (s : pystr) : pystr :=
  match s with
  | dot :: d :: s' =>
      if (dot =? 46)%N && is_digit d then skip_digits s' else s
  | _ => s
  end.

(** The optional exponent: e or E, an optional sign, at least one digit;
    the scanner backtracks when no digit follows. *)
Definition match_exp (s : pystr) : pystr :=
  match s with
  | e :: s1 =>
      if (e =? 101)%N || (e =? 69)%N then
        match s1 with
        | sg :: d :: s2 =>
            if (sg =? 45)%N || (sg =? 43)%N then
              if is_digit d then skip_digits s2
              else s
            else if is_digit sg then skip_digits (d :: s2)
            else s
        | [d] => if is_digit d then [] else s
        | [] => s
        end
      else s
  | [] => s
  end.

Definition match_int (s : pystr) : option pystr :=
  match s with
  | c :: s' =>
      if (c =? 48)%N then Some s'
      else if (49 <=? c)%N && (c <=? 57)%N then Some (skip_digits s')
      else None
  | [] => None
  end.

(** [_match_number]: an optional minus sign, an integer part (a zero, or a
    digit from 1 to 9 and any digits), an optional fraction and an optional
    exponent. *)
Definition match_number (s : pystr) : option pystr :=
  let body :=
    match s with
    | c :: s' => if (c =? 45)%N then s' else s
    | [] => s
    end in
  match match_int body with
  | Some r => Some (match_exp (match_frac r))
  | None => None
  end.

(** A named constant [w] at the start of [s]. *)
Fixpoint literal (w s : pystr) : option pystr :=
  match w, s with
  | [], _ => Some s
  | _ :: _, [] => None
  | a :: w', b :: s' => if (a =? b)%N then literal w' s' else None
  end.

Section Scanner.

(** [scan] decodes one nested value. *)
Variable scan : pystr -> option pystr.

(** The loop of [_parse_object], entered where a key is expected; [n] bounds
    the number of members by the length of the text. *)
Fixpoint parse_members (n : nat) (s : pystr) : option pystr :=
  match n, s with
  | S n', c :: r =>
      if (c =? 34)%N then
        match scanstring r with
        | Some r1 =>
            match skip_ws r1 with
            | colon :: r2 =>
                if (colon =? 58)%N then
                  match scan (skip_ws r2) with
                  | Some r3 =>
                      match skip_ws r3 with
                      | d :: r4 =>
                          if (d =? 125)%N then Some r4
                          else if (d =? 44)%N
                          then parse_members n' (skip_ws r4)
                          else None
                      | [] => None
                      end
                  | None => None
                  end
                else None
            | [] => None
            end
        | None => None
        end
      else None
  | _, _ => None
  end.

(** [_parse_object], entered after the opening brace. *)
Definition parse_object (s : pystr) : option pystr :=
  match skip_ws s with
  | c :: r =>
      if (c =? 125)%N then Some r
      else parse_members (length s) (c :: r)
  | [] => None
  end.

(** The loop of [_parse_array], entered where a value is expected. *)
Fixpoint parse_items (n : nat) (s : pystr) : option pystr :=
  match n with
  | S n' =>
      match scan s with
      | Some r1 =>
          match skip_ws r1 with
          | d :: r2 =>
              if (d =? 93)%N then Some r2
              else if (d =? 44)%N then parse_items n' (skip_ws r2)
              else None
          | [] => None
          end
      | None => None
      end
  | O => None
  end.

(** [_parse_array], entered after the opening bracket. *)
Definition parse_array (s : pystr) : option pystr :=
  match skip_ws s with
  | c :: r =>
      if (c =? 93)%N then Some r
      else parse_items (length s) (c :: r)
  | [] => None
  end.

End Scanner.

(** [scan_once]; [fuel] bounds the nesting depth. *)
Fixpoint scan_once (fuel : nat) (s : pystr) : option pystr :=
  match fuel with
  | O => None
  | S fuel' =>
      match s with
      | [] => None
      | c :: r =>
          if (c =? 34)%N then scanstring r
          else if (c =? 123)%N then parse_object (scan_once fuel') r
          else if (c =? 91)%N then parse_array (scan_once fuel') r
          else
            match literal (py "null") s with Some r' => Some r' | None =>
            match literal (py "true") s with Some r' => Some r' | None =>
            match literal (py "false") s with Some r' => Some r' | None =>
            match literal (py "NaN") s with Some r' => Some r' | None =>
            match literal (py "Infinity") s with Some r' => Some r' | None =>
            match literal (py "-Infinity") s with Some r' => Some r' | None =>
            match_number s
            end end end end end end
      end
  end.

(** [json.loads(s)] for a [str]: a leading byte order mark is refused; one
    value, surrounded by JSON whitespace, must span the whole text.  The
    nesting depth of a text is below its length. *)
Definition loads (s : pystr) : bool :=
  if startswith [65279%N] s then false
  else
    match scan_once (S (length s)) (skip_ws s) with
    | Some r => match skip_ws r with [] => true | _ => false end
    | None => false
    end.

End Json.

(** ** Computations

    What a call does is the list of its events, in order; how it ends is a
    value or the exception that leaves it. *)

Inductive exn :=
| Timeout            (* requests.exceptions.Timeout *)
| RequestException   (* any other requests.exceptions.RequestException *)
| KeyError
| TypeError
| IndexError
| ValueError
| RecursionError
| ClickException (message : string).

(** A message of one [dict] of [messages]. *)
Definition chat_message := list (pystr * pystr).

(** The arguments of [requests.post]. *)
Record request := {
  url : string;
  headers : list (string * pystr);
  payload_model : pystr;
  payload_messages : list chat_message;
  payload_max_tokens : Z;
  request_timeout : Z
}.

(** The lines written to the console; [n] is [attempt + 1]. *)
Inductive line :=
| AttemptLine (n : nat) (max_retries : Z)
| IncompleteLine (n : nat)
| TimedOutLine (n : nat)
| FailedLine (n : nat)
| AllFailedLine
| ContentLine (content : json)
| NoResponseLine.

Inductive event :=
| Stdout (l : line)
| Post (attempt : nat) (r : request)
| Sleep (seconds : Z).

Definition M (A : Type) : Type := (list event * (exn + A))%type.

Definition ret {A} (a : A) : M A := ([], inr a).

Definition raise {A} (e : exn) : M A := ([], inl e).

Definition tell (e : event) : M unit := ([e], inr tt).

Definition bind {A B} (m : M A) (f : A -> M B) : M B :=
  match m with
  | (t, inl e) => (t, inl e)
  | (t, inr a) => let (t', r) := f a in (t ++ t', r)
  end.

(** [try: m except ...: handler]; [handler e] is [None] when no clause
    catches [e]. *)
Definition try_except {A} (m : M A) (handler : exn -> option (M A)) : M A :=
  match m with
  | (t, inl e) =>
      match handler e with
      | Some h => let (t', r) := h in (t ++ t', r)
      | None => (t, inl e)
      end
  | (t, inr a) => (t, inr a)
  end.

Declare Scope py_scope.
Delimit Scope py_scope with py.
Notation "x <- m ;; k" := (bind m (fun x => k))
  (at level 100, m at next level, right associativity) : py_scope.
Notation "m ;; k" := (bind m (fun _ => k))
  (at level 100, right associativity) : py_scope.
Open Scope py_scope.

Definition trace {A} (m : M A) : list event := fst m.
Definition outcome {A} (m : M A) : exn + A := snd m.

(** ** Operations on Python values *)

(** [k in v] *)
Definition contains (k : pystr) (v : json) : M bool :=
  match v with
  | JObj d => ret (match dict_get k d with Some _ => true | None => false end)
  | JArr l =>
      ret (existsb
             (fun x => match x with JStr s => pystr_eqb k s | _ => false end)
             l)
  | JStr s => ret (str_contains k s)
  | _ => raise TypeError
  end.

(** [v[k]] for a [str] key *)
Definition getitem (v : json) (k : pystr) : M json :=
  match v with
  | JObj d =>
      match dict_get k d with
      | Some x => ret x
      | None => raise KeyError
      end
  | _ => raise TypeError
  end.

(** [v[0]]; the keys of a decoded [dict] are [str], so [0] is never one. *)
Definition getitem0 (v : json) : M json :=
  match v with
  | JArr (x :: _) => ret x
  | JArr [] => raise IndexError
  | JStr (c :: _) => ret (JStr [c])
  | JStr [] => raise IndexError
  | JObj _ => raise KeyError
  | _ => raise TypeError
  end.

(** [len(v) > 0]; a [dict] has an entry when its association list has. *)
Definition len_positive (v : json) : M bool :=
  match v with
  | JArr l => ret (0 <? length l)
  | JStr s => ret (0 <? length s)
  | JObj d => ret (0 <? length d)
  | _ => raise TypeError
  end.

(** ** is_llm_response_incomplete *)

Import Re.

(** The six patterns, in the order of the source: a closing brace, a comma,
    a colon, a double quote, an opening bracket, an opening brace, each
    followed by [\s*$]. *)
Definition incomplete_patterns : list pattern :=
  [ [Lit 125; SpaceStar; EndAnchor];
    [Lit 44; SpaceStar; EndAnchor];
    [Lit 58; SpaceStar; EndAnchor];
    [Lit 34; SpaceStar; EndAnchor];
    [Lit 91; SpaceStar; EndAnchor];
    [Lit 123; SpaceStar; EndAnchor] ]%N.

Section Client.

(** [json.loads] on a [str]: [true] when it returns, [false] when it raises
    [JSONDecodeError]. *)
Variable json_loads : pystr -> bool.

Definition is_llm_response_incomplete (response_text : json) : M bool :=
  if negb (truthy response_text) then ret true
  else
    match response_text with
    | JStr text =>
        if json_loads text then ret false
        else if existsb (fun p => search p (strip text)) incomplete_patterns
        then ret true
        else if length (strip text) <? 50 then ret true
        else ret false
    | _ => raise TypeError   (* json.loads takes str, bytes or bytearray *)
    end.

(** ** call_llm_with_timeout_handling *)

(** What the three calls [requests.post], [raise_for_status] and
    [response.json] come to on one attempt. *)
Inductive http_outcome :=
| TimedOut                   (* Timeout is raised *)
| RequestFailed              (* another RequestException is raised: a
                                connection error, a status that is not 2xx,
                                a body that is not JSON *)
| Responded (result : json). (* [response.json()] returns [result] *)

(** The remote service: its answer to the request of each attempt. *)
Variable net : request -> nat -> http_outcome.

Definition post_json (req : request) (attempt : nat) : M json :=
  tell (Post attempt req) ;;
  match net req attempt with
  | TimedOut => raise Timeout
  | RequestFailed => raise RequestException
  | Responded result => ret result
  end.

(** How one pass through the body of the loop ends. *)
Inductive flow :=
| Continue
| Return (result : json).

(** [result["choices"][0]["message"]["content"]] *)
Definition first_content (result : json) : M json :=
  choices <- getitem result (py "choices") ;;
  first <- getitem0 choices ;;
  message <- getitem first (py "message") ;;
  getitem message (py "content").

(** ["choices" in result and len(result["choices"]) > 0] *)
Definition has_choices (result : json) : M bool :=
  present <- contains (py "choices") result ;;
  if present : bool then
    choices <- getitem result (py "choices") ;;
    len_positive choices
  else ret false.

Definition attempt_body (req : request) (max_retries : Z) (attempt : nat)
  : M flow :=
  try_except
    (tell (Stdout (AttemptLine (attempt + 1) max_retries)) ;;
     result <- post_json req attempt ;;
     some <- has_choices result ;;
     if some : bool then
       content <- first_content result ;;
       incomplete <- is_llm_response_incomplete content ;;
       if incomplete : bool then
         tell (Stdout (IncompleteLine (attempt + 1))) ;;
         tell (Sleep 2) ;;
         ret Continue
       else ret (Return result)
     else ret Continue)
    (fun e =>
       match e with
       | Timeout =>
           Some (tell (Stdout (TimedOutLine (attempt + 1))) ;; ret Continue)
       | RequestException =>
           Some (tell (Stdout (FailedLine (attempt + 1))) ;; ret Continue)
       | _ => None
       end).

(** [range(n)] *)
Definition range (n : Z) : list nat := seq 0 (Z.to_nat n).

(** [for attempt in attempts: body]; [None] when the loop runs to its end. *)
Fixpoint for_each (body : nat -> M flow) (attempts : list nat)
  : M (option json) :=
  match attempts with
  | [] => ret None
  | attempt :: rest =>
      f <- body attempt ;;
      match f with
      | Continue => for_each body rest
      | Return result => ret (Some result)
      end
  end.

Definition endpoint : string :=
  "https://openrouter.ai/api/v1/chat/completions".

Definition build_request (api_key model : pystr)
    (messages : list chat_message) (timeout : Z) : request :=
  {| url := endpoint;
     headers := [("Authorization"%string, py "Bearer " ++ api_key);
                 ("Content-Type"%string, py "application/json")];
     payload_model := model;
     payload_messages := messages;
     payload_max_tokens := 4000;
     request_timeout := timeout |}.

Definition call_llm_with_timeout_handling (api_key model : pystr)
    (messages : list chat_message) (max_retries timeout : Z)
  : M (option json) :=
  let req := build_request api_key model messages timeout in
  r <- for_each (attempt_body req max_retries) (range max_retries) ;;
  match r with
  | Some result => ret (Some result)
  | None => tell (Stdout AllFailedLine) ;; ret None
  end.

(** The defaults of the two optional parameters. *)
Definition default_max_retries : Z := 3.
Definition default_timeout : Z := 120.

(** ** main *)

Definition api_key_required : string :=
  "API key is required. Set OPENROUTER_API_KEY environment variable or provide --api-key.".

Definition query_blank : string := "Query cannot be blank.".

(** [api_key] is [None] when neither the option nor the environment variable
    gives one. *)
Definition main (api_key : option pystr) (query model : pystr) (timeout : Z)
  : M unit :=
  match api_key with
  | None | Some [] => raise (ClickException api_key_required)
  | Some key =>
      match strip query with
      | [] => raise (ClickException query_blank)
      | _ =>
          let messages := [[(py "role", py "user"); (py "content", query)]] in
          result <- call_llm_with_timeout_handling key model messages
                      default_max_retries timeout ;;
          some <- match result with
                  | Some r => if truthy r then has_choices r else ret false
                  | None => ret false
                  end ;;
          if some : bool then
            match result with
            | Some r =>
                content <- first_content r ;;
                tell (Stdout (ContentLine content))
            | None => tell (Stdout NoResponseLine)
            end
          else tell (Stdout NoResponseLine)
      end
  end.

End Client.

(** ** The classifier and the other exceptions of [json.loads]

    [try: json.loads(response_text); return False] followed by
    [except json.JSONDecodeError: pass] catches [JSONDecodeError] and nothing
    else: an exception of another class that [json.loads] raises leaves the
    function. *)

Module Decoder.

(** How [json.loads] ends on a [str]. *)
Inductive loads_outcome :=
| Returned           (* the decoded value is returned *)
| DecodeError        (* JSONDecodeError is raised *)
| Raised (e : exn).  (* an exception that is no JSONDecodeError is raised:
                        ValueError, RecursionError *)

Section Classifier.

Variable json_loads : pystr -> loads_outcome.

Definition is_llm_response_incomplete (response_text : json) : M bool :=
  if negb (truthy response_text) then ret true
  else
    match response_text with
    | JStr text =>
        match json_loads text with
        | Returned => ret false
        | Raised e => raise e
        | DecodeError =>
            if existsb (fun p => search p (strip text)) incomplete_patterns
            then ret true
            else if length (strip text) <? 50 then ret true
            else ret false
        end
    | _ => raise TypeError   (* json.loads takes str, bytes or bytearray *)
    end.

End Classifier.

(** The decoder that raises [JSONDecodeError] where [json_loads] answers
    [false], and nothing else. *)
Definition decode_errors_only (json_loads : pystr -> bool)
  : pystr -> loads_outcome :=
  fun text => if json_loads text then Returned else DecodeError.

End Decoder.

(** * The setup script (src/cli/setup/vm_setup_script.py)

    The script talks to the machine it configures: it starts processes, looks
    for files, reads an answer from the terminal, writes the environment and
    a file.  A computation of the script takes the events that happened
    before it and returns the events it adds and a value or the exception
    that leaves it; what the machine answers to a question is a function of
    the events before the question, so that the theorems hold for every
    machine. *)
Module Setup.

(** ** More of Python's [str] *)

(** [s.split(sep)] for a separator of one character: never empty. *)
Fixpoint split (sep : N) (s : pystr) : list pystr :=
  match s with
  | [] => [[]]
  | c :: s' =>
      if (c =? sep)%N then [] :: split sep s'
      else
        match split sep s' with
        | part :: parts => (c :: part) :: parts
        | [] => [[c]]
        end
  end.

(** [sep.join(parts)] *)
Fixpoint join (sep : pystr) (parts : list pystr) : pystr :=
  match parts with
  | [] => []
  | [part] => part
  | part :: parts' => part ++ sep ++ join sep parts'
  end.

(** [s.replace(old, new)] for [old] not empty: the occurrences of [old] are
    replaced from the left, and the text of an occurrence, of which [skip]
    characters remain, starts no other. *)
Fixpoint replace_from (old new : pystr) (skip : nat) (s : pystr) : pystr :=
  match s with
  | [] => []
  | c :: s' =>
      match skip with
      | S skip' => replace_from old new skip' s'
      | O =>
          if startswith old s
          then new ++ replace_from old new (length old - 1) s'
          else c :: replace_from old new 0 s'
      end
  end.

Definition replace (old new s : pystr) : pystr := replace_from old new 0 s.

(** ** Exceptions, values, events *)

Inductive exc :=
| CalledProcessError (returncode : Z) (stdout stderr : option pystr)
| TimeoutExpired
| OSError          (* a program that cannot be started, a file that cannot
                      be opened *)
| EOFError         (* [input] at the end of the input *)
| AttributeError   (* an attribute of [None] *)
| SystemExit (code : Z).

(** [except Exception] catches every exception but [SystemExit]. *)
Definition is_exception (e : exc) : bool :=
  match e with
  | SystemExit _ => false
  | _ => true
  end.

(** [Path.home() / ...] and [Path(name)]. *)
Inductive path :=
| Home (parts : list pystr)
| Named (name : pystr).

(** What a line interpolates. *)
Inductive value :=
| VStr (s : pystr)
| VNone
| VInt (z : Z)
| VPath (p : path)
| VExc (e : exc).

Definition value_of (o : option pystr) : value :=
  match o with
  | Some s => VStr s
  | None => VNone
  end.

(** The arguments of [subprocess.run]; [text] is always [True]. *)
Record command := {
  args : pystr + list pystr;   (* a [str] or a [list] *)
  shell : bool;
  capture_output : bool;
  check : bool;
  cwd : option path;           (* [str] of the path *)
  env : option (list (pystr * pystr));
  timeout : option Z
}.

Inductive stream := stdout_stream | stderr_stream.

Inductive event :=
| Print (to : stream) (source_line : nat) (values : list value)
    (* the [print] of that line of the source, with the values it
       interpolates *)
| Run (c : command)                 (* [subprocess.run] *)
| Exists (p : path)                 (* [p.exists()] *)
| Input (source_line : nat)         (* [input(...)] *)
| Read (p : path)                   (* [open(p, 'r')] and [read] *)
| Append (p : path) (text : pystr)  (* [open(p, 'a')] and [write] *)
| SetEnv (name value : pystr).      (* [os.environ[name] = value] *)

(** How a process ends.  A process run without a timeout never expires;
    the theorems hold for the machines that let it expire too. *)
Inductive process :=
| Exited (returncode : Z) (out err : pystr)
| Expired          (* the timeout passed *)
| NotStarted.      (* the program cannot be started *)

(** The machine: its answers after the events [h]. *)
Record machine := {
  proc : list event -> command -> process;
  exists_ : list event -> path -> bool;
  input_ : list event -> option pystr;        (* [None]: end of input *)
  read_ : list event -> path -> option pystr; (* [None]: cannot be opened *)
  writable : list event -> path -> bool;
  environ : pystr -> option pystr             (* at the start of the script *)
}.

(** [subprocess.CompletedProcess] *)
Record completed := {
  returncode : Z;
  stdout : option pystr;
  stderr : option pystr
}.

(** ** Computations *)

Definition S (A : Type) : Type :=
  list event -> list event * (exc + A).

Definition ret {A} (a : A) : S A := fun _ => ([], inr a).

Definition raise {A} (e : exc) : S A := fun _ => ([], inl e).

Definition emit (e : event) : S unit := fun _ => ([e], inr tt).

Definition bind {A B} (m : S A) (f : A -> S B) : S B :=
  fun h =>
    match m h with
    | (t, inl e) => (t, inl e)
    | (t, inr a) => let (t', r) := f a (h ++ t) in (t ++ t', r)
    end.

(** [try: m except ...: handler]; [handler e] is [None] when no clause
    catches [e]. *)
Definition try_except {A} (m : S A) (handler : exc -> option (S A)) : S A :=
  fun h =>
    match m h with
    | (t, inl e) =>
        match handler e with
        | Some k => let (t', r) := k (h ++ t) in (t ++ t', r)
        | None => (t, inl e)
        end
    | (t, inr a) => (t, inr a)
    end.

Declare Scope setup_scope.
Delimit Scope setup_scope with setup.
Notation "x <- m ;; k" := (bind m (fun x => k))
  (at level 100, m at next level, right associativity) : setup_scope.
Notation "m ;; k" := (bind m (fun _ => k))
  (at level 100, right associativity) : setup_scope.
Local Open Scope setup_scope.

Definition print (l : nat) (values : list value) : S unit :=
  emit (Print stdout_stream l values).

Definition print_err (l : nat) (values : list value) : S unit :=
  emit (Print stderr_stream l values).

(** [os.getenv(name, default)] after the events [h]: the last value written
    by the script, or the value at the start. *)
Fixpoint written (name : pystr) (h : list event) : option pystr :=
  match h with
  | [] => None
  | e :: h' =>
      match written name h' with
      | Some v => Some v
      | None =>
          match e with
          | SetEnv n v => if pystr_eqb n name then Some v else None
          | _ => None
          end
      end
  end.

Section Script.

Variable m : machine.

(** [str.lower], of the Python library. *)
Variable lower : pystr -> pystr.

Definition getenv (name default : pystr) : S pystr :=
  fun h =>
    ([], inr match written name h with
             | Some v => v
             | None =>
                 match environ m name with
                 | Some v => v
                 | None => default
                 end
             end).

Definition path_exists (p : path) : S bool :=
  fun h => ([Exists p], inr (exists_ m h p)).

Definition input (l : nat) : S pystr :=
  fun h =>
    ([Input l], match input_ m h with
                | Some s => inr s
                | None => inl EOFError
                end).

Definition read_file (p : path) : S pystr :=
  fun h =>
    ([Read p], match read_ m h p with
               | Some s => inr s
               | None => inl OSError
               end).

Definition append_file (p : path) (text : pystr) : S unit :=
  fun h =>
    if writable m h p then ([Append p text], inr tt) else ([], inl OSError).

(** [subprocess.run(..., text=True)] *)
Definition subprocess_run (c : command) : S completed :=
  fun h =>
    ([Run c],
     match proc m h c with
     | Exited rc out err =>
         let o := if capture_output c then Some out else None in
         let e := if capture_output c then Some err else None in
         if check c && negb (rc =? 0)%Z
         then inl (CalledProcessError rc o e)
         else inr {| returncode := rc; stdout := o; stderr := e |}
     | Expired => inl TimeoutExpired
     | NotStarted => inl OSError
     end).

(** ** CommandLineInterface *)

Definition cli_run (c : command) : S completed :=
  try_except (subprocess_run c)
    (fun e =>
       match e with
       | CalledProcessError rc out err =>
           Some (print_err 78 [VInt rc] ;;
                 print_err 79 [value_of out] ;;
                 print_err 80 [value_of err] ;;
                 raise e)
       | TimeoutExpired =>
           Some (print_err 83 [match timeout c with
                               | Some t => VInt t
                               | None => VNone
                               end] ;;
                 raise e)
       | SystemExit _ => None
       | _ => Some (print_err 86 [VExc e] ;; raise e)
       end).

Definition print_box (message : value) (boxchar : pystr) : S unit :=
  print 93 [VStr boxchar] ;;
  print 94 [VStr boxchar; message] ;;
  print 95 [VStr boxchar].

Definition print_h2_header (message : value) (divider_char : pystr)
  : S unit :=
  print 100 [VStr divider_char; message].

(** The default of [divider_char] in [print_title_header] and [title], as
    the source file has it. *)
Definition fire : pystr := [63743; 252; 238; 8226]%N.

Definition print_title_header (message : value) (divider_char : pystr)
  : S unit :=
  print_box message divider_char.

Definition h2 (message : pystr) : S unit :=
  print_h2_header (VStr message) (py "-").

Definition title (message : value) : S unit :=
  print_title_header message fire.

(** ** VMSetup *)

Record VMSetup := {
  github_repo : pystr;
  project_repo : pystr;
  email : pystr;
  api_key : pystr
}.

(** [self.run(command)] with the defaults of the other parameters. *)
Definition argv (a : list pystr) : command :=
  {| args := inr a; shell := false; capture_output := true; check := true;
     cwd := None; env := None; timeout := None |}.

Definition run (c : command) : S completed := cli_run c.

Definition cmd (command : pystr) : S unit :=
  let a := split 32 command in
  cli_run (argv a) ;;
  ret tt.

Definition newline : pystr := [10%N].

(** The mark at the start of the lines of success, as the source file has
    it. *)
Definition check_mark : pystr := [8218; 250; 236]%N.

Definition clone_and_configure_git (self : VMSetup) : S unit :=
  title (VStr (py "Clone repository and configure Git settings.")) ;;
  print 154 [] ;;
  print 155 [] ;;
  h2 (newline ++ py "Cloning repository: " ++ github_repo self) ;;
  run (argv [py "git"; py "clone"; github_repo self]) ;;
  h2 (newline ++ py "Configuring Git user settings...") ;;
  run (argv [py "git"; py "config"; py "--global"; py "user.email";
             email self]) ;;
  run (argv [py "git"; py "config"; py "--global"; py "user.name";
             py "Ralph Wiggum"]) ;;
  h2 (check_mark ++ py " Git configuration complete").

(** [result.stdout.strip()] *)
Definition stdout_strip (result : completed) : S pystr :=
  match stdout result with
  | Some s => ret (strip s)
  | None => raise AttributeError
  end.

(** The command line given to the shell in [setup_nodejs]. *)
Definition install_node : pystr :=
  py "curl -fsSL https://deb.nodesource.com/setup_20.x | sudo -E bash -".

Definition setup_nodejs (self : VMSetup) : S unit :=
  title (VStr (py "Install Node.js and npm.")) ;;
  present <- path_exists (Named (py "setup.sh")) ;;
  (if present : bool
   then run (argv [py "sudo"; py "chmod"; py "+x"; py "setup.sh"]) ;; ret tt
   else ret tt) ;;
  h2 (py "Installing Node.js 20.x...") ;;
  run {| args := inl install_node;
         shell := true; capture_output := true; check := true;
         cwd := None; env := None; timeout := None |} ;;
  run (argv [py "sudo"; py "apt-get"; py "install"; py "-y"; py "nodejs"]) ;;
  result <- run (argv [py "node"; py "--version"]) ;;
  version <- stdout_strip result ;;
  print 186 [VStr version] ;;
  result <- run (argv [py "npm"; py "--version"]) ;;
  version <- stdout_strip result ;;
  print 189 [VStr version].

Definition quote : pystr := [34%N].

Definition setup_api_key (self : VMSetup) : S unit :=
  title (VStr (py "Configure OpenRouter API key.")) ;;
  h2 (py "Setting OPENROUTER_API_KEY environment variable...") ;;
  emit (SetEnv (py "OPENROUTER_API_KEY") (api_key self)) ;;
  let bashrc_path := Home [py ".bashrc"] in
  let export_line :=
    py "export OPENROUTER_API_KEY=" ++ quote ++ api_key self ++ quote
    ++ newline in
  append_file bashrc_path
    (newline ++ py "# Added by VM setup script" ++ newline ++ export_line) ;;
  print 205 [].

Definition setup_playwright (self : VMSetup) : S unit :=
  title (VStr (py "Install Playwright and its dependencies.")) ;;
  h2 (py "Installing Playwright dependencies...") ;;
  run (argv [py "npx"; py "playwright"; py "install-deps"]) ;;
  h2 (py "Installing Playwright browsers...") ;;
  run (argv [py "npx"; py "playwright"; py "install"]) ;;
  print 217 [].

Definition setup_github_cli (self : VMSetup) : S unit :=
  title (VStr (py "Install and configure GitHub CLI.")) ;;
  h2 (py "Installing GitHub CLI...") ;;
  run (argv [py "sudo"; py "apt-get"; py "install"; py "-y"; py "gh"]) ;;
  title (VStr (py "MANUAL STEP REQUIRED: GitHub CLI Authentication")) ;;
  print 228 [] ;;
  print 229 [] ;;
  print 230 [] ;;
  print 231 [].

Definition ssh_keygen (self : VMSetup) : command :=
  {| args := inr [py "ssh-keygen"; py "-t"; py "ed25519"; py "-C";
                  email self];
     shell := false; capture_output := false; check := true;
     cwd := None; env := None; timeout := None |}.

Definition setup_ssh_keys (self : VMSetup) : S unit :=
  title (VStr (py "Generate SSH keys for GitHub.")) ;;
  let ssh_key_path := Home [py ".ssh"; py "id_ed25519"] in
  present <- path_exists ssh_key_path ;;
  go_on <- (if present : bool then
              print 240 [VPath ssh_key_path] ;;
              response <- input 241 ;;
              if pystr_eqb (lower response) (py "y") then ret true
              else print 243 [] ;; ret false   (* return *)
            else ret true) ;;
  if go_on : bool then
    print 246 [VStr (email self)] ;;
    title (VStr (py "MANUAL STEP: You will be prompted for a passphrase")) ;;
    generated <- try_except
                   (run (ssh_keygen self) ;; ret true)
                   (fun e =>
                      match e with
                      | CalledProcessError _ _ _ =>
                          Some (print 255 [] ;; ret false)   (* return *)
                      | _ => None
                      end) ;;
    if generated : bool then
      let pub_key_path := Home [py ".ssh"; py "id_ed25519.pub"] in
      present <- path_exists pub_key_path ;;
      if present : bool then
        content <- read_file pub_key_path ;;
        let pub_key := strip content in
        title (VStr (py "SSH Public Key Generated")) ;;
        print 265 [VStr pub_key] ;;
        print 266 [] ;;
        print 267 [] ;;
        print 268 [] ;;
        print 269 [] ;;
        print 270 []
      else print 272 []
    else ret tt
  else ret tt.

Definition in_repo (a : list pystr) (repo_path : path) : command :=
  {| args := inr a; shell := false; capture_output := true; check := true;
     cwd := Some repo_path; env := None; timeout := None |}.

Definition git_fetch := in_repo [py "git"; py "fetch"].
Definition git_pull := in_repo [py "git"; py "pull"].
Definition git_push :=
  in_repo [py "git"; py "push"; py "--set-upstream"; py "origin"; py "main"].

Definition sync_repository (self : VMSetup) (repo_name : pystr) : S unit :=
  title (VStr (py "Fetch, pull, and push repository changes.")) ;;
  let repo_path := Named repo_name in
  present <- path_exists repo_path ;;
  if negb present then print 280 [VStr repo_name]   (* return *)
  else
    print 283 [VPath repo_path] ;;
    print 286 [] ;;
    run (git_fetch repo_path) ;;
    print 290 [] ;;
    try_except (run (git_pull repo_path) ;; ret tt)
      (fun e =>
         match e with
         | CalledProcessError _ _ _ => Some (print 294 [VExc e])
         | _ => None
         end) ;;
    print 297 [] ;;
    try_except (run (git_push repo_path) ;; ret tt)
      (fun e =>
         match e with
         | CalledProcessError _ _ _ =>
             Some (print 304 [VExc e] ;; print 305 [])
         | _ => None
         end).

(** [self.github_repo.split('/')[-1].replace('.git', '')] *)
Definition repo_name_of (url : pystr) : pystr :=
  replace (py ".git") [] (last (split 47 url) []).

Definition run_full_setup (self : VMSetup) : S unit :=
  title (VStr (py "Execute the complete setup process.")) ;;
  print 311 [] ;;
  print 312 [] ;;
  print 313 [] ;;
  try_except
    (clone_and_configure_git self ;;
     setup_nodejs self ;;
     setup_api_key self ;;
     setup_playwright self ;;
     setup_github_cli self ;;
     setup_ssh_keys self ;;
     let repo_name := repo_name_of (github_repo self) in
     sync_repository self repo_name ;;
     print_title_header (VStr (py "Setup Complete!")) fire ;;
     print 328 [] ;;
     print 329 [] ;;
     print 330 [] ;;
     print 331 [] ;;
     print 332 [])
    (fun e =>
       if is_exception e
       then Some (print_err 335 [VExc e] ;; raise (SystemExit 1))
       else None).

Definition default_repo : pystr :=
  py "https://github.com/sandstream/ralph-inferno.git".

Definition masked_email : pystr :=
  py "{{your-masked-github-email-here@users.noreply.github.com}}".

Definition masked_key : pystr :=
  py "{{inject-your-key-here-do-not-hardcode}}".

(** The function has no docstring: its [__doc__] is [None]. *)
Definition get_secrets_from_env : S VMSetup :=
  title VNone ;;
  GITHUB_REPO <- getenv (py "GITHUB_REPO") default_repo ;;
  EMAIL <- getenv (py "GIT_EMAIL") masked_email ;;
  API_KEY <- getenv (py "OPENROUTER_API_KEY") masked_key ;;
  PROJECT_REPO <- getenv (py "PROJECT_REPO") [] ;;
  if str_contains (py "{{") EMAIL || str_contains (py "{{") API_KEY then
    print_err 351 [] ;;
    print 352 [] ;;
    print 353 [] ;;
    print 354 [] ;;
    print 355 [] ;;
    raise (SystemExit 1)
  else
    ret {| github_repo := GITHUB_REPO; project_repo := PROJECT_REPO;
           email := EMAIL; api_key := API_KEY |}.

Definition main : S unit :=
  title (VStr (py "Main entry point for the setup script.")) ;;
  vm_setup <- get_secrets_from_env ;;
  run_full_setup vm_setup.

End Script.

End Setup.

(** * The vocabulary of the properties *)

(** ** Texts *)

Definition last_char (s : pystr) : option N :=
  match rev s with
  | c :: _ => Some c
  | [] => None
  end.

(** [s] ends with one of the characters of [cs]. *)
Definition ends_with_any (cs : list N) (s : pystr) : bool :=
  match last_char s with
  | Some c => existsb (N.eqb c) cs
  | None => false
  end.

(** The characters that the six patterns ask for. *)
Definition fragment_chars : list N := [125; 44; 58; 34; 91; 123]%N.

(** The argument of the classifier: a [str] or [None]. *)
Definition optional_str (o : option pystr) : json :=
  match o with
  | Some text => JStr text
  | None => JNull
  end.

(** [classify] returns a truth value on every value it is given. *)
Definition returns_on_every_input (classify : json -> M bool) : Prop :=
  forall input : json, exists b : bool, classify input = ret b.

(** The trailing fragments in the words of the specification. *)
Module Spec.

(** The number of braces still open after [s], from [depth] open ones; a
    closing brace with nothing to close is dropped. *)
Fixpoint open_braces (depth : nat) (s : pystr) : nat :=
  match s with
  | [] => depth
  | c :: s' =>
      if (c =? 123)%N then open_braces (S depth) s'
      else if (c =? 125)%N then open_braces (pred depth) s'
      else open_braces depth s'
  end.

(** [s] ends with a closing brace and no brace is open before it: the brace
    is unmatched in its context. *)
Definition lone_closing_brace (s : pystr) : bool :=
  match rev s with
  | c :: before => (c =? 125)%N && (open_braces 0 (rev before) =? 0)
  | [] => false
  end.

(** An opening bracket or brace in the last position is unmatched: nothing
    follows that could close it. *)
Definition unmatched_opening (s : pystr) : bool :=
  ends_with_any [91; 123]%N s.

Definition trailing_fragment (s : pystr) : bool :=
  unmatched_opening s
  || ends_with_any [58]%N s
  || ends_with_any [44]%N s
  || ends_with_any [34]%N s
  || lone_closing_brace s.

(** The third and fifth steps of the policy, as the specification states
    them, for a decoder [loads]. *)
Definition long_text_without_fragment_is_complete
    (loads : pystr -> bool) : Prop :=
  forall text : pystr,
    loads text = false ->
    trailing_fragment (strip text) = false ->
    50 <= length (strip text) ->
    is_llm_response_incomplete loads (JStr text) = ret false.

End Spec.

(** A text of 54 characters that is no JSON and ends with a brace that
    closes the brace opened before it. *)
Definition braces_matched : pystr :=
  py "function main() { return compute_the_answer(40 + 2); }".

(** ** Reading a trace *)

(** The attempts whose request was sent, in order. *)
Fixpoint posts (tr : list event) : list nat :=
  match tr with
  | Post attempt _ :: tr' => attempt :: posts tr'
  | _ :: tr' => posts tr'
  | [] => []
  end.

(** The durations of the sleeps, in order. *)
Fixpoint sleeps (tr : list event) : list Z :=
  match tr with
  | Sleep d :: tr' => d :: sleeps tr'
  | _ :: tr' => sleeps tr'
  | [] => []
  end.

(** The events up to the next request. *)
Fixpoint until_post (tr : list event) : list event :=
  match tr with
  | Post _ _ :: _ => []
  | e :: tr' => e :: until_post tr'
  | [] => []
  end.

(** The events between the request of [attempt] and the next request. *)
Fixpoint after_post (attempt : nat) (tr : list event) : list event :=
  match tr with
  | Post a _ :: tr' =>
      if a =? attempt then until_post tr' else after_post attempt tr'
  | _ :: tr' => after_post attempt tr'
  | [] => []
  end.

(** ** Computations without events *)

(** The exceptions that the operations on values raise; the handlers of the
    loop catch none of them. *)
Definition python_error (e : exn) : Prop :=
  match e with
  | KeyError | TypeError | IndexError => True
  | _ => False
  end.

(** [m] performs no event and raises, if anything, a [python_error]. *)
Definition pure {A} (m : M A) : Prop :=
  trace m = [] /\
  match outcome m with
  | inl e => python_error e
  | inr _ => True
  end.

(** ** What an attempt yields *)

(** The first choice of the response [result] has a content, and the
    classifier returns [b] on it. *)
Definition classified (json_loads : pystr -> bool) (result : json) (b : bool)
  : Prop :=
  exists content : json,
    first_content result = ret content
    /\ is_llm_response_incomplete json_loads content = ret b.

(** The failed attempts: a timeout, a transport error, a response without
    choices, a response classified incomplete. *)
Definition attempt_fails (json_loads : pystr -> bool) (o : http_outcome)
  : Prop :=
  match o with
  | TimedOut | RequestFailed => True
  | Responded result =>
      has_choices result = ret false \/ classified json_loads result true
  end.

(** ** What the body of the loop does with it *)

Section Verdict.

Variable json_loads : pystr -> bool.
Variable net : request -> nat -> http_outcome.
Variable req : request.
Variable max_retries : Z.

(** What the body of the loop makes of the outcome of a request. *)
Inductive verdict :=
| Accepted (result : json)
| Incomplete
| NoChoices
| TimeoutCaught
| FailureCaught
| Escaped (e : exn).

Definition judge (o : http_outcome) : verdict :=
  match o with
  | TimedOut => TimeoutCaught
  | RequestFailed => FailureCaught
  | Responded r =>
      match outcome (has_choices r) with
      | inl e => Escaped e
      | inr false => NoChoices
      | inr true =>
          match outcome (first_content r) with
          | inl e => Escaped e
          | inr content =>
              match outcome (is_llm_response_incomplete json_loads content) with
              | inl e => Escaped e
              | inr true => Incomplete
              | inr false => Accepted r
              end
          end
      end
  end.

(** The events of an attempt after its request; [n] is [attempt + 1]. *)
Definition aftermath (v : verdict) (n : nat) : list event :=
  match v with
  | Incomplete => [Stdout (IncompleteLine n); Sleep 2]
  | TimeoutCaught => [Stdout (TimedOutLine n)]
  | FailureCaught => [Stdout (FailedLine n)]
  | Accepted _ | NoChoices | Escaped _ => []
  end.

Definition flow_of (v : verdict) : exn + flow :=
  match v with
  | Accepted r => inr (Return r)
  | Escaped e => inl e
  | Incomplete | NoChoices | TimeoutCaught | FailureCaught => inr Continue
  end.

Definition segment (attempt : nat) : list event :=
  Stdout (AttemptLine (attempt + 1) max_retries)
  :: Post attempt req
  :: aftermath (judge (net req attempt)) (attempt + 1).

(** The loop goes on after [attempt]. *)
Definition continues (attempt : nat) : Prop :=
  flow_of (judge (net req attempt)) = inr Continue.

End Verdict.

(** ** Concrete inputs *)

(** The response [{"choices": [{"message": {"content": content}}]}]. *)
Definition response_with (content : json) : json :=
  JObj [(py "choices",
         JArr [JObj [(py "message", JObj [(py "content", content)])]])].

(** A plain answer of 200 characters. *)
Definition long_answer : pystr :=
  concat (repeat (py "A complete sentence of forty characters ") 5).

(** Every request times out. *)
Definition net_timeouts : request -> nat -> http_outcome :=
  fun _ _ => TimedOut.

(** The first response is too short, the second is [long_answer]. *)
Definition net_short_then_long : request -> nat -> http_outcome :=
  fun _ attempt =>
    match attempt with
    | 0 => Responded (response_with (JStr (py "ab")))
    | _ => Responded (response_with (JStr long_answer))
    end.

(** A timeout, a transport error, a response without choices, then
    incomplete responses. *)
Definition net_all_fail : request -> nat -> http_outcome :=
  fun _ attempt =>
    match attempt with
    | 0 => TimedOut
    | 1 => RequestFailed
    | 2 => Responded (JObj [(py "error", JStr (py "overloaded"))])
    | _ => Responded (response_with (JStr (py "[1, 2,")))
    end.

Definition user_says (text : pystr) : list chat_message :=
  [[(py "role", py "user"); (py "content", text)]].

(** [{"choices": [{"finish_reason": "error"}]}]: the first choice has no
    message. *)
Definition choice_without_message : json :=
  JObj [(py "choices", JArr [JObj [(py "finish_reason", JStr (py "error"))]])].

(** [{"choices": [{"message": {"role": "assistant"}}]}]: the message has no
    content. *)
Definition message_without_content : json :=
  JObj [(py "choices",
         JArr [JObj [(py "message",
                      JObj [(py "role", JStr (py "assistant"))])]])].

(** [result["choices"]] is a list with a first element, and either that
    element has no key [message], or its message has no key [content]. *)
Definition malformed_first_choice (result : json) : Prop :=
  exists (first : json) (rest : list json),
    getitem result (py "choices") = ret (JArr (first :: rest))
    /\ (getitem first (py "message") = raise KeyError
        \/ exists message : json,
            getitem first (py "message") = ret message
            /\ getitem message (py "content") = raise KeyError).

(** ** Reading the requests and the console *)

(** The requests that were sent, in order. *)
Fixpoint requests (tr : list event) : list request :=
  match tr with
  | Post _ r :: tr' => r :: requests tr'
  | _ :: tr' => requests tr'
  | [] => []
  end.

(** ** Reading the events of the setup script *)

Module SetupTrace.
Import Setup.

(** The events and the result of a computation run after [h]. *)
Definition events {A} (r : list event * (exc + A)) : list event := fst r.
Definition result {A} (r : list event * (exc + A)) : exc + A := snd r.

(** The commands that were run, in order. *)
Fixpoint runs (tr : list event) : list command :=
  match tr with
  | Run c :: tr' => c :: runs tr'
  | _ :: tr' => runs tr'
  | [] => []
  end.

(** The texts appended to files and the variables written, in order. *)
Fixpoint writes (tr : list event) : list event :=
  match tr with
  | Append p t :: tr' => Append p t :: writes tr'
  | SetEnv n v :: tr' => SetEnv n v :: writes tr'
  | _ :: tr' => writes tr'
  | [] => []
  end.

(** [e] is a line on [stderr]. *)
Definition on_stderr (e : event) : bool :=
  match e with
  | Print stderr_stream _ _ => true
  | _ => false
  end.

(** The commands whose exit status the script tolerates: [ssh-keygen],
    [git pull] and [git push]. *)
Definition tolerated (c : command) : Prop :=
  (exists self, c = ssh_keygen self)
  \/ exists repo_path, c = git_pull repo_path \/ c = git_push repo_path.

(** [os.getenv(name)] after the events [h]. *)
Definition current (m : machine) (h : list event) (name : pystr)
  : option pystr :=
  match written name h with
  | Some v => Some v
  | None => environ m name
  end.

(** The process [a] of the command [c] ends in a way that the script does
    not tolerate: it cannot be started, it expires, or it exits with a
    status other than zero and [c] is not in [tol]. *)
Definition fatal (tol : command -> Prop) (a : process) (c : command)
  : Prop :=
  match a with
  | Exited rc _ _ => rc <> 0%Z /\ check c = true /\ ~ tol c
  | Expired | NotStarted => True
  end.

(** The value that [os.getenv(name, default)] returns. *)
Definition getenv_value (mach : machine) (h : list event)
    (name default : pystr) : pystr :=
  match written name h with
  | Some v => v
  | None =>
      match environ mach name with
      | Some v => v
      | None => default
      end
  end.

(** [c] starts no process and raises, if anything, an [Exception]. *)
Definition quiet {A} (c : S A) : Prop :=
  forall h,
    runs (events (c h)) = []
    /\ forall e, result (c h) = inl e -> is_exception e = true.

(** [c] raises, if anything, an [Exception], and after a process that ends
    in a way that is not tolerated it starts no other process and raises. *)
Definition orderly (mach : machine) (tol : command -> Prop) {A}
    (c : S A) : Prop :=
  forall h,
    (forall e, result (c h) = inl e -> is_exception e = true)
    /\ forall pre cmd post,
        events (c h) = pre ++ Run cmd :: post ->
        fatal tol (proc mach (h ++ pre) cmd) cmd ->
        runs post = [] /\ exists e, result (c h) = inl e.

(** [c] ends normally or with the exit status 1, and after a process that
    ends in a way that is not tolerated it starts no other process and ends
    with the exit status 1. *)
Definition final (mach : machine) (c : S unit) : Prop :=
  forall h,
    (result (c h) = inr tt \/ result (c h) = inl (SystemExit 1))
    /\ forall pre cmd post,
        events (c h) = pre ++ Run cmd :: post ->
        fatal tolerated (proc mach (h ++ pre) cmd) cmd ->
        runs post = [] /\ result (c h) = inl (SystemExit 1).

(** [q] starts no process and raises, if anything, [SystemExit(1)]. *)
Definition harmless {A} (q : S A) : Prop :=
  forall h,
    runs (events (q h)) = []
    /\ forall e, result (q h) = inl e -> e = SystemExit 1.

(** [str.lower] on the letters of ASCII, for the examples. *)
Definition ascii_lower (s : pystr) : pystr :=
  map (fun c => if (65 <=? c)%N && (c <=? 90)%N then (c + 32)%N else c) s.

(** A machine on which every command succeeds with the output [out], no
    path exists, the input is at its end and the environment is empty. *)
Definition bare_machine (out : pystr) : machine :=
  {| proc := fun _ _ => Exited 0 out [];
     exists_ := fun _ _ => false;
     input_ := fun _ => None;
     read_ := fun _ _ => None;
     writable := fun _ _ => true;
     environ := fun _ => None |}.

(** An environment with an email address and a key. *)
Definition configured : pystr -> option pystr :=
  fun name =>
    if pystr_eqb name (py "GIT_EMAIL") then Some (py "me@example.org")
    else if pystr_eqb name (py "OPENROUTER_API_KEY") then Some (py "sk-key")
    else None.

(** A configured machine on which every command exits with the status
    128. *)
Definition clone_fails : machine :=
  {| proc := fun _ _ => Exited 128 [] (py "fatal");
     exists_ := fun _ _ => false;
     input_ := fun _ => None;
     read_ := fun _ _ => None;
     writable := fun _ _ => true;
     environ := configured |}.

(** A machine on which every path exists, [git fetch] succeeds, every other
    command exits with the status 1, and the answer at the terminal is
    [yes]. *)
Definition reluctant : machine :=
  {| proc := fun _ c =>
               match args c with
               | inr [_; verb] =>
                   if pystr_eqb verb (py "fetch") then Exited 0 [] []
                   else Exited 1 [] []
               | _ => Exited 1 [] []
               end;
     exists_ := fun _ _ => true;
     input_ := fun _ => Some (py "yes");
     read_ := fun _ _ => None;
     writable := fun _ _ => true;
     environ := configured |}.

End SetupTrace.

(** * Properties *)

(** ** Whitespace and [strip] *)

Lemma last_char_app (s : pystr) (c : N) : last_char (s ++ [c]) = Some c.
Proof. unfold last_char. rewrite rev_app_distr. reflexivity. Qed.

Lemma lstrip_head (s : pystr) :
  lstrip s = [] \/ exists c r, lstrip s = c :: r /\ isspace c = false.
Proof.
  induction s as [|c s IH]; simpl; [now left|].
  destruct (isspace c) eqn:E; [exact IH|].
  right. now exists c, s.
Qed.

Lemma lstrip_blank (s : pystr) : lstrip s = [] <-> forallb isspace s = true.
Proof.
  induction s as [|c s IH]; simpl; [tauto|].
  destruct (isspace c); simpl; [exact IH|].
  split; discriminate.
Qed.

Lemma lstrip_suffix (s : pystr) :
  exists w, s = w ++ lstrip s /\ forallb isspace w = true.
Proof.
  induction s as [|c s [w [E F]]]; simpl.
  - now exists [].
  - destruct (isspace c) eqn:C.
    + exists (c :: w). simpl. rewrite C, F. now rewrite <- E.
    + now exists [].
Qed.

Lemma lstrip_length (s : pystr) : length (lstrip s) <= length s.
Proof.
  destruct (lstrip_suffix s) as [w [E _]].
  rewrite E at 2. rewrite length_app. lia.
Qed.

(** A stripped text is empty or ends with a character that is no
    whitespace. *)
Lemma rstrip_last (s : pystr) :
  rstrip s = [] \/ exists r c, rstrip s = r ++ [c] /\ isspace c = false.
Proof.
  unfold rstrip.
  destruct (lstrip_head (rev s)) as [E | [c [r [E F]]]]; rewrite E.
  - now left.
  - right. exists (rev r), c. now simpl.
Qed.

Lemma strip_last (s : pystr) :
  strip s = [] \/ exists r c, strip s = r ++ [c] /\ isspace c = false.
Proof. apply rstrip_last. Qed.

Lemma forallb_isspace_rev (s : pystr) :
  forallb isspace (rev s) = forallb isspace s.
Proof.
  induction s as [|c s IH]; simpl; [reflexivity|].
  rewrite forallb_app, IH. simpl. rewrite andb_true_r. apply andb_comm.
Qed.

(** A text strips to nothing exactly when it is blank. *)
Lemma strip_blank (s : pystr) : strip s = [] <-> forallb isspace s = true.
Proof.
  unfold strip, rstrip. split.
  - intros H. apply (f_equal (@rev N)) in H. rewrite rev_involutive in H.
    simpl in H. apply lstrip_blank in H. rewrite forallb_isspace_rev in H.
    destruct (lstrip_suffix s) as [w [E F]].
    rewrite E, forallb_app, F, H. reflexivity.
  - intros H. apply lstrip_blank in H. rewrite H. reflexivity.
Qed.

Lemma strip_length (s : pystr) : length (strip s) <= length s.
Proof.
  unfold strip, rstrip. rewrite length_rev.
  pose proof (lstrip_length (rev (lstrip s))) as H.
  rewrite length_rev in H. pose proof (lstrip_length s). lia.
Qed.

(** ** The patterns *)

Module ReFacts.
Import Re.

(** [\s*$] matches a text exactly when the text is whitespace. *)
Lemma space_star_end (t : pystr) :
  match_here [SpaceStar; EndAnchor] t = forallb isspace t.
Proof.
  induction t as [|x t IH]; [reflexivity|].
  change (match_here [SpaceStar; EndAnchor] (x :: t))
    with ((isspace x && match_here [SpaceStar; EndAnchor] t)
          || (at_end (x :: t) && true)).
  rewrite IH. simpl forallb.
  destruct t as [|y t]; simpl.
  - rewrite !andb_true_r. destruct (N.eqb_spec x 10) as [->|]; [reflexivity|].
    apply orb_false_r.
  - apply orb_false_r.
Qed.

Lemma match_here_char (c : N) (s : pystr) :
  match_here [Lit c; SpaceStar; EndAnchor] s =
  match s with
  | x :: t => (x =? c)%N && forallb isspace t
  | [] => false
  end.
Proof.
  destruct s as [|x t]; [reflexivity|].
  change (match_here [Lit c; SpaceStar; EndAnchor] (x :: t))
    with ((x =? c)%N && match_here [SpaceStar; EndAnchor] t).
  now rewrite space_star_end.
Qed.

(** [c\s*$] is found in a text exactly when some [c] of the text is followed
    by whitespace only. *)
Lemma search_char (c : N) (s : pystr) :
  search [Lit c; SpaceStar; EndAnchor] s = true <->
  exists pre w, s = pre ++ c :: w /\ forallb isspace w = true.
Proof.
  induction s as [|x s IH].
  - simpl. split; [discriminate|]. intros [pre [w [E _]]].
    now destruct pre.
  - change (search [Lit c; SpaceStar; EndAnchor] (x :: s))
      with (match_here [Lit c; SpaceStar; EndAnchor] (x :: s)
            || search [Lit c; SpaceStar; EndAnchor] s).
    rewrite match_here_char, orb_true_iff, andb_true_iff, IH. split.
    + intros [[E F] | [pre [w [E F]]]].
      * apply N.eqb_eq in E. subst x. now exists [], s.
      * exists (x :: pre), w. subst s. now split.
    + intros [pre [w [E F]]]. destruct pre as [|y pre]; simpl in E.
      * injection E as -> ->. left. now rewrite N.eqb_refl.
      * injection E as -> ->. right. now exists pre, w.
Qed.

(** On a text that does not end with whitespace the pattern asks for the
    last character. *)
Lemma search_char_last (c : N) (r : pystr) (d : N) :
  isspace d = false ->
  search [Lit c; SpaceStar; EndAnchor] (r ++ [d]) = (d =? c)%N.
Proof.
  intros Hd. apply eq_true_iff_eq. rewrite search_char, N.eqb_eq. split.
  - intros [pre [w [E F]]].
    destruct (rev w) as [|y w'] eqn:Ew.
    + apply (f_equal (@rev N)) in Ew. rewrite rev_involutive in Ew.
      simpl in Ew. subst w.
      change (pre ++ [c]) with (pre ++ [c]) in E.
      apply app_inj_tail in E. now destruct E.
    + apply (f_equal (@rev N)) in Ew. rewrite rev_involutive in Ew.
      simpl in Ew. subst w.
      change (pre ++ c :: rev w' ++ [y])
        with (pre ++ (c :: rev w') ++ [y]) in E.
      rewrite app_assoc in E. apply app_inj_tail in E. destruct E as [_ <-].
      rewrite forallb_app in F. simpl in F. rewrite Hd in F.
      rewrite andb_false_r in F. discriminate.
  - intros ->. now exists r, [].
Qed.

End ReFacts.

(** On a stripped text the six patterns ask whether the last character is
    one of the six. *)
Lemma patterns_on_stripped (s : pystr) :
  existsb (fun p => Re.search p (strip s)) incomplete_patterns =
  ends_with_any fragment_chars (strip s).
Proof.
  unfold ends_with_any.
  destruct (strip_last s) as [E | [r [c [E F]]]]; rewrite E.
  - reflexivity.
  - rewrite last_char_app. unfold incomplete_patterns, fragment_chars.
    simpl existsb. now rewrite !(fun k => ReFacts.search_char_last k r c F).
Qed.

(** ** The classifier *)

Section ClassifierFacts.

Variable json_loads : pystr -> bool.

(** What the classifier answers on a text that [json.loads] refuses. *)
Lemma classify_refused (text : pystr) :
  json_loads text = false ->
  is_llm_response_incomplete json_loads (JStr text) =
  ret (ends_with_any fragment_chars (strip text)
       || (length (strip text) <? 50)).
Proof.
  intros H. unfold is_llm_response_incomplete.
  destruct text as [|c text]; [reflexivity|].
  simpl truthy. cbv iota beta. simpl negb. cbv iota.
  rewrite H, patterns_on_stripped.
  destruct (ends_with_any fragment_chars (strip (c :: text))); [reflexivity|].
  simpl orb. now destruct (length (strip (c :: text)) <? 50).
Qed.

Lemma classify_accepted (text : pystr) :
  text <> [] -> json_loads text = true ->
  is_llm_response_incomplete json_loads (JStr text) = ret false.
Proof.
  intros Hne H. unfold is_llm_response_incomplete.
  destruct text as [|c text]; [contradiction|].
  simpl. now rewrite H.
Qed.

End ClassifierFacts.

(** C3, as stated, fails: [braces_matched] is no JSON, is 54 characters long
    and ends with a closing brace that is matched in its context, and the
    classifier calls it incomplete, because the first pattern asks for a
    closing brace at the end and for nothing else. *)
Lemma matched_brace_is_incomplete :
  ~ Spec.long_text_without_fragment_is_complete Json.loads.
Proof.
  intros H. specialize (H braces_matched).
  assert (E : is_llm_response_incomplete Json.loads (JStr braces_matched)
              = ret true) by (vm_compute; reflexivity).
  rewrite H in E;
    [discriminate E | vm_compute; reflexivity | vm_compute; reflexivity
    | vm_compute; lia].
Qed.

(** C3, amended: a text that [json.loads] refuses and whose stripped form has
    at least 50 characters is classified by its last character alone: it is
    incomplete exactly when the stripped form ends with a closing brace
    (matched or not), a comma, a colon, a double quote, an opening bracket or
    an opening brace. *)
Theorem long_text_classified_by_last_char :
  forall (json_loads : pystr -> bool) (text : pystr),
    json_loads text = false ->
    50 <= length (strip text) ->
    is_llm_response_incomplete json_loads (JStr text) =
    ret (ends_with_any [125; 44; 58; 34; 91; 123]%N (strip text)).
Proof.
  intros json_loads text H L. rewrite (classify_refused json_loads text H).
  fold fragment_chars.
  replace (length (strip text) <? 50) with false.
  - now rewrite orb_false_r.
  - symmetry. apply Nat.ltb_ge. exact L.
Qed.

Lemma long_text_classified_by_last_char_witness :
  is_llm_response_incomplete Json.loads
    (JStr (py "It is a long answer that ends without any fragment."))
  = ret false
  /\ is_llm_response_incomplete Json.loads (JStr braces_matched) = ret true.
Proof.
  split.
  - apply (long_text_classified_by_last_char Json.loads
             (py "It is a long answer that ends without any fragment."));
      vm_compute; [reflexivity | lia].
  - apply (long_text_classified_by_last_char Json.loads braces_matched);
      vm_compute; [reflexivity | lia].
Defined.

(** C4: a text that [json.loads] accepts is classified complete, whatever the
    patterns and the length test would say of it and whether or not
    whitespace follows the document.  ([json.loads] refuses the empty text,
    which the first test of the classifier answers.) *)
Theorem valid_json_is_complete :
  forall (json_loads : pystr -> bool) (text : pystr),
    json_loads [] = false ->
    json_loads text = true ->
    is_llm_response_incomplete json_loads (JStr text) = ret false.
Proof.
  intros json_loads text Hnil H. apply classify_accepted; [|exact H].
  intros ->. rewrite Hnil in H. discriminate H.
Qed.

(** A short document that ends with a closing brace and then whitespace: both
    later tests would call it incomplete. *)
Lemma valid_json_is_complete_witness :
  Json.loads [] = false
  /\ Json.loads (py "{ }  ") = true
  /\ ends_with_any fragment_chars (strip (py "{ }  ")) = true
  /\ (length (strip (py "{ }  ")) <? 50) = true
  /\ is_llm_response_incomplete Json.loads (JStr (py "{ }  ")) = ret false.
Proof.
  split; [reflexivity|]. split; [reflexivity|]. split; [reflexivity|].
  split; [reflexivity|].
  apply (valid_json_is_complete Json.loads (py "{ }  ")); reflexivity.
Defined.

(** C5: a text that [json.loads] refuses is classified incomplete when its
    stripped form ends with an opening brace, an opening bracket, a colon, a
    comma or a double quote, and when its stripped form has fewer than 50
    characters. *)
Theorem fragment_or_short_is_incomplete :
  forall (json_loads : pystr -> bool) (text : pystr),
    json_loads text = false ->
    ends_with_any [123; 91; 58; 44; 34]%N (strip text) = true
    \/ length (strip text) < 50 ->
    is_llm_response_incomplete json_loads (JStr text) = ret true.
Proof.
  intros json_loads text H D. rewrite (classify_refused json_loads text H).
  f_equal. apply orb_true_iff. destruct D as [D | D].
  - left. unfold ends_with_any, fragment_chars in *.
    destruct (last_char (strip text)) as [c|]; [|discriminate D].
    simpl in *. rewrite !orb_false_r in *.
    repeat (apply orb_true_iff in D; destruct D as [D | D]);
      rewrite D; now rewrite ?orb_true_r.
  - right. apply Nat.ltb_lt. exact D.
Qed.

Lemma fragment_or_short_is_incomplete_witness :
  is_llm_response_incomplete Json.loads
    (JStr (py "{'name': 'an answer cut off in the middle', 'items': ["))
  = ret true
  /\ is_llm_response_incomplete Json.loads (JStr (py "ab")) = ret true.
Proof.
  split.
  - apply (fragment_or_short_is_incomplete Json.loads
      (py "{'name': 'an answer cut off in the middle', 'items': ["));
      [reflexivity | left; reflexivity].
  - apply (fragment_or_short_is_incomplete Json.loads (py "ab"));
      [reflexivity | right; vm_compute; lia].
Defined.

(** ** The classifier on every value *)

Module DecoderFacts.

(** The classifier of [Section Client] is the classifier over a decoder that
    raises nothing but [JSONDecodeError]. *)
Lemma agrees (json_loads : pystr -> bool) (response_text : json) :
  Decoder.is_llm_response_incomplete (Decoder.decode_errors_only json_loads)
    response_text
  = is_llm_response_incomplete json_loads response_text.
Proof.
  unfold Decoder.is_llm_response_incomplete, is_llm_response_incomplete,
    Decoder.decode_errors_only.
  destruct (negb (truthy response_text)); [reflexivity|].
  destruct response_text; try reflexivity.
  now destruct (json_loads s).
Qed.

(** On a text that is not empty the classifier ends as the decoder lets it:
    with [False] when the decoder returns, with the verdict of the patterns
    and of the length when it raises [JSONDecodeError], with the exception
    when it raises another one. *)
Lemma on_text (json_loads : pystr -> Decoder.loads_outcome) (text : pystr) :
  text <> [] ->
  Decoder.is_llm_response_incomplete json_loads (JStr text)
  = match json_loads text with
    | Decoder.Returned => ret false
    | Decoder.Raised e => raise e
    | Decoder.DecodeError =>
        ret (existsb (fun p => search p (strip text)) incomplete_patterns
             || (length (strip text) <? 50))
    end.
Proof.
  intros H. destruct text as [|c text]; [contradiction|].
  unfold Decoder.is_llm_response_incomplete. simpl truthy. simpl negb.
  cbv iota. destruct (json_loads (c :: text)); try reflexivity.
  destruct (existsb _ incomplete_patterns); [reflexivity|].
  now destruct (length (strip (c :: text)) <? 50).
Qed.

(** An exception of [json.loads] that is no [JSONDecodeError] leaves the
    classifier. *)
Lemma other_exception_escapes (json_loads : pystr -> Decoder.loads_outcome)
    (text : pystr) (e : exn) :
  text <> [] ->
  json_loads text = Decoder.Raised e ->
  Decoder.is_llm_response_incomplete json_loads (JStr text) = raise e.
Proof. intros H E. now rewrite (on_text _ _ H), E. Qed.

(** The text of 4301 digits [9], on which CPython 3.11 raises [ValueError]
    with its default limit: where the decoder does, the classifier does. *)
Example integer_beyond_the_digit_limit
    (json_loads : pystr -> Decoder.loads_outcome) :
  json_loads (repeat 57%N 4301) = Decoder.Raised ValueError ->
  Decoder.is_llm_response_incomplete json_loads (JStr (repeat 57%N 4301))
  = raise ValueError.
Proof. apply other_exception_escapes. discriminate. Qed.

(** A text of opening brackets, on which CPython raises [RecursionError]
    when they are more than the recursion limit allows. *)
Example nesting_beyond_the_recursion_limit
    (json_loads : pystr -> Decoder.loads_outcome) (depth : nat) :
  json_loads (repeat 91%N (S depth)) = Decoder.Raised RecursionError ->
  Decoder.is_llm_response_incomplete json_loads (JStr (repeat 91%N (S depth)))
  = raise RecursionError.
Proof. apply other_exception_escapes. discriminate. Qed.

End DecoderFacts.

(** The classifier does not return a truth value on every value: on the
    number [5], which is true and no [str], [json.loads] raises [TypeError],
    and the classifier with it. *)
Lemma classifier_raises_on_a_number :
  ~ returns_on_every_input
      (Decoder.is_llm_response_incomplete
         (Decoder.decode_errors_only Json.loads)).
Proof.
  intros H. destruct (H (JInt 5)) as [b Hb]. discriminate Hb.
Qed.

(** C6, as the code has it: on a [str] on which [json.loads] returns or
    raises [JSONDecodeError] the classifier returns a truth value and raises
    nothing; on the empty text and on [None] it returns [True], whatever the
    decoder; on a value that is true and no [str] it raises [TypeError]. *)
Theorem classifier_returns_unless_decoder_raises :
  forall (json_loads : pystr -> Decoder.loads_outcome),
    (forall text : pystr,
        (forall e : exn, json_loads text <> Decoder.Raised e) ->
        exists b : bool,
          Decoder.is_llm_response_incomplete json_loads
            (optional_str (Some text)) = ret b)
    /\ Decoder.is_llm_response_incomplete json_loads (optional_str (Some []))
       = ret true
    /\ Decoder.is_llm_response_incomplete json_loads (optional_str None)
       = ret true
    /\ (forall value : json,
           truthy value = true ->
           (forall text : pystr, value <> JStr text) ->
           Decoder.is_llm_response_incomplete json_loads value
           = raise TypeError).
Proof.
  intros json_loads. split; [|split; [reflexivity|split; [reflexivity|]]].
  - intros text H. simpl optional_str.
    destruct text as [|c text]; [now exists true|].
    rewrite DecoderFacts.on_text by discriminate.
    destruct (json_loads (c :: text)) as [| |e] eqn:E.
    + now exists false.
    + eexists. reflexivity.
    + exfalso. exact (H e eq_refl).
  - intros value T N. unfold Decoder.is_llm_response_incomplete.
    rewrite T. simpl negb. cbv iota.
    destruct value; try reflexivity. exfalso. exact (N s eq_refl).
Qed.

Lemma classifier_returns_unless_decoder_raises_witness :
  (exists b : bool,
      Decoder.is_llm_response_incomplete
        (Decoder.decode_errors_only Json.loads)
        (optional_str (Some (py "{'answer': 42}"))) = ret b)
  /\ Decoder.is_llm_response_incomplete
       (Decoder.decode_errors_only Json.loads) (JArr [JInt 5])
     = raise TypeError.
Proof.
  pose proof (classifier_returns_unless_decoder_raises
                (Decoder.decode_errors_only Json.loads)) as [Htext [_ [_ Hval]]].
  split.
  - apply Htext. intros e. vm_compute. discriminate.
  - apply Hval; [reflexivity|]. intros text. discriminate.
Defined.

(** ** Computations without events *)

Lemma pure_ret {A} (a : A) : pure (ret a).
Proof. now split. Qed.

Lemma pure_raise {A} (e : exn) : python_error e -> pure (@raise A e).
Proof. now split. Qed.

Lemma pure_bind {A B} (m : M A) (f : A -> M B) :
  pure m -> (forall a, pure (f a)) -> pure (bind m f).
Proof.
  destruct m as [t [e|a]]; intros [Ht Ho] Hf; simpl in *; subst t.
  - now split.
  - specialize (Hf a). destruct (f a) as [t' r]. exact Hf.
Qed.

Lemma pure_eq {A} (m : M A) : pure m -> m = ([], outcome m).
Proof. destruct m as [t o]. intros [Ht _]. simpl in *. now subst t. Qed.

Create HintDb pure.
#[local] Hint Resolve pure_ret pure_raise pure_bind : pure.
#[local] Hint Extern 1 (python_error _) => exact I : pure.

Lemma pure_contains k v : pure (contains k v).
Proof. destruct v; simpl; auto with pure. Qed.

Lemma pure_getitem v k : pure (getitem v k).
Proof.
  destruct v; simpl; auto with pure.
  destruct (dict_get k members); auto with pure.
Qed.

Lemma pure_getitem0 v : pure (getitem0 v).
Proof.
  destruct v as [| | | |s|l|d]; simpl; auto with pure.
  - destruct s; auto with pure.
  - destruct l; auto with pure.
Qed.

Lemma pure_len_positive v : pure (len_positive v).
Proof. destruct v; simpl; auto with pure. Qed.

#[local] Hint Resolve pure_contains pure_getitem pure_getitem0
  pure_len_positive : pure.

Lemma pure_first_content r : pure (first_content r).
Proof. unfold first_content. auto 10 with pure. Qed.

Lemma pure_has_choices r : pure (has_choices r).
Proof.
  unfold has_choices. apply pure_bind; [auto with pure|].
  intros [|]; auto with pure.
Qed.

Lemma pure_classifier json_loads v :
  pure (is_llm_response_incomplete json_loads v).
Proof.
  unfold is_llm_response_incomplete.
  destruct (negb (truthy v)); [auto with pure|].
  destruct v; auto with pure.
  destruct (json_loads s); [auto with pure|].
  destruct (existsb _ _); [auto with pure|].
  destruct (_ <? _); auto with pure.
Qed.

(** A response from which the content can be read has choices. *)
Lemma first_content_has_choices r c :
  first_content r = ret c -> has_choices r = ret true.
Proof.
  unfold first_content, has_choices.
  destruct r as [| | | | | |d]; try discriminate.
  simpl. destruct (dict_get (py "choices") d) as [v|]; [|discriminate].
  simpl. destruct v as [| | | |s|l|d']; try discriminate.
  - destruct s; discriminate.
  - destruct l; [discriminate|]. reflexivity.
Qed.

(** ** Reading a trace *)

Lemma posts_app (t u : list event) : posts (t ++ u) = posts t ++ posts u.
Proof.
  induction t as [|e t IH]; [reflexivity|].
  destruct e; simpl; now rewrite IH.
Qed.

Lemma sleeps_app (t u : list event) : sleeps (t ++ u) = sleeps t ++ sleeps u.
Proof.
  induction t as [|e t IH]; [reflexivity|].
  destruct e; simpl; now rewrite IH.
Qed.

Lemma until_post_app (t u : list event) :
  posts t = [] -> until_post (t ++ u) = t ++ until_post u.
Proof.
  induction t as [|e t IH]; [reflexivity|].
  destruct e; simpl; try discriminate; intros H; now rewrite IH.
Qed.

Lemma after_post_app_absent (attempt : nat) (t u : list event) :
  ~ In attempt (posts t) ->
  after_post attempt (t ++ u) = after_post attempt u.
Proof.
  induction t as [|e t IH]; [reflexivity|].
  destruct e; simpl; auto.
  intros H. destruct (Nat.eqb_spec attempt0 attempt) as [->|_].
  - exfalso. apply H. now left.
  - apply IH. intros C. apply H. now right.
Qed.

(** ** One attempt *)

Section LoopFacts.

Variable json_loads : pystr -> bool.
Variable net : request -> nat -> http_outcome.
Variable req : request.
Variable max_retries : Z.

(** A step of the body that is [pure]: its value, or its exception, which no
    handler catches. *)
Ltac pure_step m H :=
  let t := fresh "t" in
  let e := fresh "e" in
  let Ht := fresh "Ht" in
  let Ho := fresh "Ho" in
  destruct H as [Ht Ho]; destruct m as [t [e|?]];
  unfold trace, outcome in Ht, Ho; simpl in Ht, Ho; subst t;
  [destruct e; try contradiction; reflexivity|]; simpl.

Lemma attempt_body_judge (attempt : nat) :
  attempt_body json_loads net req max_retries attempt =
  (segment json_loads net req max_retries attempt,
   flow_of (judge json_loads (net req attempt))).
Proof.
  unfold attempt_body, post_json, segment, judge.
  destruct (net req attempt) as [| |r]; [reflexivity|reflexivity|].
  unfold try_except, tell, ret. simpl.
  pure_step (has_choices r) (pure_has_choices r).
  destruct b; [|reflexivity].
  pure_step (first_content r) (pure_first_content r).
  pure_step (is_llm_response_incomplete json_loads j)
            (pure_classifier json_loads j).
  now destruct b.
Qed.

(** ** The loop *)

(** The loop over [n] attempts from [a] on either runs to its end, every
    attempt continuing, or stops at the first attempt that is accepted or
    that raises. *)
Lemma for_each_run (n a : nat) :
  let run :=
    for_each (attempt_body json_loads net req max_retries) (seq a n) in
  (trace run = flat_map (segment json_loads net req max_retries) (seq a n)
   /\ outcome run = inr None
   /\ forall i, a <= i < a + n -> continues json_loads net req i)
  \/ exists k,
      k < n
      /\ trace run
         = flat_map (segment json_loads net req max_retries) (seq a (S k))
      /\ (forall i, a <= i < a + k -> continues json_loads net req i)
      /\ ((exists r, judge json_loads (net req (a + k)) = Accepted r
                     /\ outcome run = inr (Some r))
          \/ (exists e, judge json_loads (net req (a + k)) = Escaped e
                        /\ outcome run = inl e)).
Proof.
  revert a. induction n as [|n IH]; intros a run.
  - left. repeat split. intros i Hi. lia.
  - subst run. simpl seq. simpl for_each. rewrite attempt_body_judge.
    destruct (flow_of (judge json_loads (net req a))) as [e|[|r]] eqn:F.
    + (* an exception leaves the body *)
      right. exists 0. rewrite Nat.add_0_r. simpl.
      repeat split; [lia | now rewrite app_nil_r | intros i Hi; lia |].
      right. exists e. split; [|reflexivity].
      destruct (judge json_loads (net req a)); try discriminate F.
      now injection F as ->.
    + (* continue *)
      simpl bind. specialize (IH (S a)). cbv zeta in IH.
      destruct (for_each _ (seq (S a) n)) as [t o].
      unfold trace, outcome in *. simpl fst in *. simpl snd in *.
      destruct IH as [[Ht [Ho Hall]] | [k [Hk [Ht [Hall Hstop]]]]].
      * left. subst t. repeat split; [exact Ho|].
        intros i Hi. destruct (Nat.eq_dec i a) as [->|]; [exact F|].
        apply Hall. lia.
      * right. exists (S k). subst t. repeat split; [lia| |].
        -- intros i Hi. destruct (Nat.eq_dec i a) as [->|]; [exact F|].
           apply Hall. lia.
        -- replace (a + S k) with (S a + k) by lia. exact Hstop.
    + (* return *)
      right. exists 0. rewrite Nat.add_0_r. simpl.
      repeat split; [lia | intros i Hi; lia |].
      left. exists r. split; [|reflexivity].
      destruct (judge json_loads (net req a)); try discriminate F.
      now injection F as ->.
Qed.

(** ** The events of the attempts *)

Lemma posts_aftermath v n : posts (aftermath v n) = [].
Proof. now destruct v. Qed.

Lemma segments_cons (a : nat) (l : list nat) :
  flat_map (segment json_loads net req max_retries) (a :: l) =
  segment json_loads net req max_retries a
  ++ flat_map (segment json_loads net req max_retries) l.
Proof. reflexivity. Qed.

Lemma posts_segment (attempt : nat) :
  posts (segment json_loads net req max_retries attempt) = [attempt].
Proof. unfold segment. simpl. now rewrite posts_aftermath. Qed.

Lemma posts_segments (l : list nat) :
  posts (flat_map (segment json_loads net req max_retries) l) = l.
Proof.
  induction l as [|a l IH]; [reflexivity|].
  rewrite segments_cons, posts_app, posts_segment, IH. reflexivity.
Qed.

Lemma sleeps_aftermath v n :
  sleeps (aftermath v n) = match v with Incomplete => [2%Z] | _ => [] end.
Proof. now destruct v. Qed.

Lemma sleeps_segment (attempt : nat) :
  sleeps (segment json_loads net req max_retries attempt) =
  match judge json_loads (net req attempt) with
  | Incomplete => [2%Z]
  | _ => []
  end.
Proof. unfold segment. simpl. apply sleeps_aftermath. Qed.

Lemma sleeps_segments (l : list nat) (d : Z) :
  In d (sleeps (flat_map (segment json_loads net req max_retries) l)) ->
  d = 2%Z.
Proof.
  induction l as [|a l IH]; [contradiction|].
  rewrite segments_cons, sleeps_app, sleeps_segment. intros H.
  apply in_app_or in H. destruct H as [H | H]; [|now apply IH].
  destruct (judge json_loads (net req a)); try contradiction.
  destruct H as [H | []]. now symmetry.
Qed.

(** No sleep stands between the start of attempts and their first
    request. *)
Lemma sleeps_until_post_segments (l : list nat) (tail : list event) :
  sleeps tail = [] -> posts tail = [] ->
  sleeps (until_post
            (flat_map (segment json_loads net req max_retries) l ++ tail))
  = [].
Proof.
  intros Hs Hp. destruct l as [|a l].
  - simpl. rewrite <- (app_nil_r tail), until_post_app by exact Hp.
    simpl. now rewrite app_nil_r.
  - reflexivity.
Qed.

(** After the request of an attempt and before the next request, the sleeps
    are those of the attempt. *)
Lemma sleeps_after_post (l : list nat) (tail : list event) (attempt : nat) :
  NoDup l -> In attempt l -> sleeps tail = [] -> posts tail = [] ->
  sleeps (after_post attempt
            (flat_map (segment json_loads net req max_retries) l ++ tail)) =
  match judge json_loads (net req attempt) with
  | Incomplete => [2%Z]
  | _ => []
  end.
Proof.
  intros Hl Hin Hs Hp. induction l as [|a l IH]; [contradiction|].
  inversion Hl as [|a' l' Ha Hl']; subst.
  rewrite segments_cons. unfold segment at 1. simpl app. simpl after_post.
  destruct (Nat.eqb_spec a attempt) as [->|Hne].
  - rewrite <- app_assoc, until_post_app by apply posts_aftermath.
    rewrite sleeps_app, sleeps_aftermath.
    rewrite (sleeps_until_post_segments l tail Hs Hp). apply app_nil_r.
  - rewrite <- app_assoc, after_post_app_absent
      by (rewrite posts_aftermath; intros []).
    apply IH; [exact Hl'|]. destruct Hin as [E|Hin]; [contradiction|exact Hin].
Qed.

End LoopFacts.

(** ** What an attempt yields *)

Section Verdicts.

Variable json_loads : pystr -> bool.

Lemma judge_classified (result : json) (b : bool) :
  classified json_loads result b ->
  judge json_loads (Responded result) =
  if b then Incomplete else Accepted result.
Proof.
  intros [content [Hc Hi]]. unfold judge.
  rewrite (first_content_has_choices _ _ Hc), Hc. simpl. rewrite Hi.
  reflexivity.
Qed.

Lemma judge_accepted (o : http_outcome) (result : json) :
  judge json_loads o = Accepted result <->
  o = Responded result /\ classified json_loads result false.
Proof.
  split.
  - destruct o as [| |r]; try discriminate. unfold judge.
    destruct (outcome (has_choices r)) as [e|[|]]; try discriminate.
    pose proof (pure_eq _ (pure_first_content r)) as Hc.
    destruct (outcome (first_content r)) as [e|content]; try discriminate.
    pose proof (pure_eq _ (pure_classifier json_loads content)) as Hi.
    destruct (outcome (is_llm_response_incomplete json_loads content))
      as [e|[|]]; try discriminate.
    intros H. injection H as ->. split; [reflexivity|].
    now exists content.
  - intros [-> H]. now rewrite (judge_classified _ _ H).
Qed.

Lemma judge_incomplete (o : http_outcome) :
  judge json_loads o = Incomplete <->
  exists result, o = Responded result /\ classified json_loads result true.
Proof.
  split.
  - destruct o as [| |r]; try discriminate. unfold judge.
    destruct (outcome (has_choices r)) as [e|[|]]; try discriminate.
    pose proof (pure_eq _ (pure_first_content r)) as Hc.
    destruct (outcome (first_content r)) as [e|content]; try discriminate.
    pose proof (pure_eq _ (pure_classifier json_loads content)) as Hi.
    destruct (outcome (is_llm_response_incomplete json_loads content))
      as [e|[|]]; try discriminate.
    intros _. exists r. split; [reflexivity|]. now exists content.
  - intros [result [-> H]]. now rewrite (judge_classified _ _ H).
Qed.

(** The failed attempts are those after which the loop continues. *)
Lemma attempt_fails_continue (o : http_outcome) :
  attempt_fails json_loads o <->
  flow_of (judge json_loads o) = inr Continue.
Proof.
  destruct o as [| |r]; simpl attempt_fails; [now split|now split|]. split.
  - intros [H | H].
    + unfold judge. now rewrite H.
    + now rewrite (judge_classified _ _ H).
  - intros H. destruct (judge json_loads (Responded r)) eqn:J;
      try discriminate H.
    + right. apply judge_incomplete in J. destruct J as [r' [E J]].
      now injection E as <-.
    + left. unfold judge in J.
      pose proof (pure_eq _ (pure_has_choices r)) as Hc.
      destruct (outcome (has_choices r)) as [e|[|]]; try discriminate J;
        [|exact Hc].
      destruct (outcome (first_content r)) as [e|content]; try discriminate.
      destruct (outcome (is_llm_response_incomplete json_loads content))
        as [e|[|]]; discriminate.
    + exfalso. unfold judge in J.
      destruct (outcome (has_choices r)) as [e|[|]]; try discriminate J.
      destruct (outcome (first_content r)) as [e|content]; try discriminate.
      destruct (outcome (is_llm_response_incomplete json_loads content))
        as [e|[|]]; discriminate.
    + exfalso. unfold judge in J.
      destruct (outcome (has_choices r)) as [e|[|]]; try discriminate J.
      destruct (outcome (first_content r)) as [e|content]; try discriminate.
      destruct (outcome (is_llm_response_incomplete json_loads content))
        as [e|[|]]; discriminate.
Qed.

Lemma classified_functional (result : json) (b b' : bool) :
  classified json_loads result b -> classified json_loads result b' -> b = b'.
Proof.
  intros [c [Hc Hi]] [c' [Hc' Hi']]. rewrite Hc in Hc'.
  injection Hc' as <-. rewrite Hi in Hi'. now injection Hi'.
Qed.

End Verdicts.

(** ** The whole call *)

Section CallFacts.

Variable json_loads : pystr -> bool.
Variable net : request -> nat -> http_outcome.
Variables api_key model : pystr.
Variable messages : list chat_message.
Variables max_retries timeout : Z.

Let req := build_request api_key model messages timeout.
Let run :=
  call_llm_with_timeout_handling json_loads net api_key model messages
    max_retries timeout.

(** The trace of a call is the segments of the attempts [0] to [k - 1] and a
    tail without request or sleep; the call ends with [None] after all
    [max_retries] attempts, every one of them continuing, or at the first
    attempt that is accepted or that raises. *)
Lemma call_run :
  exists (k : nat) (tail : list event),
    trace run = flat_map (segment json_loads net req max_retries) (seq 0 k)
                ++ tail
    /\ posts tail = [] /\ sleeps tail = []
    /\ ((k = Z.to_nat max_retries
         /\ tail = [Stdout AllFailedLine]
         /\ outcome run = inr None
         /\ forall i, i < k -> continues json_loads net req i)
        \/ exists j,
            k = S j /\ j < Z.to_nat max_retries /\ tail = []
            /\ (forall i, i < j -> continues json_loads net req i)
            /\ ((exists r, judge json_loads (net req j) = Accepted r
                           /\ outcome run = inr (Some r))
                \/ (exists e, judge json_loads (net req j) = Escaped e
                              /\ outcome run = inl e))).
Proof.
  subst run. unfold call_llm_with_timeout_handling, range. fold req.
  pose proof (for_each_run json_loads net req max_retries
                (Z.to_nat max_retries) 0) as H.
  cbv zeta in H.
  destruct (for_each _ _) as [t o]. unfold trace, outcome in *.
  simpl fst in *. simpl snd in *.
  destruct H as [[Ht [Ho Hall]] | [k [Hk [Ht [Hall Hstop]]]]].
  - subst t o. exists (Z.to_nat max_retries), [Stdout AllFailedLine].
    simpl. split; [reflexivity|]. split; [reflexivity|].
    split; [reflexivity|]. left. split; [reflexivity|].
    split; [reflexivity|]. split; [reflexivity|].
    intros i Hi. apply Hall. lia.
  - exists (S k), []. subst t.
    assert (Ho : match o with inr None => False | _ => True end)
      by (destruct Hstop as [[r [_ ->]] | [e [_ ->]]]; exact I).
    destruct o as [e|[r|]]; [| |contradiction]; simpl fst; simpl snd;
      rewrite ?app_nil_r;
      (split; [reflexivity|]; split; [reflexivity|]; split; [reflexivity|];
       right; exists k; split; [reflexivity|]; split; [exact Hk|];
       split; [reflexivity|]; split; [|exact Hstop];
       intros i Hi; apply Hall; lia).
Qed.

Lemma posts_run :
  exists k, posts (trace run) = seq 0 k /\ k <= Z.to_nat max_retries.
Proof.
  destruct call_run as [k [tail [Ht [Hp [_ H]]]]]. exists k.
  rewrite Ht, posts_app, posts_segments, Hp, app_nil_r. split; [reflexivity|].
  destruct H as [[-> _] | [j [-> [Hj _]]]]; lia.
Qed.

End CallFacts.

(** ** The retry loop *)

(** C1: when an attempt of a call receives a response whose first choice
    carries a content that the classifier judges complete, the call returns
    that response (the value whose [choices[0].message.content] is the
    content), that attempt is the last request of the call, and no earlier
    attempt received such a response.  Whatever response a call returns was
    received by one of its attempts and carries a content judged complete; a
    response whose content is judged incomplete is never returned. *)
Theorem first_complete_response_is_returned :
  forall (json_loads : pystr -> bool) (net : request -> nat -> http_outcome)
         (api_key model : pystr) (messages : list chat_message)
         (max_retries timeout : Z),
    let req := build_request api_key model messages timeout in
    let run := call_llm_with_timeout_handling json_loads net api_key model
                 messages max_retries timeout in
    (forall (attempt : nat) (result : json),
        In attempt (posts (trace run)) ->
        net req attempt = Responded result ->
        classified json_loads result false ->
        outcome run = inr (Some result)
        /\ posts (trace run) = seq 0 (S attempt)
        /\ forall (earlier : nat) (r : json),
            earlier < attempt ->
            net req earlier = Responded r ->
            ~ classified json_loads r false)
    /\ (forall result : json,
           outcome run = inr (Some result) ->
           (exists attempt : nat,
               In attempt (posts (trace run))
               /\ net req attempt = Responded result)
           /\ classified json_loads result false
           /\ ~ classified json_loads result true).
Proof.
  intros json_loads net api_key model messages max_retries timeout req run.
  destruct (call_run json_loads net api_key model messages max_retries timeout)
    as [k [tail [Ht [Hp [_ H]]]]].
  fold req in Ht, H. fold run in Ht, H.
  assert (P : posts (trace run) = seq 0 k)
    by (now rewrite Ht, posts_app, posts_segments, Hp, app_nil_r).
  rewrite P. split.
  - intros attempt result Hin Hnet Hcl. apply in_seq in Hin.
    assert (J : judge json_loads (net req attempt) = Accepted result)
      by (apply judge_accepted; now split).
    assert (NC : ~ continues json_loads net req attempt)
      by (unfold continues; rewrite J; discriminate).
    destruct H as [[_ [_ [_ Hall]]] | [j [-> [_ [_ [Hall Hstop]]]]]].
    + exfalso. apply NC, Hall. lia.
    + assert (attempt = j).
      { destruct (Nat.eq_dec attempt j) as [E|N]; [exact E|].
        exfalso. apply NC, Hall. lia. }
      subst j. split; [|split; [reflexivity|]].
      * destruct Hstop as [[r [Jr Ho]] | [e [Je _]]].
        -- rewrite J in Jr. now injection Jr as <-.
        -- rewrite J in Je. discriminate Je.
      * intros earlier r Hlt Hr Hc.
        assert (C : continues json_loads net req earlier) by (apply Hall; lia).
        unfold continues in C. rewrite Hr in C.
        rewrite (judge_classified json_loads r false Hc) in C. discriminate C.
  - intros result Ho.
    destruct H as [[_ [_ [Hn _]]] | [j [-> [_ [_ [_ Hstop]]]]]].
    + rewrite Ho in Hn. discriminate Hn.
    + destruct Hstop as [[r [Jr Hr]] | [e [_ He]]].
      * rewrite Ho in Hr. injection Hr as <-.
        apply judge_accepted in Jr. destruct Jr as [Hnet Hcl].
        split; [|split; [exact Hcl|]].
        -- exists j. split; [apply in_seq; lia | exact Hnet].
        -- intros C.
           pose proof (classified_functional json_loads result _ _ Hcl C).
           discriminate.
      * rewrite Ho in He. discriminate He.
Qed.

(** The second attempt of [net_short_then_long] is the first whose content
    is complete. *)
Lemma first_complete_response_is_returned_witness :
  let run := call_llm_with_timeout_handling Json.loads net_short_then_long
               (py "sk-key") (py "some/model") (user_says (py "hi")) 3 120 in
  outcome run = inr (Some (response_with (JStr long_answer)))
  /\ posts (trace run) = [0; 1].
Proof.
  pose proof (first_complete_response_is_returned Json.loads
                net_short_then_long (py "sk-key") (py "some/model")
                (user_says (py "hi")) 3 120) as H.
  cbv zeta in H. destruct H as [H _].
  destruct (H 1 (response_with (JStr long_answer))) as [Ho [Hp _]].
  - vm_compute. right. left. reflexivity.
  - reflexivity.
  - exists (JStr long_answer). split; [reflexivity | vm_compute; reflexivity].
  - split; [exact Ho | exact Hp].
Defined.

(** C2: with [max_retries >= 1] a call sends at most [max_retries] requests,
    the index of every attempt is below [max_retries], and when every
    attempt fails (a timeout, a transport error, a response without choices
    or a response classified incomplete) the call sends exactly
    [max_retries] requests, those of the attempts [0] to [max_retries - 1],
    and then returns [None]. *)
Theorem attempts_bounded :
  forall (json_loads : pystr -> bool) (net : request -> nat -> http_outcome)
         (api_key model : pystr) (messages : list chat_message)
         (max_retries timeout : Z),
    (1 <= max_retries)%Z ->
    let req := build_request api_key model messages timeout in
    let run := call_llm_with_timeout_handling json_loads net api_key model
                 messages max_retries timeout in
    (Z.of_nat (length (posts (trace run))) <= max_retries)%Z
    /\ (forall attempt : nat,
           In attempt (posts (trace run)) ->
           (Z.of_nat attempt < max_retries)%Z)
    /\ ((forall attempt : nat,
            (Z.of_nat attempt < max_retries)%Z ->
            attempt_fails json_loads (net req attempt)) ->
        Z.of_nat (length (posts (trace run))) = max_retries
        /\ posts (trace run) = seq 0 (Z.to_nat max_retries)
        /\ outcome run = inr None).
Proof.
  intros json_loads net api_key model messages max_retries timeout Hmax
    req run.
  destruct (call_run json_loads net api_key model messages max_retries timeout)
    as [k [tail [Ht [Hp [_ H]]]]].
  fold req in Ht, H. fold run in Ht, H.
  assert (P : posts (trace run) = seq 0 k)
    by (now rewrite Ht, posts_app, posts_segments, Hp, app_nil_r).
  assert (K : k <= Z.to_nat max_retries)
    by (destruct H as [[-> _] | [j [-> [Hj _]]]]; lia).
  rewrite P, length_seq. split; [lia|]. split.
  - intros attempt Hin. apply in_seq in Hin. lia.
  - intros Hfail.
    destruct H as [[-> [_ [Ho _]]] | [j [-> [Hj [_ [_ Hstop]]]]]].
    + split; [lia|]. now split.
    + exfalso.
      assert (C : flow_of (judge json_loads (net req j)) = inr Continue)
        by (apply attempt_fails_continue, Hfail; lia).
      destruct Hstop as [[r [J _]] | [e [J _]]]; rewrite J in C;
        discriminate C.
Qed.

Lemma attempts_bounded_witness :
  let run := call_llm_with_timeout_handling Json.loads net_all_fail
               (py "sk-key") (py "some/model") (user_says (py "hi")) 4 120 in
  Z.of_nat (length (posts (trace run))) = 4%Z
  /\ posts (trace run) = [0; 1; 2; 3]
  /\ outcome run = inr None.
Proof.
  assert (Hmax : (1 <= 4)%Z) by lia.
  pose proof (attempts_bounded Json.loads net_all_fail
                (py "sk-key") (py "some/model") (user_says (py "hi"))
                4 120 Hmax) as H.
  cbv zeta in H. destruct H as [_ [_ H]]. apply H.
  intros attempt Hlt.
  destruct attempt as [|[|[|[|attempt]]]]; simpl net_all_fail;
    [exact I | exact I | left; reflexivity | | lia].
  right. eexists. split; reflexivity.
Defined.

(** C8: when every attempt of a call fails or is classified incomplete, the
    call returns [None] (it raises nothing) after the requests of the
    attempts [0] to [max_retries - 1], and sends no further request. *)
Theorem exhausted_returns_none :
  forall (json_loads : pystr -> bool) (net : request -> nat -> http_outcome)
         (api_key model : pystr) (messages : list chat_message)
         (max_retries timeout : Z),
    let req := build_request api_key model messages timeout in
    let run := call_llm_with_timeout_handling json_loads net api_key model
                 messages max_retries timeout in
    (forall attempt : nat,
        (Z.of_nat attempt < max_retries)%Z ->
        attempt_fails json_loads (net req attempt)) ->
    outcome run = inr None
    /\ posts (trace run) = seq 0 (Z.to_nat max_retries)
    /\ length (posts (trace run)) = Z.to_nat max_retries.
Proof.
  intros json_loads net api_key model messages max_retries timeout req run
    Hfail.
  destruct (call_run json_loads net api_key model messages max_retries timeout)
    as [k [tail [Ht [Hp [_ H]]]]].
  fold req in Ht, H. fold run in Ht, H.
  assert (P : posts (trace run) = seq 0 k)
    by (now rewrite Ht, posts_app, posts_segments, Hp, app_nil_r).
  rewrite P, length_seq.
  destruct H as [[-> [_ [Ho _]]] | [j [-> [Hj [_ [_ Hstop]]]]]].
  - now repeat split.
  - exfalso.
    assert (C : flow_of (judge json_loads (net req j)) = inr Continue)
      by (apply attempt_fails_continue, Hfail; lia).
    destruct Hstop as [[r [J _]] | [e [J _]]]; rewrite J in C;
      discriminate C.
Qed.

(** Three timeouts with [max_retries = 3] and [timeout = 5]. *)
Lemma exhausted_returns_none_witness :
  let run := call_llm_with_timeout_handling Json.loads net_timeouts
               (py "sk-key") (py "some/model") (user_says (py "hi")) 3 5 in
  outcome run = inr None
  /\ posts (trace run) = [0; 1; 2]
  /\ length (posts (trace run)) = 3.
Proof.
  apply (exhausted_returns_none Json.loads net_timeouts
           (py "sk-key") (py "some/model") (user_says (py "hi")) 3 5).
  intros attempt _. exact I.
Defined.

(** C7: in a call, between the request of an attempt and the next request
    (or the end of the call) there is one sleep, of 2 seconds, when the
    attempt received a response whose content is classified incomplete, and
    no sleep otherwise, in particular after a timeout, after a transport
    error and after a response without choices.  No sleep precedes the first
    request, and every sleep of the call lasts 2 seconds. *)
Theorem backoff_only_after_incomplete :
  forall (json_loads : pystr -> bool) (net : request -> nat -> http_outcome)
         (api_key model : pystr) (messages : list chat_message)
         (max_retries timeout : Z),
    let req := build_request api_key model messages timeout in
    let run := call_llm_with_timeout_handling json_loads net api_key model
                 messages max_retries timeout in
    let incomplete attempt :=
      exists result : json,
        net req attempt = Responded result
        /\ classified json_loads result true in
    (forall attempt : nat,
        In attempt (posts (trace run)) ->
        (incomplete attempt ->
         sleeps (after_post attempt (trace run)) = [2%Z])
        /\ (~ incomplete attempt ->
            sleeps (after_post attempt (trace run)) = [])
        /\ (net req attempt = TimedOut
            \/ net req attempt = RequestFailed
            \/ (exists result, net req attempt = Responded result
                               /\ has_choices result = ret false) ->
            sleeps (after_post attempt (trace run)) = []))
    /\ sleeps (until_post (trace run)) = []
    /\ (forall d : Z, In d (sleeps (trace run)) -> d = 2%Z).
Proof.
  intros json_loads net api_key model messages max_retries timeout req run
    incomplete.
  destruct (call_run json_loads net api_key model messages max_retries timeout)
    as [k [tail [Ht [Hp [Hs _]]]]].
  fold req in Ht. fold run in Ht.
  assert (P : posts (trace run) = seq 0 k)
    by (now rewrite Ht, posts_app, posts_segments, Hp, app_nil_r).
  rewrite P, Ht. split; [|split].
  - intros attempt Hin.
    rewrite (sleeps_after_post json_loads net req max_retries (seq 0 k) tail
               attempt (seq_NoDup k 0) Hin Hs Hp).
    assert (I : incomplete attempt <->
                judge json_loads (net req attempt) = Incomplete)
      by (symmetry; apply judge_incomplete).
    split; [|split].
    + intros Hi. apply I in Hi. now rewrite Hi.
    + intros Hn. destruct (judge json_loads (net req attempt)) eqn:J;
        try reflexivity. exfalso. now apply Hn, I.
    + intros [E | [E | [result [E Hc]]]]; rewrite E; try reflexivity.
      unfold judge. now rewrite Hc.
  - apply sleeps_until_post_segments; assumption.
  - intros d Hd. rewrite sleeps_app, Hs, app_nil_r in Hd.
    exact (sleeps_segments json_loads net req max_retries _ d Hd).
Qed.

(** ** The entry point *)

(** A call of [call_llm_with_timeout_handling] always leaves events: a trace
    without events shows that the function was not entered. *)
Lemma call_leaves_events :
  forall json_loads net api_key model messages max_retries timeout,
    trace (call_llm_with_timeout_handling json_loads net api_key model
             messages max_retries timeout) <> [].
Proof.
  intros json_loads net api_key model messages max_retries timeout.
  destruct (call_run json_loads net api_key model messages max_retries timeout)
    as [k [tail [Ht [_ [_ H]]]]].
  rewrite Ht. destruct H as [[_ [-> _]] | [j [-> _]]].
  - intros C. apply app_eq_nil in C. destruct C as [_ C]. discriminate C.
  - intros C. apply (f_equal (@length event)) in C.
    rewrite seq_S, flat_map_app, !length_app in C. simpl in C. lia.
Qed.

(** C9: with no API key, with an empty API key or with a query that is
    whitespace only, [main] raises [ClickException] before any event: no
    request is sent and [call_llm_with_timeout_handling] is not entered. *)
Theorem main_checks_key_and_query :
  forall (json_loads : pystr -> bool) (net : request -> nat -> http_outcome)
         (api_key : option pystr) (query model : pystr) (timeout : Z),
    api_key = None \/ api_key = Some [] \/ forallb isspace query = true ->
    (exists message : string,
        main json_loads net api_key query model timeout
        = raise (ClickException message))
    /\ posts (trace (main json_loads net api_key query model timeout)) = [].
Proof.
  intros json_loads net api_key query model timeout H.
  assert (E : exists message : string,
             main json_loads net api_key query model timeout
             = raise (ClickException message)).
  { destruct H as [-> | [-> | H]].
    - now exists api_key_required.
    - now exists api_key_required.
    - apply strip_blank in H. unfold main. rewrite H.
      destruct api_key as [[|c key]|];
        [now exists api_key_required | now exists query_blank
        | now exists api_key_required]. }
  split; [exact E|]. destruct E as [message ->]. reflexivity.
Qed.

(** An empty key with the query [hi]. *)
Lemma main_checks_key_and_query_witness :
  (exists message : string,
      main Json.loads net_short_then_long (Some []) (py "hi")
        (py "some/model") 120
      = raise (ClickException message))
  /\ posts (trace (main Json.loads net_short_then_long (Some []) (py "hi")
                     (py "some/model") 120)) = [].
Proof.
  apply (main_checks_key_and_query Json.loads net_short_then_long
           (Some []) (py "hi") (py "some/model") 120).
  right. left. reflexivity.
Defined.

Example main_without_key :
  main Json.loads net_short_then_long None (py "hi") (py "some/model") 120
  = raise (ClickException api_key_required).
Proof. reflexivity. Qed.

Example main_with_blank_query :
  main Json.loads net_short_then_long (Some (py "sk-key")) (py "   ")
    (py "some/model") 120
  = raise (ClickException query_blank).
Proof. reflexivity. Qed.

(** ** Responses with a malformed first choice *)

(** An attempt whose response makes an operation of the body raise ends the
    call with that exception. *)
Lemma escaped_exception_leaves_call :
  forall (json_loads : pystr -> bool) (net : request -> nat -> http_outcome)
         (api_key model : pystr) (messages : list chat_message)
         (max_retries timeout : Z) (attempt : nat) (result : json) (e : exn),
    let req := build_request api_key model messages timeout in
    let run := call_llm_with_timeout_handling json_loads net api_key model
                 messages max_retries timeout in
    In attempt (posts (trace run)) ->
    net req attempt = Responded result ->
    judge json_loads (Responded result) = Escaped e ->
    outcome run = inl e /\ posts (trace run) = seq 0 (S attempt).
Proof.
  intros json_loads net api_key model messages max_retries timeout attempt
    result e req run Hin Hnet J.
  destruct (call_run json_loads net api_key model messages max_retries timeout)
    as [k [tail [Ht [Hp [_ H]]]]].
  fold req in Ht, H. fold run in Ht, H.
  assert (P : posts (trace run) = seq 0 k)
    by (now rewrite Ht, posts_app, posts_segments, Hp, app_nil_r).
  rewrite P in *. apply in_seq in Hin. rewrite <- Hnet in J.
  assert (NC : ~ continues json_loads net req attempt)
    by (unfold continues; rewrite J; discriminate).
  destruct H as [[_ [_ [_ Hall]]] | [j [-> [_ [_ [Hall Hstop]]]]]].
  - exfalso. apply NC, Hall. lia.
  - assert (attempt = j).
    { destruct (Nat.eq_dec attempt j) as [E|N]; [exact E|].
      exfalso. apply NC, Hall. lia. }
    subst j. split; [|reflexivity].
    destruct Hstop as [[r [Jr _]] | [e' [Je He]]].
    + rewrite J in Jr. discriminate Jr.
    + rewrite J in Je. now injection Je as <-.
Qed.

(** An attempt is made when every earlier one has failed. *)
Lemma attempt_is_made :
  forall (json_loads : pystr -> bool) (net : request -> nat -> http_outcome)
         (api_key model : pystr) (messages : list chat_message)
         (max_retries timeout : Z) (attempt : nat),
    let req := build_request api_key model messages timeout in
    let run := call_llm_with_timeout_handling json_loads net api_key model
                 messages max_retries timeout in
    (Z.of_nat attempt < max_retries)%Z ->
    (forall earlier, earlier < attempt ->
                     attempt_fails json_loads (net req earlier)) ->
    In attempt (posts (trace run)).
Proof.
  intros json_loads net api_key model messages max_retries timeout attempt
    req run Hlt Hfail.
  destruct (call_run json_loads net api_key model messages max_retries timeout)
    as [k [tail [Ht [Hp [_ H]]]]].
  fold req in Ht, H. fold run in Ht, H.
  assert (P : posts (trace run) = seq 0 k)
    by (now rewrite Ht, posts_app, posts_segments, Hp, app_nil_r).
  rewrite P. apply in_seq.
  destruct H as [[-> _] | [j [-> [_ [_ [_ Hstop]]]]]]; [lia|].
  destruct (Nat.lt_ge_cases j attempt) as [Hj|Hj]; [exfalso|lia].
  pose proof (proj1 (attempt_fails_continue json_loads _) (Hfail j Hj)) as C.
  destruct Hstop as [[r [J _]] | [e [J _]]]; rewrite J in C; discriminate C.
Qed.

(** The body of the loop lets the [KeyError] of a malformed first choice
    through. *)
Lemma judge_malformed_first_choice :
  forall (json_loads : pystr -> bool) (result : json),
    malformed_first_choice result ->
    judge json_loads (Responded result) = Escaped KeyError.
Proof.
  intros json_loads result [first [rest [Hc Hm]]].
  destruct result as [| | | | | |d]; try discriminate Hc.
  simpl in Hc. destruct (dict_get (py "choices") d) as [x|] eqn:D;
    [|discriminate Hc].
  injection Hc as ->.
  assert (Hf : first_content (JObj d) = raise KeyError).
  { unfold first_content. simpl getitem. rewrite D. simpl.
    destruct Hm as [Hm | [message [Hm Hk]]].
    - now rewrite Hm.
    - rewrite Hm. simpl. now rewrite Hk. }
  unfold judge, has_choices. simpl contains. simpl getitem. rewrite D.
  simpl. rewrite Hf. reflexivity.
Qed.

(** C10: there are decoded responses with a non-empty [choices] list whose
    first element lacks the key [message], or has a message that lacks the
    key [content]; when a call receives one of them at an attempt within
    [max_retries], every earlier attempt having failed, the call ends with
    [KeyError], which leaves the function at that attempt: the attempt is
    neither counted as failed and followed by the next one, nor is [None]
    returned. *)
Theorem malformed_first_choice_raises_KeyError :
  (exists result : json, malformed_first_choice result)
  /\ forall (result : json) (json_loads : pystr -> bool)
            (net : request -> nat -> http_outcome)
            (api_key model : pystr) (messages : list chat_message)
            (max_retries timeout : Z) (attempt : nat),
      let req := build_request api_key model messages timeout in
      let run := call_llm_with_timeout_handling json_loads net api_key
                   model messages max_retries timeout in
      malformed_first_choice result ->
      (Z.of_nat attempt < max_retries)%Z ->
      (forall earlier, earlier < attempt ->
                       attempt_fails json_loads (net req earlier)) ->
      net req attempt = Responded result ->
      outcome run = inl KeyError
      /\ posts (trace run) = seq 0 (S attempt).
Proof.
  split.
  - exists choice_without_message. eexists. eexists.
    split; [reflexivity|]. left. reflexivity.
  - intros result json_loads net api_key model messages max_retries timeout
      attempt req run Hshape Hlt Hfail Hnet.
    apply (escaped_exception_leaves_call json_loads net api_key model messages
             max_retries timeout attempt result KeyError).
    + now apply attempt_is_made.
    + exact Hnet.
    + now apply judge_malformed_first_choice.
Qed.

(** The call with the default [max_retries] whose first response has a
    first choice without message, and the call whose second response, after
    a timeout, has a message without content. *)
Lemma malformed_first_choice_raises_KeyError_witness :
  (let run := call_llm_with_timeout_handling Json.loads
                (fun _ _ => Responded choice_without_message)
                (py "sk-key") (py "some/model") (user_says (py "hi"))
                default_max_retries default_timeout in
   outcome run = inl KeyError /\ posts (trace run) = [0])
  /\ (let run := call_llm_with_timeout_handling Json.loads
                   (fun _ attempt =>
                      match attempt with
                      | 0 => TimedOut
                      | _ => Responded message_without_content
                      end)
                   (py "sk-key") (py "some/model") (user_says (py "hi"))
                   default_max_retries default_timeout in
      outcome run = inl KeyError /\ posts (trace run) = [0; 1]).
Proof.
  pose proof (proj2 malformed_first_choice_raises_KeyError) as H.
  split.
  - apply (H choice_without_message Json.loads
             (fun _ _ => Responded choice_without_message)
             (py "sk-key") (py "some/model") (user_says (py "hi"))
             default_max_retries default_timeout 0).
    + eexists. eexists. split; [reflexivity|]. left. reflexivity.
    + reflexivity.
    + intros earlier Hlt. inversion Hlt.
    + reflexivity.
  - apply (H message_without_content Json.loads
             (fun _ attempt =>
                match attempt with
                | 0 => TimedOut
                | _ => Responded message_without_content
                end)
             (py "sk-key") (py "some/model") (user_says (py "hi"))
             default_max_retries default_timeout 1).
    + eexists. eexists. split; [reflexivity|]. right.
      eexists. split; reflexivity.
    + reflexivity.
    + intros earlier Hlt.
      assert (earlier = 0) as -> by lia. exact I.
    + reflexivity.
Defined.

(** The same with a message that has no content, at the first attempt of a
    call with the default [max_retries]. *)
Example message_without_content_raises :
  outcome (call_llm_with_timeout_handling Json.loads
             (fun _ _ => Responded message_without_content)
             (py "sk-key") (py "some/model") (user_says (py "hi"))
             default_max_retries default_timeout)
  = inl KeyError.
Proof. reflexivity. Qed.

Example choice_without_message_raises :
  call_llm_with_timeout_handling Json.loads
    (fun _ _ => Responded choice_without_message)
    (py "sk-key") (py "some/model") (user_says (py "hi")) 3 120
  = ([Stdout (AttemptLine 1 3);
      Post 0 (build_request (py "sk-key") (py "some/model")
                (user_says (py "hi")) 120)],
     inl KeyError).
Proof. reflexivity. Qed.

(** ** The scenarios of the specification *)

(** Three timeouts with [max_retries = 3]: three requests, no sleep,
    [None]. *)
Example three_timeouts :
  let run := call_llm_with_timeout_handling Json.loads net_timeouts
               (py "sk-key") (py "some/model") (user_says (py "hi")) 3 5 in
  posts (trace run) = [0; 1; 2]
  /\ sleeps (trace run) = []
  /\ outcome run = inr None.
Proof. repeat split. Qed.

(** A content of two characters, then [long_answer]: one sleep of 2 seconds,
    two requests, the second response returned. *)
Example short_then_long :
  let run := call_llm_with_timeout_handling Json.loads net_short_then_long
               (py "sk-key") (py "some/model") (user_says (py "hi")) 3 120 in
  posts (trace run) = [0; 1]
  /\ sleeps (trace run) = [2%Z]
  /\ sleeps (after_post 0 (trace run)) = [2%Z]
  /\ sleeps (after_post 1 (trace run)) = []
  /\ outcome run = inr (Some (response_with (JStr long_answer))).
Proof. vm_compute. repeat split. Qed.

(** A response without the key [choices]: the next request follows without
    a sleep. *)
Example no_choices_then_retry :
  let run := call_llm_with_timeout_handling Json.loads net_all_fail
               (py "sk-key") (py "some/model") (user_says (py "hi")) 4 120 in
  sleeps (after_post 2 (trace run)) = []
  /\ sleeps (after_post 3 (trace run)) = [2%Z]
  /\ sleeps (trace run) = [2%Z].
Proof. vm_compute. repeat split. Qed.

(** [main] prints the content of the accepted response. *)
Example main_prints_content :
  let run := main Json.loads net_short_then_long (Some (py "sk-key"))
               (py "hi") (py "some/model") 120 in
  outcome run = inr tt
  /\ posts (trace run) = [0; 1]
  /\ last (trace run) (Stdout NoResponseLine)
     = Stdout (ContentLine (JStr long_answer)).
Proof. vm_compute. repeat split. Qed.

(** [main] reports the failure when every attempt fails. *)
Example main_reports_failure :
  let run := main Json.loads net_timeouts (Some (py "sk-key"))
               (py "hi") (py "some/model") 5 in
  outcome run = inr tt
  /\ posts (trace run) = [0; 1; 2]
  /\ last (trace run) (Stdout AllFailedLine) = Stdout NoResponseLine.
Proof. vm_compute. repeat split. Qed.

(** ** The decoder and its fuel

    Every function of the scanner consumes text, so the nesting depth of a
    value is below the length of its text: the fuel that [loads] gives is
    never what makes it refuse a text. *)
Module JsonFuel.
Import Json.

Lemma skip_ws_length (t : pystr) : length (skip_ws t) <= length t.
Proof.
  induction t as [|c t IH]; [reflexivity|]. simpl.
  destruct (is_ws c); simpl; lia.
Qed.

Lemma skip_digits_length (t : pystr) : length (skip_digits t) <= length t.
Proof.
  induction t as [|c t IH]; [reflexivity|]. simpl.
  destruct (is_digit c); simpl; lia.
Qed.

Lemma match_frac_length (t : pystr) : length (match_frac t) <= length t.
Proof.
  destruct t as [|dot [|d t]]; simpl; try lia.
  destruct ((dot =? 46)%N && is_digit d); simpl; [|lia].
  pose proof (skip_digits_length t). lia.
Qed.

Lemma match_exp_length (t : pystr) : length (match_exp t) <= length t.
Proof.
  destruct t as [|e [|sg [|d t]]]; simpl; try lia.
  - destruct ((e =? 101)%N || (e =? 69)%N); simpl; lia.
  - destruct ((e =? 101)%N || (e =? 69)%N); simpl; [|lia].
    destruct (is_digit sg); simpl; lia.
  - pose proof (skip_digits_length t) as Ht.
    pose proof (skip_digits_length (d :: t)) as Hd. simpl length in Hd.
    destruct ((e =? 101)%N || (e =? 69)%N); simpl length; [|lia].
    destruct ((sg =? 45)%N || (sg =? 43)%N).
    + destruct (is_digit d); simpl length; lia.
    + destruct (is_digit sg); simpl length; lia.
Qed.

Lemma match_number_length (t r : pystr) :
  match_number t = Some r -> length r < length t.
Proof.
  unfold match_number. destruct t as [|c t]; [discriminate|].
  cbv zeta beta iota.
  assert (I : forall u r0, match_int u = Some r0 -> length r0 < length u).
  { intros [|x u] r0; [discriminate|]. simpl.
    destruct (x =? 48)%N; [intros H; injection H as <-; lia|].
    destruct ((49 <=? x)%N && (x <=? 57)%N); [|discriminate].
    intros H. injection H as <-. pose proof (skip_digits_length u). lia. }
  destruct (c =? 45)%N.
  - destruct (match_int t) as [r0|] eqn:E; [|discriminate].
    intros H. injection H as <-. apply I in E.
    pose proof (match_exp_length (match_frac r0)).
    pose proof (match_frac_length r0). simpl. lia.
  - destruct (match_int (c :: t)) as [r0|] eqn:E; [|discriminate].
    intros H. injection H as <-. apply I in E.
    pose proof (match_exp_length (match_frac r0)).
    pose proof (match_frac_length r0). lia.
Qed.

Lemma scanstring_length (t r : pystr) :
  scanstring t = Some r -> length r < length t.
Proof.
  remember (length t) as n eqn:L.
  assert (B : length t <= n) by lia. rewrite L. clear L.
  revert t r B. induction n as [|n IH]; intros t r B.
  - destruct t; [discriminate|simpl in B; lia].
  - destruct t as [|c t]; [discriminate|]. simpl in B. simpl.
    destruct (c =? 34)%N; [intros H; injection H as <-; lia|].
    destruct (c =? 92)%N.
    + destruct t as [|e t]; [discriminate|]. simpl in B. simpl.
      destruct (e =? 117)%N.
      * destruct t as [|h1 [|h2 [|h3 [|h4 t]]]]; try discriminate.
        simpl in B. simpl.
        destruct (is_hex h1 && is_hex h2 && is_hex h3 && is_hex h4);
          [|discriminate].
        intros H. apply IH in H; lia.
      * destruct (is_escape e); [|discriminate].
        intros H. apply IH in H; lia.
    + destruct (c <=? 31)%N; [discriminate|].
      intros H. apply IH in H; lia.
Qed.

Lemma literal_length (l t r : pystr) :
  l <> [] -> literal l t = Some r -> length r < length t.
Proof.
  intros Hl. assert (G : forall l t r,
    literal l t = Some r -> length r + length l = length t).
  { clear. induction l as [|a l IH]; intros t r.
    - destruct t; simpl; intros H; injection H as <-; simpl; lia.
    - destruct t as [|b t]; [discriminate|]. simpl.
      destruct (a =? b)%N; [|discriminate]. intros H. apply IH in H. lia. }
  intros H. apply G in H. destruct l; [contradiction|]. simpl in H. lia.
Qed.

Section Nested.

(** [scan'] agrees with [scan] on the texts of at most [bound]
    characters. *)
Variables scan scan' : pystr -> option pystr.
Variable bound : nat.
Hypothesis scan_shrinks :
  forall t r, scan t = Some r -> length r < length t.
Hypothesis scan_agree :
  forall t r, length t <= bound -> scan t = Some r -> scan' t = Some r.

Lemma parse_members_bounded (n : nat) (t r : pystr) :
  length t <= bound ->
  parse_members scan n t = Some r ->
  length r < length t /\ parse_members scan' n t = Some r.
Proof.
  revert t. induction n as [|n IH]; intros t B; [discriminate|].
  destruct t as [|c t]; [discriminate|]. simpl in B. simpl.
  destruct (c =? 34)%N; [|discriminate].
  destruct (scanstring t) as [r1|] eqn:S1; [|discriminate].
  apply scanstring_length in S1. pose proof (skip_ws_length r1) as L1.
  destruct (skip_ws r1) as [|colon r2]; [discriminate|]. simpl in L1.
  destruct (colon =? 58)%N; [|discriminate].
  pose proof (skip_ws_length r2) as L2.
  destruct (scan (skip_ws r2)) as [r3|] eqn:S3; [|discriminate].
  rewrite (scan_agree (skip_ws r2) r3) by (try exact S3; lia).
  apply scan_shrinks in S3. pose proof (skip_ws_length r3) as L3.
  destruct (skip_ws r3) as [|d r4]; [discriminate|]. simpl in L3.
  destruct (d =? 125)%N; [intros H; injection H as <-; split; [lia|easy]|].
  destruct (d =? 44)%N; [|discriminate].
  pose proof (skip_ws_length r4) as L4. intros H.
  apply IH in H; [|lia]. split; [lia|]. apply H.
Qed.

Lemma parse_object_bounded (t r : pystr) :
  length t <= bound ->
  parse_object scan t = Some r ->
  length r < S (length t) /\ parse_object scan' t = Some r.
Proof.
  unfold parse_object. intros B. pose proof (skip_ws_length t) as L.
  destruct (skip_ws t) as [|c r0]; [discriminate|]. simpl in L.
  destruct (c =? 125)%N; [intros H; injection H as <-; split; [lia|easy]|].
  intros H. apply parse_members_bounded in H; [|simpl; lia].
  simpl in H. split; [lia|]. apply H.
Qed.

Lemma parse_items_bounded (n : nat) (t r : pystr) :
  length t <= bound ->
  parse_items scan n t = Some r ->
  length r < length t /\ parse_items scan' n t = Some r.
Proof.
  revert t. induction n as [|n IH]; intros t B; [discriminate|]. simpl.
  destruct (scan t) as [r1|] eqn:S1; [|discriminate].
  rewrite (scan_agree t r1 B S1). apply scan_shrinks in S1.
  pose proof (skip_ws_length r1) as L1.
  destruct (skip_ws r1) as [|d r2]; [discriminate|]. simpl in L1.
  destruct (d =? 93)%N; [intros H; injection H as <-; split; [lia|easy]|].
  destruct (d =? 44)%N; [|discriminate].
  pose proof (skip_ws_length r2) as L2. intros H.
  apply IH in H; [|lia]. split; [lia|]. apply H.
Qed.

Lemma parse_array_bounded (t r : pystr) :
  length t <= bound ->
  parse_array scan t = Some r ->
  length r < S (length t) /\ parse_array scan' t = Some r.
Proof.
  unfold parse_array. intros B. pose proof (skip_ws_length t) as L.
  destruct (skip_ws t) as [|c r0]; [discriminate|]. simpl in L.
  destruct (c =? 93)%N; [intros H; injection H as <-; split; [lia|easy]|].
  intros H. apply parse_items_bounded in H; [|simpl; lia].
  simpl in H. split; [lia|]. apply H.
Qed.

End Nested.

Lemma scan_once_unfold (fuel : nat) (c : N) (r : pystr) :
  scan_once (S fuel) (c :: r) =
  if (c =? 34)%N then scanstring r
  else if (c =? 123)%N then parse_object (scan_once fuel) r
  else if (c =? 91)%N then parse_array (scan_once fuel) r
  else
    match literal (py "null") (c :: r) with Some r' => Some r' | None =>
    match literal (py "true") (c :: r) with Some r' => Some r' | None =>
    match literal (py "false") (c :: r) with Some r' => Some r' | None =>
    match literal (py "NaN") (c :: r) with Some r' => Some r' | None =>
    match literal (py "Infinity") (c :: r) with Some r' => Some r' | None =>
    match literal (py "-Infinity") (c :: r) with Some r' => Some r' | None =>
    match_number (c :: r)
    end end end end end end.
Proof. reflexivity. Qed.

(** A value that some fuel decodes is shorter than its text, and any fuel
    that reaches the length of the text decodes it the same way. *)
Lemma scan_once_enough (fuel : nat) (t r : pystr) :
  scan_once fuel t = Some r ->
  length r < length t
  /\ forall fuel', length t <= fuel' -> scan_once fuel' t = Some r.
Proof.
  revert t r. induction fuel as [|fuel IH]; intros t r; [discriminate|].
  destruct t as [|c t]; [discriminate|]. rewrite scan_once_unfold.
  assert (G : forall fuel',
             length (c :: t) <= fuel' ->
             exists g, fuel' = S g /\ length t <= g).
  { intros [|g] Hg; simpl in Hg; [lia|]. exists g. split; [reflexivity|lia]. }
  destruct (c =? 34)%N eqn:C1.
  { intros H. split; [apply scanstring_length in H; simpl; lia|].
    intros fuel' Hf. destruct (G fuel' Hf) as [g [-> _]].
    now rewrite scan_once_unfold, C1. }
  destruct (c =? 123)%N eqn:C2.
  { intros H. split.
    - apply (parse_object_bounded (scan_once fuel) (scan_once fuel)
               (length t)) in H; [simpl; lia | apply IH | auto | lia].
    - intros fuel' Hf. destruct (G fuel' Hf) as [g [-> Hg]].
      rewrite scan_once_unfold, C1, C2.
      apply (parse_object_bounded (scan_once fuel) (scan_once g)
               (length t)) in H; [apply H | apply IH | | lia].
      intros u r' Hu Su. apply IH in Su. apply Su. lia. }
  destruct (c =? 91)%N eqn:C3.
  { intros H. split.
    - apply (parse_array_bounded (scan_once fuel) (scan_once fuel)
               (length t)) in H; [simpl; lia | apply IH | auto | lia].
    - intros fuel' Hf. destruct (G fuel' Hf) as [g [-> Hg]].
      rewrite scan_once_unfold, C1, C2, C3.
      apply (parse_array_bounded (scan_once fuel) (scan_once g)
               (length t)) in H; [apply H | apply IH | | lia].
      intros u r' Hu Su. apply IH in Su. apply Su. lia. }
  intros H. split.
  - repeat
      match type of H with
      | match literal ?l ?s with Some _ => _ | None => _ end = _ =>
          let L := fresh "L" in
          destruct (literal l s) as [?|] eqn:L;
          [injection H as <-;
           apply literal_length in L; [exact L | discriminate]|]
      end.
    now apply match_number_length.
  - intros fuel' Hf. destruct (G fuel' Hf) as [g [-> _]].
    now rewrite scan_once_unfold, C1, C2, C3.
Qed.

(** [loads] accepts exactly the texts without byte order mark that are one
    value, decoded with whatever fuel, between JSON whitespace. *)
Lemma loads_spec (s : pystr) :
  loads s = true <->
  startswith [65279%N] s = false
  /\ exists fuel r,
      scan_once fuel (skip_ws s) = Some r /\ skip_ws r = [].
Proof.
  unfold loads. split.
  - destruct (startswith [65279%N] s); [discriminate|].
    destruct (scan_once (S (length s)) (skip_ws s)) as [r|] eqn:E;
      [|discriminate].
    destruct (skip_ws r) eqn:W; [|discriminate].
    intros _. split; [reflexivity|]. now exists (S (length s)), r.
  - intros [-> [fuel [r [E W]]]]. apply scan_once_enough in E.
    destruct E as [_ E]. rewrite (E (S (length s))), W; [reflexivity|].
    pose proof (skip_ws_length s). lia.
Qed.

End JsonFuel.

(** ** The decoder and trailing whitespace

    [json.loads] accepts a document followed by JSON whitespace: the scanner
    stops where the value ends, and [decode] skips the whitespace that
    follows. *)
Module JsonFacts.
Import Json.

Section Trailing.

(** The whitespace appended to the text. *)
Variable w : pystr.
Hypothesis blank : forallb is_ws w = true.

Lemma skip_ws_blank : skip_ws w = [].
Proof.
  clear -blank. induction w as [|c v IH]; [reflexivity|].
  simpl in *. apply andb_true_iff in blank. destruct blank as [C V].
  rewrite C. now apply IH.
Qed.

Lemma skip_ws_app (t : pystr) (c : N) (r : pystr) :
  skip_ws t = c :: r -> skip_ws (t ++ w) = c :: r ++ w.
Proof.
  induction t as [|x t IH]; [discriminate|]. simpl.
  destruct (is_ws x); [exact IH|]. intros H. now injection H as -> ->.
Qed.

Lemma skip_ws_app_end (t : pystr) : skip_ws t = [] -> skip_ws (t ++ w) = [].
Proof.
  induction t as [|x t IH]; simpl; [intros _; apply skip_ws_blank|].
  destruct (is_ws x); [exact IH|discriminate].
Qed.

(** What follows the text is no digit, no dot and no exponent mark. *)
Lemma blank_head :
  match w with
  | [] => True
  | x :: _ => is_ws x = true
  end.
Proof.
  destruct w as [|x v]; [exact I|]. simpl in blank.
  now apply andb_true_iff in blank.
Qed.

Lemma ws_not_digit (x : N) : is_ws x = true -> is_digit x = false.
Proof.
  unfold is_ws, is_digit. intros H.
  repeat (apply orb_true_iff in H; destruct H as [H | H]);
    apply N.eqb_eq in H; subst x; reflexivity.
Qed.

Lemma ws_not_mark (x : N) :
  is_ws x = true ->
  (x =? 46)%N = false /\ (x =? 101)%N = false /\ (x =? 69)%N = false.
Proof.
  unfold is_ws. intros H.
  repeat (apply orb_true_iff in H; destruct H as [H | H]);
    apply N.eqb_eq in H; subst x; repeat split.
Qed.

Lemma skip_digits_app (t : pystr) :
  skip_digits (t ++ w) = skip_digits t ++ w.
Proof.
  induction t as [|x t IH]; simpl.
  - pose proof blank_head as B. destruct w as [|y v]; [reflexivity|].
    simpl. now rewrite (ws_not_digit y B).
  - now destruct (is_digit x).
Qed.

Lemma match_frac_app (t : pystr) : match_frac (t ++ w) = match_frac t ++ w.
Proof.
  pose proof blank_head as B.
  destruct t as [|dot [|d t]]; simpl.
  - destruct w as [|x [|y v]]; try reflexivity.
    simpl. destruct (ws_not_mark x B) as [-> _]. reflexivity.
  - destruct w as [|x v]; [reflexivity|]. simpl.
    rewrite (ws_not_digit x B). now rewrite andb_false_r.
  - destruct ((dot =? 46)%N && is_digit d); [apply skip_digits_app|reflexivity].
Qed.

Lemma ws_not_sign (x : N) :
  is_ws x = true -> (x =? 45)%N || (x =? 43)%N = false.
Proof.
  unfold is_ws. intros H.
  repeat (apply orb_true_iff in H; destruct H as [H | H]);
    apply N.eqb_eq in H; subst x; reflexivity.
Qed.

Lemma match_exp_app (t : pystr) : match_exp (t ++ w) = match_exp t ++ w.
Proof.
  pose proof blank_head as B.
  destruct t as [|e [|sg [|d t]]]; simpl.
  - destruct w as [|x v]; [reflexivity|]. simpl.
    destruct (ws_not_mark x B) as [_ [-> ->]]. reflexivity.
  - destruct ((e =? 101)%N || (e =? 69)%N); [|reflexivity].
    destruct w as [|x [|y v]]; [reflexivity| |]; simpl;
      rewrite (ws_not_digit x B), ?(ws_not_sign x B); reflexivity.
  - destruct ((e =? 101)%N || (e =? 69)%N); [|reflexivity].
    destruct w as [|x v]; simpl.
    + now rewrite app_nil_r.
    + rewrite (ws_not_digit x B).
      destruct ((sg =? 45)%N || (sg =? 43)%N) eqn:Sg.
      * apply orb_true_iff in Sg.
        destruct Sg as [Sg | Sg]; apply N.eqb_eq in Sg; subst sg;
          reflexivity.
      * destruct (is_digit sg); simpl; rewrite ?(ws_not_digit x B);
          reflexivity.
  - destruct ((e =? 101)%N || (e =? 69)%N); [|reflexivity].
    destruct ((sg =? 45)%N || (sg =? 43)%N).
    + destruct (is_digit d); [apply skip_digits_app|reflexivity].
    + destruct (is_digit sg); [|reflexivity].
      apply (skip_digits_app (d :: t)).
Qed.

Lemma match_int_app (t r : pystr) :
  match_int t = Some r -> match_int (t ++ w) = Some (r ++ w).
Proof.
  destruct t as [|c t]; [discriminate|]. simpl.
  destruct (c =? 48)%N; [intros H; now injection H as ->|].
  destruct ((49 <=? c)%N && (c <=? 57)%N); [|discriminate].
  intros H. injection H as <-. now rewrite skip_digits_app.
Qed.

Lemma match_number_app (t r : pystr) :
  match_number t = Some r -> match_number (t ++ w) = Some (r ++ w).
Proof.
  unfold match_number. destruct t as [|c t]; [discriminate|].
  change ((c :: t) ++ w) with (c :: t ++ w). cbv zeta beta iota.
  destruct (c =? 45)%N.
  - destruct (match_int t) as [r0|] eqn:I; [|discriminate].
    rewrite (match_int_app t r0 I). intros H. injection H as <-.
    now rewrite match_frac_app, match_exp_app.
  - destruct (match_int (c :: t)) as [r0|] eqn:I; [|discriminate].
    change (c :: t ++ w) with ((c :: t) ++ w).
    rewrite (match_int_app (c :: t) r0 I). intros H. injection H as <-.
    now rewrite match_frac_app, match_exp_app.
Qed.

Lemma scanstring_app (t r : pystr) :
  scanstring t = Some r -> scanstring (t ++ w) = Some (r ++ w).
Proof.
  remember (length t) as n eqn:L.
  assert (B : length t <= n) by lia. clear L.
  revert t r B. induction n as [|n IH]; intros t r B.
  - destruct t; [discriminate|simpl in B; lia].
  - destruct t as [|c t]; [discriminate|]. simpl in B. simpl.
    destruct (c =? 34)%N; [intros H; now injection H as ->|].
    destruct (c =? 92)%N.
    + destruct t as [|e t]; [discriminate|]. simpl in B. simpl.
      destruct (e =? 117)%N.
      * destruct t as [|h1 [|h2 [|h3 [|h4 t]]]]; try discriminate.
        simpl in B. simpl.
        destruct (is_hex h1 && is_hex h2 && is_hex h3 && is_hex h4);
          [|discriminate].
        apply IH. lia.
      * destruct (is_escape e); [|discriminate]. apply IH. lia.
    + destruct (c <=? 31)%N; [discriminate|]. apply IH. lia.
Qed.

Lemma literal_app (l t r : pystr) :
  literal l t = Some r -> literal l (t ++ w) = Some (r ++ w).
Proof.
  revert t. induction l as [|a l IH]; intros t.
  - destruct t; simpl; intros H; now injection H as <-.
  - destruct t as [|b t]; [discriminate|]. simpl.
    destruct (a =? b)%N; [apply IH|discriminate].
Qed.

(** Whitespace completes no named constant. *)
Lemma literal_none_app (l t : pystr) :
  forallb (fun c => negb (is_ws c)) l = true ->
  literal l t = None -> literal l (t ++ w) = None.
Proof.
  revert t. induction l as [|a l IH]; intros t Hl.
  - destruct t; discriminate.
  - simpl in Hl. apply andb_true_iff in Hl. destruct Hl as [Ha Hl].
    destruct t as [|b t]; simpl.
    + intros _. pose proof blank_head as B. destruct w as [|x v];
        [reflexivity|].
      destruct (N.eqb_spec a x) as [->|]; [|reflexivity].
      rewrite B in Ha. discriminate Ha.
    + destruct (a =? b)%N; [now apply IH|reflexivity].
Qed.

Section Nested.

Variables scan scan' : pystr -> option pystr.
Hypothesis scan_nil : scan [] = None.
Hypothesis scan_app :
  forall t r, scan t = Some r -> scan' (t ++ w) = Some (r ++ w).

Lemma parse_members_nil (n : nat) : parse_members scan n [] = None.
Proof. now destruct n. Qed.

Lemma parse_members_app (n n' : nat) (t r : pystr) :
  n <= n' ->
  parse_members scan n t = Some r ->
  parse_members scan' n' (t ++ w) = Some (r ++ w).
Proof.
  revert n' t. induction n as [|n IH]; intros n' t Hn; [discriminate|].
  destruct n' as [|n']; [lia|]. destruct t as [|c t]; [discriminate|].
  simpl. destruct (c =? 34)%N; [|discriminate].
  destruct (scanstring t) as [r1|] eqn:S1; [|discriminate].
  rewrite (scanstring_app t r1 S1).
  destruct (skip_ws r1) as [|colon r2] eqn:W1; [discriminate|].
  rewrite (skip_ws_app r1 colon r2 W1).
  destruct (colon =? 58)%N; [|discriminate].
  destruct (skip_ws r2) as [|x r2'] eqn:W2; [now rewrite scan_nil|].
  rewrite (skip_ws_app r2 x r2' W2).
  destruct (scan (x :: r2')) as [r3|] eqn:S3; [|discriminate].
  change (x :: r2' ++ w) with ((x :: r2') ++ w).
  rewrite (scan_app (x :: r2') r3 S3).
  destruct (skip_ws r3) as [|d r4] eqn:W3; [discriminate|].
  rewrite (skip_ws_app r3 d r4 W3).
  destruct (d =? 125)%N; [intros H; now injection H as ->|].
  destruct (d =? 44)%N; [|discriminate].
  destruct (skip_ws r4) as [|y r5] eqn:W4;
    [now rewrite parse_members_nil|].
  rewrite (skip_ws_app r4 y r5 W4). apply IH. lia.
Qed.

Lemma parse_object_app (t r : pystr) :
  parse_object scan t = Some r ->
  parse_object scan' (t ++ w) = Some (r ++ w).
Proof.
  unfold parse_object.
  destruct (skip_ws t) as [|c r0] eqn:W0; [discriminate|].
  rewrite (skip_ws_app t c r0 W0).
  destruct (c =? 125)%N; [intros H; now injection H as ->|].
  apply (parse_members_app (length t) (length (t ++ w)) (c :: r0)).
  rewrite length_app. lia.
Qed.

Lemma parse_items_app (n n' : nat) (t r : pystr) :
  n <= n' ->
  parse_items scan n t = Some r ->
  parse_items scan' n' (t ++ w) = Some (r ++ w).
Proof.
  revert n' t. induction n as [|n IH]; intros n' t Hn; [discriminate|].
  destruct n' as [|n']; [lia|]. simpl.
  destruct (scan t) as [r1|] eqn:S1; [|discriminate].
  rewrite (scan_app t r1 S1).
  destruct (skip_ws r1) as [|d r2] eqn:W1; [discriminate|].
  rewrite (skip_ws_app r1 d r2 W1).
  destruct (d =? 93)%N; [intros H; now injection H as ->|].
  destruct (d =? 44)%N; [|discriminate].
  destruct (skip_ws r2) as [|y r3] eqn:W2.
  - destruct n; simpl; [discriminate|]. now rewrite scan_nil.
  - rewrite (skip_ws_app r2 y r3 W2). apply IH. lia.
Qed.

Lemma parse_array_app (t r : pystr) :
  parse_array scan t = Some r ->
  parse_array scan' (t ++ w) = Some (r ++ w).
Proof.
  unfold parse_array.
  destruct (skip_ws t) as [|c r0] eqn:W0; [discriminate|].
  rewrite (skip_ws_app t c r0 W0).
  destruct (c =? 93)%N; [intros H; now injection H as ->|].
  apply (parse_items_app (length t) (length (t ++ w)) (c :: r0)).
  rewrite length_app. lia.
Qed.

End Nested.

Lemma scan_once_nil (fuel : nat) : scan_once fuel [] = None.
Proof. now destruct fuel. Qed.

(** A value followed by whitespace is scanned as the value alone, with fuel
    to spare or not. *)
Lemma scan_once_app (fuel fuel' : nat) (t r : pystr) :
  fuel <= fuel' ->
  scan_once fuel t = Some r ->
  scan_once fuel' (t ++ w) = Some (r ++ w).
Proof.
  revert fuel' t r. induction fuel as [|fuel IH]; intros fuel' t r Hf;
    [discriminate|].
  destruct fuel' as [|fuel']; [lia|]. destruct t as [|c t]; [discriminate|].
  change ((c :: t) ++ w) with (c :: t ++ w). rewrite !JsonFuel.scan_once_unfold.
  destruct (c =? 34)%N; [apply scanstring_app|].
  destruct (c =? 123)%N.
  { apply parse_object_app; [apply scan_once_nil|].
    intros t' r'. apply IH. lia. }
  destruct (c =? 91)%N.
  { apply parse_array_app; [apply scan_once_nil|].
    intros t' r'. apply IH. lia. }
  change (c :: t ++ w) with ((c :: t) ++ w).
  repeat
    match goal with
    | |- match literal ?l (c :: t) with Some _ => _ | None => _ end = _ -> _ =>
        let L := fresh "L" in
        destruct (literal l (c :: t)) as [?|] eqn:L;
        [rewrite (literal_app l (c :: t) _ L); intros H; now injection H as ->
        |rewrite (literal_none_app l (c :: t) eq_refl L)]
    end.
  apply match_number_app.
Qed.

(** [json.loads] accepts a valid document followed by JSON whitespace. *)
Lemma loads_app (s : pystr) : loads s = true -> loads (s ++ w) = true.
Proof.
  unfold loads. destruct s as [|c s]; [discriminate|].
  change (startswith [65279%N] ((c :: s) ++ w))
    with (startswith [65279%N] (c :: s)).
  destruct (startswith [65279%N] (c :: s)); [discriminate|].
  destruct (skip_ws (c :: s)) as [|x t] eqn:W0; [discriminate|].
  rewrite (skip_ws_app (c :: s) x t W0).
  destruct (scan_once (S (length (c :: s))) (x :: t)) as [r|] eqn:S1;
    [|discriminate].
  change (x :: t ++ w) with ((x :: t) ++ w).
  rewrite (scan_once_app (S (length (c :: s))) (S (length ((c :: s) ++ w)))
             (x :: t) r); [|rewrite length_app; lia|exact S1].
  destruct (skip_ws r) as [|y r'] eqn:W1; [|discriminate].
  now rewrite (skip_ws_app_end r W1).
Qed.

End Trailing.

(** [json.loads] refuses the empty text. *)
Lemma loads_empty : loads [] = false.
Proof. reflexivity. Qed.

(** A document that [json.loads] accepts stays accepted when JSON whitespace
    is appended. *)
Lemma loads_trailing_whitespace (s w : pystr) :
  forallb is_ws w = true -> loads s = true -> loads (s ++ w) = true.
Proof. intros Hw. now apply loads_app. Qed.

End JsonFacts.

(** * Further properties of the client *)

(** ** The requests of a call *)

Lemma requests_app (t u : list event) :
  requests (t ++ u) = requests t ++ requests u.
Proof.
  induction t as [|e t IH]; [reflexivity|].
  destruct e; simpl; now rewrite IH.
Qed.

Lemma requests_without_posts (t : list event) :
  posts t = [] -> requests t = [].
Proof.
  induction t as [|e t IH]; [reflexivity|].
  destruct e; simpl; try exact IH. discriminate.
Qed.

Lemma requests_segments json_loads net req max_retries (l : list nat) :
  requests (flat_map (segment json_loads net req max_retries) l)
  = repeat req (length l).
Proof.
  induction l as [|a l IH]; [reflexivity|].
  rewrite segments_cons, requests_app, IH. unfold segment. simpl.
  now rewrite (requests_without_posts _ (posts_aftermath _ _)).
Qed.

Lemma requests_run :
  forall (json_loads : pystr -> bool) (net : request -> nat -> http_outcome)
         (api_key model : pystr) (messages : list chat_message)
         (max_retries timeout : Z),
    let run := call_llm_with_timeout_handling json_loads net api_key model
                 messages max_retries timeout in
    requests (trace run)
    = repeat (build_request api_key model messages timeout)
        (length (posts (trace run))).
Proof.
  intros json_loads net api_key model messages max_retries timeout run.
  destruct (call_run json_loads net api_key model messages max_retries timeout)
    as [k [tail [Ht [Hp _]]]].
  fold run in Ht. rewrite Ht, requests_app, posts_app, Hp, app_nil_r.
  rewrite (requests_without_posts tail Hp), app_nil_r.
  now rewrite requests_segments, posts_segments.
Qed.


(** With [max_retries] zero or negative the loop has no iteration: the call
    sends no request, prints the final message and returns [None]. *)
Theorem no_attempt_without_budget :
  forall (json_loads : pystr -> bool) (net : request -> nat -> http_outcome)
         (api_key model : pystr) (messages : list chat_message)
         (max_retries timeout : Z),
    (max_retries <= 0)%Z ->
    call_llm_with_timeout_handling json_loads net api_key model messages
      max_retries timeout
    = ([Stdout AllFailedLine], inr None).
Proof.
  intros json_loads net api_key model messages max_retries timeout H.
  unfold call_llm_with_timeout_handling, range.
  replace (Z.to_nat max_retries) with 0 by lia. reflexivity.
Qed.

Lemma no_attempt_without_budget_witness :
  call_llm_with_timeout_handling Json.loads net_short_then_long
    (py "sk-key") (py "some/model") (user_says (py "hi")) (-1) 120
  = ([Stdout AllFailedLine], inr None).
Proof.
  apply (no_attempt_without_budget Json.loads net_short_then_long
           (py "sk-key") (py "some/model") (user_says (py "hi")) (-1) 120).
  lia.
Defined.

(** ** The console of a call *)

Lemma judge_timeout json_loads (o : http_outcome) :
  judge json_loads o = TimeoutCaught <-> o = TimedOut.
Proof.
  split; [|now intros ->].
  destruct o as [| |r]; try discriminate; [reflexivity|]. unfold judge.
  destruct (outcome (has_choices r)) as [e|[|]]; try discriminate.
  destruct (outcome (first_content r)) as [e|content]; try discriminate.
  destruct (outcome (is_llm_response_incomplete json_loads content))
    as [e|[|]]; discriminate.
Qed.

Lemma judge_failure json_loads (o : http_outcome) :
  judge json_loads o = FailureCaught <-> o = RequestFailed.
Proof.
  split; [|now intros ->].
  destruct o as [| |r]; try discriminate; [reflexivity|]. unfold judge.
  destruct (outcome (has_choices r)) as [e|[|]]; try discriminate.
  destruct (outcome (first_content r)) as [e|content]; try discriminate.
  destruct (outcome (is_llm_response_incomplete json_loads content))
    as [e|[|]]; discriminate.
Qed.

(** The lines that an attempt prints after its request. *)
Lemma line_of_segment json_loads net req max_retries (i : nat) (l : line) :
  (forall n m, l <> AttemptLine n m) ->
  In (Stdout l) (segment json_loads net req max_retries i) <->
  match judge json_loads (net req i) with
  | Incomplete => l = IncompleteLine (i + 1)
  | TimeoutCaught => l = TimedOutLine (i + 1)
  | FailureCaught => l = FailedLine (i + 1)
  | _ => False
  end.
Proof.
  intros Hl. unfold segment.
  assert (A : In (Stdout l)
                (Stdout (AttemptLine (i + 1) max_retries)
                 :: Post i req
                 :: aftermath (judge json_loads (net req i)) (i + 1))
              <-> In (Stdout l)
                    (aftermath (judge json_loads (net req i)) (i + 1))).
  { split.
    - intros [H | [H | H]]; [|discriminate H|exact H].
      injection H as <-. exfalso. now eapply Hl.
    - intros H. right. right. exact H. }
  rewrite A. clear A.
  destruct (judge json_loads (net req i)); simpl; split;
    try contradiction.
  - intros [H | [H | []]]; [now injection H|discriminate H].
  - intros ->. now left.
  - intros [H | []]. now injection H.
  - intros ->. now left.
  - intros [H | []]. now injection H.
  - intros ->. now left.
Qed.

Section Console.

Variable json_loads : pystr -> bool.
Variable net : request -> nat -> http_outcome.
Variables api_key model : pystr.
Variable messages : list chat_message.
Variables max_retries timeout : Z.

(** An event of a call other than the final message belongs to the segment
    of an attempt that was made. *)
Lemma in_trace_run (e : event) :
  e <> Stdout AllFailedLine ->
  In e (trace (call_llm_with_timeout_handling json_loads net api_key model
                 messages max_retries timeout)) <->
  exists i,
    In i (posts (trace (call_llm_with_timeout_handling json_loads net
                          api_key model messages max_retries timeout)))
    /\ In e (segment json_loads net
               (build_request api_key model messages timeout)
               max_retries i).
Proof.
  intros He.
  destruct (call_run json_loads net api_key model messages max_retries timeout)
    as [k [tail [Ht [Hp [_ H]]]]].
  rewrite Ht, posts_app, posts_segments, Hp, app_nil_r, in_app_iff,
    in_flat_map.
  split.
  - intros [G | G]; [exact G|]. exfalso.
    destruct H as [[_ [-> _]] | [j [_ [_ [-> _]]]]];
      [destruct G as [G | []]; now apply He | contradiction].
  - intros G. now left.
Qed.

End Console.

(** Every failure that the loop catches is reported with the number of its
    attempt, and nothing else is reported as one: the line of a timeout, of
    a failed request or of an incomplete response is printed for attempt
    [i + 1] exactly when attempt [i] was made and ended that way. *)
Theorem failures_are_reported :
  forall (json_loads : pystr -> bool) (net : request -> nat -> http_outcome)
         (api_key model : pystr) (messages : list chat_message)
         (max_retries timeout : Z) (n : nat),
    let req := build_request api_key model messages timeout in
    let run := call_llm_with_timeout_handling json_loads net api_key model
                 messages max_retries timeout in
    let made i := In i (posts (trace run)) in
    (In (Stdout (TimedOutLine n)) (trace run) <->
     exists i, n = i + 1 /\ made i /\ net req i = TimedOut)
    /\ (In (Stdout (FailedLine n)) (trace run) <->
        exists i, n = i + 1 /\ made i /\ net req i = RequestFailed)
    /\ (In (Stdout (IncompleteLine n)) (trace run) <->
        exists i, n = i + 1 /\ made i
                  /\ exists result, net req i = Responded result
                                    /\ classified json_loads result true).
Proof.
  intros json_loads net api_key model messages max_retries timeout n req run
    made.
  subst run made. cbv beta.
  rewrite !in_trace_run by discriminate. fold req.
  split; [|split]; split.
  - intros [i [Hi Hin]]. apply line_of_segment in Hin; [|discriminate].
    destruct (judge json_loads (net req i)) eqn:J; try contradiction;
      try discriminate Hin.
    injection Hin as ->. exists i. apply judge_timeout in J. now repeat split.
  - intros [i [-> [Hi Hnet]]]. exists i. split; [exact Hi|].
    apply line_of_segment; [discriminate|]. now rewrite Hnet.
  - intros [i [Hi Hin]]. apply line_of_segment in Hin; [|discriminate].
    destruct (judge json_loads (net req i)) eqn:J; try contradiction;
      try discriminate Hin.
    injection Hin as ->. exists i. apply judge_failure in J. now repeat split.
  - intros [i [-> [Hi Hnet]]]. exists i. split; [exact Hi|].
    apply line_of_segment; [discriminate|]. now rewrite Hnet.
  - intros [i [Hi Hin]]. apply line_of_segment in Hin; [|discriminate].
    destruct (judge json_loads (net req i)) eqn:J; try contradiction;
      try discriminate Hin.
    injection Hin as ->. exists i. apply judge_incomplete in J.
    now repeat split.
  - intros [i [-> [Hi Hinc]]]. exists i. split; [exact Hi|].
    apply line_of_segment; [discriminate|].
    apply judge_incomplete in Hinc. now rewrite Hinc.
Qed.

(** The final message is printed exactly when the call returns [None], and
    is then its last event. *)
Theorem final_message_iff_none :
  forall (json_loads : pystr -> bool) (net : request -> nat -> http_outcome)
         (api_key model : pystr) (messages : list chat_message)
         (max_retries timeout : Z),
    let run := call_llm_with_timeout_handling json_loads net api_key model
                 messages max_retries timeout in
    (In (Stdout AllFailedLine) (trace run) <-> outcome run = inr None)
    /\ (outcome run = inr None ->
        exists t, trace run = t ++ [Stdout AllFailedLine]).
Proof.
  intros json_loads net api_key model messages max_retries timeout run.
  destruct (call_run json_loads net api_key model messages max_retries timeout)
    as [k [tail [Ht [Hp [_ H]]]]].
  fold run in Ht, H.
  destruct H as [[_ [-> [Ho _]]] | [j [_ [_ [-> [_ Hstop]]]]]].
  - split.
    + split; [intros _; exact Ho|]. intros _. rewrite Ht.
      apply in_or_app. right. now left.
    + intros _. eexists. exact Ht.
  - assert (N : outcome run <> inr None)
      by (destruct Hstop as [[r [_ ->]] | [e [_ ->]]]; discriminate).
    split; [|intros C; contradiction].
    split; [|intros C; contradiction].
    rewrite Ht, app_nil_r. intros Hin. exfalso.
    apply in_flat_map in Hin. destruct Hin as [i [_ Hin]].
    apply line_of_segment in Hin; [|discriminate].
    destruct (judge json_loads
                (net (build_request api_key model messages timeout) i));
      try contradiction; discriminate Hin.
Qed.

(** ** Contents that are no text *)

Section Contents.

Variable json_loads : pystr -> bool.
Variable net : request -> nat -> http_outcome.
Variables api_key model : pystr.
Variable messages : list chat_message.
Variables max_retries timeout : Z.

(** The sleeps that follow the request of an attempt that was made. *)
Lemma sleeps_after_attempt (i : nat) :
  In i (posts (trace (call_llm_with_timeout_handling json_loads net api_key
                        model messages max_retries timeout))) ->
  sleeps (after_post i
            (trace (call_llm_with_timeout_handling json_loads net api_key
                      model messages max_retries timeout)))
  = match judge json_loads
            (net (build_request api_key model messages timeout) i) with
    | Incomplete => [2%Z]
    | _ => []
    end.
Proof.
  destruct (call_run json_loads net api_key model messages max_retries timeout)
    as [k [tail [Ht [Hp [Hs _]]]]].
  rewrite Ht, posts_app, posts_segments, Hp, app_nil_r. intros Hin.
  exact (sleeps_after_post json_loads net _ max_retries (seq 0 k) tail i
           (seq_NoDup k 0) Hin Hs Hp).
Qed.

(** A returned response carries a content classified complete. *)
Lemma returned_is_accepted (result : json) :
  outcome (call_llm_with_timeout_handling json_loads net api_key model
             messages max_retries timeout) = inr (Some result) ->
  classified json_loads result false.
Proof.
  destruct (call_run json_loads net api_key model messages max_retries timeout)
    as [k [tail [_ [_ [_ H]]]]].
  intros Ho. destruct H as [[_ [_ [Hn _]]] | [j [_ [_ [_ [_ Hstop]]]]]].
  - rewrite Ho in Hn. discriminate Hn.
  - destruct Hstop as [[r [J Hr]] | [e [_ He]]].
    + rewrite Ho in Hr. injection Hr as <-. now apply judge_accepted in J.
    + rewrite Ho in He. discriminate He.
Qed.

End Contents.

(** The classifier tests its argument before it decodes it: a content that
    Python takes for false ([None], [False], [0], [0.0], the empty text, list
    or dict) is incomplete.  A response with such a content is reported as
    incomplete, followed by the sleep of 2 seconds, and is not what the call
    returns. *)
Theorem empty_content_is_retried :
  forall (json_loads : pystr -> bool) (net : request -> nat -> http_outcome)
         (api_key model : pystr) (messages : list chat_message)
         (max_retries timeout : Z) (attempt : nat) (result content : json),
    let req := build_request api_key model messages timeout in
    let run := call_llm_with_timeout_handling json_loads net api_key model
                 messages max_retries timeout in
    In attempt (posts (trace run)) ->
    net req attempt = Responded result ->
    first_content result = ret content ->
    truthy content = false ->
    In (Stdout (IncompleteLine (attempt + 1))) (trace run)
    /\ sleeps (after_post attempt (trace run)) = [2%Z]
    /\ outcome run <> inr (Some result).
Proof.
  intros json_loads net api_key model messages max_retries timeout attempt
    result content req run Hin Hnet Hc Ht.
  assert (C : classified json_loads result true).
  { exists content. split; [exact Hc|].
    unfold is_llm_response_incomplete. now rewrite Ht. }
  assert (J : judge json_loads (net req attempt) = Incomplete)
    by (apply judge_incomplete; now exists result).
  split; [|split].
  - apply in_trace_run; [discriminate|]. exists attempt.
    split; [exact Hin|]. apply line_of_segment; [discriminate|].
    fold req. now rewrite J.
  - subst run. rewrite sleeps_after_attempt by exact Hin. fold req.
    now rewrite J.
  - intros Ho. apply returned_is_accepted in Ho.
    pose proof (classified_functional json_loads result _ _ C Ho).
    discriminate.
Qed.

(** [{"choices": [{"message": {"content": null}}]}] at every attempt. *)
Lemma empty_content_is_retried_witness :
  let run := call_llm_with_timeout_handling Json.loads
               (fun _ _ => Responded (response_with JNull))
               (py "sk-key") (py "some/model") (user_says (py "hi")) 2 120 in
  In (Stdout (IncompleteLine 2)) (trace run)
  /\ sleeps (after_post 1 (trace run)) = [2%Z]
  /\ outcome run <> inr (Some (response_with JNull)).
Proof.
  apply (empty_content_is_retried Json.loads
           (fun _ _ => Responded (response_with JNull))
           (py "sk-key") (py "some/model") (user_says (py "hi")) 2 120
           1 (response_with JNull) JNull).
  - vm_compute. right. left. reflexivity.
  - reflexivity.
  - reflexivity.
  - reflexivity.
Defined.

(** A content that Python takes for true and that is no [str] (a number, a
    list of content parts, a dict) makes [json.loads] raise [TypeError]; no
    clause of the loop catches it, so it ends the call: the attempt is the
    last one, and nothing is returned. *)
Theorem content_that_is_no_text_raises_TypeError :
  forall (json_loads : pystr -> bool) (net : request -> nat -> http_outcome)
         (api_key model : pystr) (messages : list chat_message)
         (max_retries timeout : Z) (attempt : nat) (result content : json),
    let req := build_request api_key model messages timeout in
    let run := call_llm_with_timeout_handling json_loads net api_key model
                 messages max_retries timeout in
    In attempt (posts (trace run)) ->
    net req attempt = Responded result ->
    first_content result = ret content ->
    truthy content = true ->
    (forall text : pystr, content <> JStr text) ->
    outcome run = inl TypeError
    /\ posts (trace run) = seq 0 (S attempt).
Proof.
  intros json_loads net api_key model messages max_retries timeout attempt
    result content req run Hin Hnet Hc Ht Hs.
  apply (escaped_exception_leaves_call json_loads net api_key model messages
           max_retries timeout attempt result TypeError Hin Hnet).
  unfold judge. rewrite (first_content_has_choices _ _ Hc), Hc. simpl.
  unfold is_llm_response_incomplete. rewrite Ht. simpl.
  destruct content; try reflexivity. exfalso. now apply (Hs s).
Qed.

(** A content given as a list of parts, [[{"type": "text"}]]. *)
Lemma content_that_is_no_text_raises_TypeError_witness :
  let parts := JArr [JObj [(py "type", JStr (py "text"))]] in
  let run := call_llm_with_timeout_handling Json.loads
               (fun _ _ => Responded (response_with parts))
               (py "sk-key") (py "some/model") (user_says (py "hi")) 3 120 in
  outcome run = inl TypeError /\ posts (trace run) = [0].
Proof.
  apply (content_that_is_no_text_raises_TypeError Json.loads
           (fun _ _ =>
              Responded
                (response_with (JArr [JObj [(py "type", JStr (py "text"))]])))
           (py "sk-key") (py "some/model") (user_says (py "hi")) 3 120
           0 (response_with (JArr [JObj [(py "type", JStr (py "text"))]]))
           (JArr [JObj [(py "type", JStr (py "text"))]])).
  - vm_compute. left. reflexivity.
  - reflexivity.
  - reflexivity.
  - reflexivity.
  - intros text. discriminate.
Defined.

(** ** The entry point after its checks *)

(** A response from which the content can be read is a [dict] that is not
    empty. *)
Lemma first_content_truthy (result content : json) :
  first_content result = ret content -> truthy result = true.
Proof.
  unfold first_content. destruct result as [| | | | | |d]; try discriminate.
  destruct d; [discriminate|reflexivity].
Qed.

(** What [main] does after the call, by the way the call ends. *)
Lemma main_run :
  forall (json_loads : pystr -> bool) (net : request -> nat -> http_outcome)
         (key query model : pystr) (timeout : Z),
    key <> [] ->
    strip query <> [] ->
    let call := call_llm_with_timeout_handling json_loads net key model
                  [[(py "role", py "user"); (py "content", query)]]
                  3 timeout in
    let run := main json_loads net (Some key) query model timeout in
    match outcome call with
    | inl e => run = (trace call, inl e)
    | inr None => run = (trace call ++ [Stdout NoResponseLine], inr tt)
    | inr (Some result) =>
        exists content,
          first_content result = ret content
          /\ is_llm_response_incomplete json_loads content = ret false
          /\ run = (trace call ++ [Stdout (ContentLine content)], inr tt)
    end.
Proof.
  intros json_loads net key query model timeout Hk Hq call run.
  subst run. unfold main.
  destruct key as [|c key]; [contradiction|].
  destruct (strip query) as [|x q]; [contradiction|].
  unfold default_max_retries. fold call.
  pose proof (returned_is_accepted json_loads net (c :: key) model
                [[(py "role", py "user"); (py "content", query)]]
                3 timeout) as Hacc.
  fold call in Hacc.
  destruct call as [t [e|[result|]]]; simpl outcome in *; simpl trace.
  - reflexivity.
  - destruct (Hacc result eq_refl) as [content [Hc Hi]].
    exists content. split; [exact Hc|]. split; [exact Hi|].
    simpl. rewrite (first_content_truthy _ _ Hc).
    rewrite (first_content_has_choices _ _ Hc). simpl. rewrite Hc. simpl.
    reflexivity.
  - reflexivity.
Qed.

(** With a key and a query that is not blank, [main] ends as the call does:
    it prints the content of the response that the call returns, prints the
    failure notice when the call returns [None], and lets the exception
    pass that leaves the call, printing nothing more. *)
Theorem main_prints_the_outcome :
  forall (json_loads : pystr -> bool) (net : request -> nat -> http_outcome)
         (key query model : pystr) (timeout : Z),
    key <> [] ->
    strip query <> [] ->
    let call := call_llm_with_timeout_handling json_loads net key model
                  [[(py "role", py "user"); (py "content", query)]]
                  3 timeout in
    let run := main json_loads net (Some key) query model timeout in
    (forall result,
        outcome call = inr (Some result) ->
        exists content,
          first_content result = ret content
          /\ run = (trace call ++ [Stdout (ContentLine content)], inr tt))
    /\ (outcome call = inr None ->
        run = (trace call ++ [Stdout NoResponseLine], inr tt))
    /\ (forall e, outcome call = inl e -> run = (trace call, inl e)).
Proof.
  intros json_loads net key query model timeout Hk Hq call run.
  pose proof (main_run json_loads net key query model timeout Hk Hq) as H.
  cbv zeta in H. fold call in H. fold run in H.
  split; [|split].
  - intros result Ho. rewrite Ho in H.
    destruct H as [content [Hc [_ Hr]]]. now exists content.
  - intros Ho. now rewrite Ho in H.
  - intros e Ho. now rewrite Ho in H.
Qed.

Lemma main_prints_the_outcome_witness :
  main Json.loads net_short_then_long (Some (py "sk-key")) (py "hi")
    (py "some/model") 120
  = (trace (call_llm_with_timeout_handling Json.loads net_short_then_long
              (py "sk-key") (py "some/model")
              [[(py "role", py "user"); (py "content", py "hi")]] 3 120)
     ++ [Stdout (ContentLine (JStr long_answer))],
     inr tt).
Proof.
  assert (Hk : py "sk-key" <> []) by discriminate.
  assert (Hq : strip (py "hi") <> []) by discriminate.
  destruct (main_prints_the_outcome Json.loads net_short_then_long
              (py "sk-key") (py "hi") (py "some/model") 120 Hk Hq)
    as [H _].
  destruct (H (response_with (JStr long_answer)) eq_refl)
    as [content [Hc Hr]].
  injection Hc as <-. exact Hr.
Defined.

(** With a key and a query that is not blank, [main] sends at most three
    requests, and each carries the query as it was given, not stripped, as
    the only message, of role [user], with the timeout of the command
    line. *)
Theorem main_sends_the_query :
  forall (json_loads : pystr -> bool) (net : request -> nat -> http_outcome)
         (key query model : pystr) (timeout : Z),
    key <> [] ->
    strip query <> [] ->
    let run := main json_loads net (Some key) query model timeout in
    length (posts (trace run)) <= 3
    /\ requests (trace run)
       = repeat
           (build_request key model
              [[(py "role", py "user"); (py "content", query)]] timeout)
           (length (posts (trace run))).
Proof.
  intros json_loads net key query model timeout Hk Hq run.
  pose proof (main_run json_loads net key query model timeout Hk Hq) as H.
  cbv zeta in H. fold run in H.
  pose proof (posts_run json_loads net key model
                [[(py "role", py "user"); (py "content", query)]] 3 timeout)
    as [k [Hp Hle]].
  pose proof (requests_run json_loads net key model
                [[(py "role", py "user"); (py "content", query)]] 3 timeout)
    as R.
  cbv zeta in R.
  assert (E : exists extra,
             trace run
             = trace (call_llm_with_timeout_handling json_loads net key
                        model
                        [[(py "role", py "user"); (py "content", query)]]
                        3 timeout) ++ extra
             /\ posts extra = []).
  { destruct (outcome _) as [e|[result|]].
    - exists []. rewrite H. simpl. now rewrite app_nil_r.
    - destruct H as [content [_ [_ ->]]]. now eexists.
    - rewrite H. now eexists. }
  destruct E as [extra [-> Hx]].
  rewrite posts_app, Hx, app_nil_r.
  rewrite requests_app, (requests_without_posts extra Hx), app_nil_r.
  split; [|exact R]. rewrite Hp, length_seq. simpl in Hle. lia.
Qed.

Lemma main_sends_the_query_witness :
  let run := main Json.loads net_timeouts (Some (py "sk-key")) (py " hi ")
               (py "some/model") 5 in
  length (posts (trace run)) <= 3
  /\ requests (trace run)
     = repeat
         (build_request (py "sk-key") (py "some/model")
            [[(py "role", py "user"); (py "content", py " hi ")]] 5)
         (length (posts (trace run))).
Proof.
  apply (main_sends_the_query Json.loads net_timeouts (py "sk-key")
           (py " hi ") (py "some/model") 5); discriminate.
Defined.

(** * Properties of the setup script *)

Module SetupFacts.
Import Setup SetupTrace.

(** ** [split], [join] and [replace] *)

Lemma split_cons (sep : N) (s : pystr) :
  exists part parts, split sep s = part :: parts.
Proof.
  induction s as [|c s [p [ps IH]]]; simpl.
  - now exists [], [].
  - destruct (c =? sep)%N; [now eexists; eexists|].
    rewrite IH. now eexists; eexists.
Qed.

Lemma join_split (sep : N) (s : pystr) : join [sep] (split sep s) = s.
Proof.
  induction s as [|c s IH]; [reflexivity|]. simpl.
  destruct (split_cons sep s) as [p [ps E]]. rewrite E in *.
  destruct (N.eqb_spec c sep) as [->|_].
  - simpl. simpl in IH. now rewrite IH.
  - destruct ps as [|q ps]; simpl in *; now rewrite <- IH.
Qed.

Lemma split_no_sep (sep : N) (s part : pystr) :
  In part (split sep s) -> ~ In sep part.
Proof.
  revert part. induction s as [|c s IH]; simpl; intros part.
  - intros [<- | []]. intros [].
  - destruct (N.eqb_spec c sep) as [->|Hne].
    + intros [<- | H]; [intros []|now apply IH].
    + destruct (split_cons sep s) as [p [ps E]]. rewrite E in *.
      intros [<- | H].
      * intros [C | C]; [now apply Hne|]. apply (IH p); [now left|exact C].
      * apply IH. now right.
Qed.

Lemma split_length (sep : N) (s : pystr) :
  length (split sep s) = Datatypes.S (count_occ N.eq_dec s sep).
Proof.
  induction s as [|c s IH]; [reflexivity|]. simpl.
  destruct (split_cons sep s) as [p [ps E]]. rewrite E in *.
  destruct (N.eqb_spec c sep) as [->|Hne].
  - destruct (N.eq_dec sep sep); [|contradiction]. simpl length in *.
    now f_equal.
  - destruct (N.eq_dec c sep); [contradiction|]. exact IH.
Qed.

Lemma split_without_sep (sep : N) (s : pystr) :
  ~ In sep s -> split sep s = [s].
Proof.
  induction s as [|c s IH]; [reflexivity|]. simpl. intros H.
  destruct (N.eqb_spec c sep) as [->|_]; [exfalso; apply H; now left|].
  rewrite IH; [reflexivity|]. intros C. apply H. now right.
Qed.

Lemma last_split_app (sep : N) (a b : pystr) :
  last (split sep (a ++ sep :: b)) [] = last (split sep b) [].
Proof.
  induction a as [|c a IH]; simpl.
  - rewrite N.eqb_refl. destruct (split_cons sep b) as [p [ps E]].
    now rewrite E.
  - destruct (split_cons sep (a ++ sep :: b)) as [p [ps E]].
    pose proof (split_length sep (a ++ sep :: b)) as L.
    assert (C : count_occ N.eq_dec (a ++ sep :: b) sep > 0)
      by (apply count_occ_In, in_or_app; right; now left).
    rewrite E in *. destruct (c =? sep)%N; [exact IH|].
    destruct ps as [|q ps]; [simpl in L; lia|exact IH].
Qed.

Lemma last_in (l : list pystr) : l <> [] -> In (last l []) l.
Proof.
  induction l as [|x l IH]; [contradiction|]. intros _.
  destruct l as [|y l]; [now left|]. right. apply IH. discriminate.
Qed.

Lemma replace_from_subset (old : pystr) (skip : nat) (s : pystr) (x : N) :
  In x (replace_from old [] skip s) -> In x s.
Proof.
  revert skip. induction s as [|c s IH]; intros skip; [intros []|].
  simpl. destruct skip as [|skip].
  - destruct (startswith old (c :: s)); simpl.
    + intros H. right. now apply IH in H.
    + intros [-> | H]; [now left|]. right. now apply IH in H.
  - intros H. right. now apply IH in H.
Qed.

Lemma startswith4 (p1 p2 p3 p4 y1 y2 y3 y4 : N) (r : pystr) :
  startswith [p1; p2; p3; p4] (y1 :: y2 :: y3 :: y4 :: r)
  = ((p1 =? y1) && ((p2 =? y2) && ((p3 =? y3) && ((p4 =? y4) && true))))%N.
Proof. reflexivity. Qed.

(** [.git] starts at no position before its own in a text to which it is
    appended, unless it occurs in that text. *)
Lemma startswith_git_app (x b : pystr) :
  startswith (py ".git") (x ++ py ".git" ++ b) = true ->
  x = [] \/ startswith (py ".git") x = true.
Proof.
  change (py ".git") with [46; 103; 105; 116]%N.
  destruct x as [|x1 [|x2 [|x3 [|x4 x]]]]; [now left| | | |];
    intros H; right; simpl app in H; rewrite startswith4 in H.
  - apply andb_true_iff in H. destruct H as [_ H].
    apply andb_true_iff in H. destruct H as [H _]. discriminate H.
  - apply andb_true_iff in H. destruct H as [_ H].
    apply andb_true_iff in H. destruct H as [_ H].
    apply andb_true_iff in H. destruct H as [H _]. discriminate H.
  - apply andb_true_iff in H. destruct H as [_ H].
    apply andb_true_iff in H. destruct H as [_ H].
    apply andb_true_iff in H. destruct H as [_ H].
    apply andb_true_iff in H. destruct H as [H _]. discriminate H.
  - now rewrite startswith4.
Qed.

Lemma replace_git_app (a b : pystr) :
  str_contains (py ".git") a = false ->
  replace (py ".git") [] (a ++ py ".git" ++ b)
  = a ++ replace (py ".git") [] b.
Proof.
  unfold replace. induction a as [|c a IH]; intros H; [reflexivity|].
  change (str_contains (py ".git") (c :: a))
    with (startswith (py ".git") (c :: a) || str_contains (py ".git") a)
    in H.
  apply orb_false_iff in H. destruct H as [Hs Hc].
  change ((c :: a) ++ py ".git" ++ b) with (c :: (a ++ py ".git" ++ b)).
  change (replace_from (py ".git") [] 0 (c :: (a ++ py ".git" ++ b)))
    with (if startswith (py ".git") (c :: (a ++ py ".git" ++ b))
          then [] ++ replace_from (py ".git") []
                       (length (py ".git") - 1) (a ++ py ".git" ++ b)
          else c :: replace_from (py ".git") [] 0 (a ++ py ".git" ++ b)).
  destruct (startswith (py ".git") (c :: (a ++ py ".git" ++ b))) eqn:E.
  - apply (startswith_git_app (c :: a) b) in E.
    destruct E as [E | E]; [discriminate E|].
    rewrite E in Hs. discriminate Hs.
  - simpl app. f_equal. now apply IH.
Qed.

Lemma replace_git_absent (a : pystr) :
  str_contains (py ".git") a = false -> replace (py ".git") [] a = a.
Proof.
  unfold replace. induction a as [|c a IH]; intros H; [reflexivity|].
  change (str_contains (py ".git") (c :: a))
    with (startswith (py ".git") (c :: a) || str_contains (py ".git") a)
    in H.
  apply orb_false_iff in H. destruct H as [Hs Hc].
  change (replace_from (py ".git") [] 0 (c :: a))
    with (if startswith (py ".git") (c :: a)
          then [] ++ replace_from (py ".git") []
                       (length (py ".git") - 1) a
          else c :: replace_from (py ".git") [] 0 a).
  rewrite Hs. f_equal. now apply IH.
Qed.

(** ** The name of the repository *)

(** The name that [run_full_setup] takes from the URL contains no slash:
    it names an entry of the current directory.  A URL that ends with a
    slash gives the empty name. *)
Theorem repo_name_has_no_slash :
  forall url : pystr,
    ~ In 47%N (repo_name_of url)
    /\ repo_name_of (url ++ py "/") = [].
Proof.
  intros url. split.
  - unfold repo_name_of, replace. intros H.
    apply replace_from_subset in H.
    destruct (split_cons 47 url) as [p [ps E]].
    apply (split_no_sep 47 url (last (split 47 url) [])); [|exact H].
    apply last_in. rewrite E. discriminate.
  - unfold repo_name_of. change (py "/") with [47%N].
    now rewrite last_split_app.
Qed.

(** Every occurrence of [.git] is removed from the last component of the
    URL, not only the extension: for a last component [a ++ ".git" ++ b]
    where [a] contains no [.git], the name is [a] followed by what remains
    of [b]. *)
Theorem repo_name_drops_every_git :
  forall base a b : pystr,
    ~ In 47%N a -> ~ In 47%N b ->
    str_contains (py ".git") a = false ->
    repo_name_of (base ++ py "/" ++ a ++ py ".git" ++ b)
    = a ++ replace (py ".git") [] b.
Proof.
  intros base a b Ha Hb Hc. unfold repo_name_of.
  change (py "/" ++ a ++ py ".git" ++ b)
    with (47%N :: (a ++ py ".git" ++ b)).
  rewrite last_split_app, split_without_sep.
  - simpl last. now apply replace_git_app.
  - intros H. apply in_app_or in H. destruct H as [H | H]; [now apply Ha|].
    apply in_app_or in H. destruct H as [H | H]; [|now apply Hb].
    simpl in H. repeat (destruct H as [H | H]; [discriminate H|]).
    exact H.
Qed.

(** The repository [user/my.github.io.git] is cloned into [my.github.io],
    and the name computed for it is [myhub.io]. *)
Lemma repo_name_drops_every_git_witness :
  repo_name_of (py "https://github.com/user/my.github.io.git")
  = py "myhub.io".
Proof.
  apply (repo_name_drops_every_git (py "https://github.com/user")
           (py "my") (py "hub.io.git"));
    [ intros H; simpl in H;
      repeat (destruct H as [H | H]; [discriminate H|]); exact H
    | intros H; simpl in H;
      repeat (destruct H as [H | H]; [discriminate H|]); exact H
    | reflexivity ].
Defined.

(** The name of a URL [base/name.git], and of [base/name], is [name], when
    [name] contains neither a slash nor [.git]. *)
Theorem repo_name_of_clone_url :
  forall base name : pystr,
    ~ In 47%N name ->
    str_contains (py ".git") name = false ->
    repo_name_of (base ++ py "/" ++ name ++ py ".git") = name
    /\ repo_name_of (base ++ py "/" ++ name) = name.
Proof.
  intros base name Hn Hc. unfold repo_name_of. split.
  - change (py "/" ++ name ++ py ".git") with (47%N :: (name ++ py ".git")).
    rewrite last_split_app, split_without_sep.
    + simpl last.
      pose proof (replace_git_app name [] Hc) as R.
      rewrite app_nil_r in R. rewrite R. apply app_nil_r.
    + intros H. apply in_app_or in H. destruct H as [H | H];
        [now apply Hn|].
      simpl in H. repeat (destruct H as [H | H]; [discriminate H|]).
      exact H.
  - change (py "/" ++ name) with (47%N :: name).
    rewrite last_split_app, (split_without_sep 47 name Hn).
    simpl last. now apply replace_git_absent.
Qed.

Lemma repo_name_of_clone_url_witness :
  repo_name_of default_repo = py "ralph-inferno"
  /\ repo_name_of (py "https://github.com/sandstream/ralph-inferno")
     = py "ralph-inferno".
Proof.
  apply (repo_name_of_clone_url (py "https://github.com/sandstream")
           (py "ralph-inferno"));
    [ intros H; simpl in H;
      repeat (destruct H as [H | H]; [discriminate H|]); exact H
    | reflexivity ].
Defined.

(** ** The arguments of [cmd] *)

Lemma runs_app (t u : list event) : runs (t ++ u) = runs t ++ runs u.
Proof.
  induction t as [|e t IH]; [reflexivity|].
  destruct e; simpl; now rewrite IH.
Qed.

(** What [CommandLineInterface.run] does, by the way the process ends: it
    returns the completed process, or reports on [stderr] and raises
    again. *)
Lemma cli_run_spec (mach : machine) (c : command) (h : list event) :
  cli_run mach c h =
  match proc mach h c with
  | Exited rc out err =>
      let o := if capture_output c then Some out else None in
      let e := if capture_output c then Some err else None in
      if check c && negb (rc =? 0)%Z
      then ([Run c; Print stderr_stream 78 [VInt rc];
             Print stderr_stream 79 [value_of o];
             Print stderr_stream 80 [value_of e]],
            inl (CalledProcessError rc o e))
      else ([Run c], inr {| returncode := rc; stdout := o; stderr := e |})
  | Expired =>
      ([Run c;
        Print stderr_stream 83
          [match timeout c with Some t => VInt t | None => VNone end]],
       inl TimeoutExpired)
  | NotStarted =>
      ([Run c; Print stderr_stream 86 [VExc OSError]], inl OSError)
  end.
Proof.
  unfold cli_run, try_except, subprocess_run.
  destruct (proc mach h c) as [rc out err| |]; try reflexivity.
  cbv zeta. now destruct (check c && negb (rc =? 0)%Z).
Qed.

(** The events of [CommandLineInterface.run]: the command, then lines on
    [stderr] only. *)
Lemma cli_run_events (mach : machine) (c : command) (h : list event) :
  exists rest,
    events (cli_run mach c h) = Run c :: rest /\ runs rest = [].
Proof.
  rewrite cli_run_spec. destruct (proc mach h c) as [rc out err| |].
  - cbv zeta. destruct (check c && negb (rc =? 0)%Z); now eexists.
  - now eexists.
  - now eexists.
Qed.

(** [cmd] runs one command, without a shell, whose arguments are the parts
    of the text between its spaces: joined with spaces they give the text
    back, none contains a space, and there is one more than there are
    spaces, so that two spaces in a row, or no text at all, give an empty
    argument. *)
Theorem cmd_arguments :
  forall (mach : machine) (command : pystr) (h : list event),
    exists (a : list pystr) (rest : list event),
      events (cmd mach command h)
      = Run {| args := inr a; shell := false; capture_output := true;
               check := true; cwd := None; env := None; timeout := None |}
        :: rest
      /\ runs rest = []
      /\ join (py " ") a = command
      /\ (forall x, In x a -> ~ In 32%N x)
      /\ length a = Datatypes.S (count_occ N.eq_dec command 32%N).
Proof.
  intros mach command h. exists (split 32 command).
  destruct (cli_run_events mach (argv (split 32 command)) h)
    as [rest [E R]].
  exists rest. split; [|split; [exact R|split; [|split]]].
  - unfold cmd, bind. unfold events in *.
    destruct (cli_run mach (argv (split 32 command)) h) as [t [e|r]];
      simpl in *; [exact E|]. now rewrite app_nil_r.
  - apply (join_split 32).
  - intros x. apply split_no_sep.
  - apply split_length.
Qed.

(** ** Computations that start no process *)

Section Orderly.

Variable mach : machine.

(** The exit statuses that are tolerated. *)
Variable tol : command -> Prop.

Lemma quiet_ret {A} (a : A) : quiet (ret a).
Proof. intros h. split; [reflexivity|discriminate]. Qed.

Lemma quiet_raise {A} (e : exc) : is_exception e = true -> quiet (@raise A e).
Proof.
  intros He h. split; [reflexivity|]. intros e' H. now injection H as <-.
Qed.

Lemma quiet_print l vs : quiet (print l vs).
Proof. intros h. split; [reflexivity|discriminate]. Qed.

Lemma quiet_print_err l vs : quiet (print_err l vs).
Proof. intros h. split; [reflexivity|discriminate]. Qed.

Lemma quiet_emit_setenv n v : quiet (emit (SetEnv n v)).
Proof. intros h. split; [reflexivity|discriminate]. Qed.

Lemma quiet_bind {A B} (c : S A) (f : A -> S B) :
  quiet c -> (forall a, quiet (f a)) -> quiet (bind c f).
Proof.
  intros Hc Hf h. specialize (Hc h). unfold bind, events, result in *.
  destruct (c h) as [t [e|a]]; simpl in *.
  - destruct Hc as [Hr He]. split; [exact Hr|].
    intros e0 H. injection H as <-. now apply He.
  - specialize (Hf a (h ++ t)). destruct (f a (h ++ t)) as [t' r].
    simpl in *. rewrite runs_app. destruct Hc as [-> _].
    destruct Hf as [-> Hf]. now split.
Qed.

Lemma quiet_path_exists p : quiet (path_exists mach p).
Proof. intros h. split; [reflexivity|discriminate]. Qed.

Lemma quiet_input l : quiet (input mach l).
Proof.
  intros h. unfold input, events, result. simpl.
  split; [reflexivity|]. destruct (input_ mach h); [discriminate|].
  intros e H. now injection H as <-.
Qed.

Lemma quiet_read_file p : quiet (read_file mach p).
Proof.
  intros h. unfold read_file, events, result. simpl.
  split; [reflexivity|]. destruct (read_ mach h p); [discriminate|].
  intros e H. now injection H as <-.
Qed.

Lemma quiet_append_file p text : quiet (append_file mach p text).
Proof.
  intros h. unfold append_file, events, result.
  destruct (writable mach h p); simpl; (split; [reflexivity|]);
    [discriminate|]. intros e H. now injection H as <-.
Qed.

Lemma quiet_print_box v b : quiet (print_box v b).
Proof.
  unfold print_box. repeat (apply quiet_bind; [|intros ?]);
    apply quiet_print.
Qed.

Lemma quiet_title v : quiet (title v).
Proof. apply quiet_print_box. Qed.

Lemma quiet_h2 s : quiet (h2 s).
Proof. apply quiet_print. Qed.

Lemma quiet_stdout_strip r : quiet (stdout_strip r).
Proof.
  unfold stdout_strip. destruct (stdout r);
    [apply quiet_ret|now apply quiet_raise].
Qed.

Lemma quiet_orderly {A} (c : S A) : quiet c -> orderly mach tol c.
Proof.
  intros Hc h. destruct (Hc h) as [Hr He]. split; [exact He|].
  intros pre cmd post E _. rewrite E, runs_app in Hr.
  apply app_eq_nil in Hr. destruct Hr as [_ Hr]. discriminate Hr.
Qed.

Lemma orderly_bind {A B} (c : S A) (f : A -> S B) :
  orderly mach tol c -> (forall a, orderly mach tol (f a)) ->
  orderly mach tol (bind c f).
Proof.
  intros Hc Hf h. specialize (Hc h). unfold bind, events, result in *.
  destruct (c h) as [t [e|a]]; simpl in *.
  { destruct Hc as [He Hc]. split.
    - intros e0 H. injection H as <-. now apply He.
    - intros pre cmd post E F. destruct (Hc pre cmd post E F) as [R _].
      split; [exact R|]. now exists e. }
  specialize (Hf a (h ++ t)). destruct (f a (h ++ t)) as [t' r].
  simpl in *. destruct Hc as [_ Hc]. destruct Hf as [He Hf].
  split; [exact He|]. intros pre cmd post E F.
  apply app_eq_app in E. destruct E as [l [[E1 E2] | [E1 E2]]].
  - destruct l as [|x l].
    + simpl in E2. rewrite app_nil_r in E1. subst t.
      apply (Hf [] cmd post); [now symmetry|]. now rewrite app_nil_r.
    + injection E2 as <- ->. exfalso.
      destruct (Hc pre cmd l E1 F) as [_ [e C]]. discriminate C.
  - subst pre. apply (Hf l cmd post E2). now rewrite <- app_assoc.
Qed.

Lemma orderly_cli_run (c : command) : orderly mach tol (cli_run mach c).
Proof.
  intros h. rewrite cli_run_spec. unfold events, result.
  assert (P : forall (rest : list event) pre cmd post,
             runs rest = [] ->
             Run c :: rest = pre ++ Run cmd :: post ->
             pre = [] /\ cmd = c /\ post = rest).
  { intros rest [|x pre] cmd post R E.
    - now injection E as <- <-.
    - injection E as <- E. rewrite E, runs_app in R.
      apply app_eq_nil in R. destruct R as [_ R]. discriminate R. }
  destruct (proc mach h c) as [rc out err| |] eqn:Ans; cbv zeta.
  - destruct (check c && negb (rc =? 0)%Z) eqn:Chk; simpl; split.
    + intros e H. now injection H as <-.
    + intros pre cmd post E F.
      apply P in E; [|reflexivity]. destruct E as [-> [-> ->]].
      split; [reflexivity|]. now eexists.
    + discriminate.
    + intros pre cmd post E F.
      apply P in E; [|reflexivity]. destruct E as [-> [-> ->]].
      rewrite app_nil_r, Ans in F. destruct F as [Hrc [Hck _]].
      rewrite Hck in Chk. simpl in Chk.
      apply negb_false_iff, Z.eqb_eq in Chk. contradiction.
  - simpl. split; [intros e H; now injection H as <-|].
    intros pre cmd post E F. apply P in E; [|reflexivity].
    destruct E as [-> [-> ->]]. split; [reflexivity|]. now eexists.
  - simpl. split; [intros e H; now injection H as <-|].
    intros pre cmd post E F. apply P in E; [|reflexivity].
    destruct E as [-> [-> ->]]. split; [reflexivity|]. now eexists.
Qed.

(** A command whose exit status is tolerated, run in a [try] whose only
    clause catches [CalledProcessError] and starts no process. *)
Lemma orderly_tolerated {A} (c : command) (a : A) (k : exc -> S A) :
  tol c ->
  (forall e, quiet (k e)) ->
  orderly mach tol
    (try_except (bind (cli_run mach c) (fun _ => ret a))
       (fun e =>
          match e with
          | CalledProcessError _ _ _ => Some (k e)
          | _ => None
          end)).
Proof.
  intros Ht Hk h. unfold try_except, bind. rewrite cli_run_spec.
  unfold events, result.
  assert (P : forall (rest : list event) pre cmd post,
             runs rest = [] ->
             Run c :: rest = pre ++ Run cmd :: post ->
             pre = [] /\ cmd = c /\ post = rest).
  { intros rest [|x pre] cmd post R E.
    - now injection E as <- <-.
    - injection E as <- E. rewrite E, runs_app in R.
      apply app_eq_nil in R. destruct R as [_ R]. discriminate R. }
  destruct (proc mach h c) as [rc out err| |] eqn:Ans; cbv zeta.
  - destruct (check c && negb (rc =? 0)%Z) eqn:Chk.
    + match goal with
      | |- context [k ?e ?h'] =>
          destruct (Hk e h') as [Kr Ke]; destruct (k e h') as [t' r]
      end.
      unfold events, result in *. simpl in *. split; [exact Ke|].
      intros pre cmd post E F. apply P in E; [|exact Kr].
      destruct E as [-> [-> _]]. rewrite app_nil_r, Ans in F.
      destruct F as [_ [_ F]]. contradiction.
    + simpl. split; [discriminate|].
      intros pre cmd post E F. apply P in E; [|reflexivity].
      destruct E as [-> [-> ->]].
      rewrite app_nil_r, Ans in F. destruct F as [Hrc [Hck _]].
      rewrite Hck in Chk. simpl in Chk.
      apply negb_false_iff, Z.eqb_eq in Chk. contradiction.
  - simpl. split; [intros e H; now injection H as <-|].
    intros pre cmd post E F. apply P in E; [|reflexivity].
    destruct E as [-> [-> ->]]. split; [reflexivity|]. now eexists.
  - simpl. split; [intros e H; now injection H as <-|].
    intros pre cmd post E F. apply P in E; [|reflexivity].
    destruct E as [-> [-> ->]]. split; [reflexivity|]. now eexists.
Qed.

End Orderly.

Ltac quiet_tac :=
  repeat first
    [ apply quiet_bind; [|intros ?]
    | apply quiet_print
    | apply quiet_print_err
    | apply quiet_title
    | apply quiet_h2
    | apply quiet_print_box
    | apply quiet_ret
    | apply quiet_path_exists
    | apply quiet_input
    | apply quiet_read_file
    | apply quiet_append_file
    | apply quiet_emit_setenv
    | apply quiet_stdout_strip
    | (apply quiet_raise; reflexivity)
    | match goal with
      | |- quiet (if ?b then _ else _) => destruct b
      end ].

Ltac orderly_tac :=
  repeat first
    [ apply orderly_bind; [|intros ?]
    | apply orderly_cli_run
    | solve [apply quiet_orderly; quiet_tac]
    | match goal with
      | |- orderly _ _ (if ?b then _ else _) => destruct b
      end ].

(** ** The steps of the setup *)

Section Steps.

Variable mach : machine.
Variable lower : pystr -> pystr.
Variable self : VMSetup.

Lemma orderly_clone :
  orderly mach tolerated (clone_and_configure_git mach self).
Proof. unfold clone_and_configure_git, run. orderly_tac. Qed.

Lemma orderly_nodejs :
  orderly mach tolerated (setup_nodejs mach self).
Proof. unfold setup_nodejs, run. orderly_tac. Qed.

Lemma quiet_api_key : quiet (setup_api_key mach self).
Proof. unfold setup_api_key. quiet_tac. Qed.

Lemma orderly_playwright :
  orderly mach tolerated (setup_playwright mach self).
Proof. unfold setup_playwright, run. orderly_tac. Qed.

Lemma orderly_github_cli :
  orderly mach tolerated (setup_github_cli mach self).
Proof. unfold setup_github_cli, run. orderly_tac. Qed.

Lemma orderly_ssh_keys :
  orderly mach tolerated (setup_ssh_keys mach lower self).
Proof.
  unfold setup_ssh_keys, run. orderly_tac.
  apply (orderly_tolerated mach tolerated (ssh_keygen self) true
           (fun _ => bind (print 255 []) (fun _ => ret false))).
  - left. now exists self.
  - intros e. quiet_tac.
Qed.

Lemma orderly_sync (repo_name : pystr) :
  orderly mach tolerated (sync_repository mach self repo_name).
Proof.
  unfold sync_repository, run. orderly_tac.
  - apply (orderly_tolerated mach tolerated
             (git_pull (Named repo_name)) tt
             (fun e => print 294 [VExc e])).
    + right. exists (Named repo_name). now left.
    + intros e. quiet_tac.
  - apply (orderly_tolerated mach tolerated
             (git_push (Named repo_name)) tt
             (fun e => bind (print 304 [VExc e]) (fun _ => print 305 []))).
    + right. exists (Named repo_name). now right.
    + intros e. quiet_tac.
Qed.

End Steps.

(** ** The whole setup *)

Section Final.

Variable mach : machine.

Lemma harmless_print l vs : harmless (print l vs).
Proof. intros h. split; [reflexivity|discriminate]. Qed.

Lemma harmless_print_err l vs : harmless (print_err l vs).
Proof. intros h. split; [reflexivity|discriminate]. Qed.

Lemma harmless_ret {A} (a : A) : harmless (ret a).
Proof. intros h. split; [reflexivity|discriminate]. Qed.

Lemma harmless_exit {A} : harmless (@raise A (SystemExit 1)).
Proof.
  intros h. split; [reflexivity|]. intros e H. now injection H as <-.
Qed.

Lemma harmless_getenv name default : harmless (getenv mach name default).
Proof. intros h. split; [reflexivity|discriminate]. Qed.

Lemma harmless_bind {A B} (q : S A) (f : A -> S B) :
  harmless q -> (forall a, harmless (f a)) -> harmless (bind q f).
Proof.
  intros Hq Hf h. specialize (Hq h). unfold bind, events, result in *.
  destruct (q h) as [t [e|a]]; simpl in *.
  - destruct Hq as [Hr He]. split; [exact Hr|].
    intros e0 H. injection H as <-. now apply He.
  - specialize (Hf a (h ++ t)). destruct (f a (h ++ t)) as [t' r].
    simpl in *. rewrite runs_app. destruct Hq as [-> _].
    destruct Hf as [-> Hf]. now split.
Qed.

Lemma harmless_title v : harmless (title v).
Proof.
  unfold title, print_title_header, print_box.
  repeat (apply harmless_bind; [|intros ?]); apply harmless_print.
Qed.

Lemma final_bind {A} (q : S A) (f : A -> S unit) :
  harmless q -> (forall a, final mach (f a)) -> final mach (bind q f).
Proof.
  intros Hq Hf h. specialize (Hq h). unfold bind, events, result in *.
  destruct (q h) as [t [e|a]]; simpl in *.
  - destruct Hq as [Hr He]. rewrite (He e eq_refl). split; [now right|].
    intros pre cmd post E _. rewrite E, runs_app in Hr.
    apply app_eq_nil in Hr. destruct Hr as [_ Hr]. discriminate Hr.
  - specialize (Hf a (h ++ t)). destruct (f a (h ++ t)) as [t' r].
    simpl in *. destruct Hq as [Hr _]. destruct Hf as [Hs Hf].
    split; [exact Hs|]. intros pre cmd post E F.
    apply app_eq_app in E. destruct E as [l [[E1 E2] | [E1 E2]]].
    + destruct l as [|x l].
      * simpl in E2. rewrite app_nil_r in E1. subst t.
        apply (Hf [] cmd post); [now symmetry|]. now rewrite app_nil_r.
      * injection E2 as <- ->. exfalso. rewrite E1, runs_app in Hr.
        apply app_eq_nil in Hr. destruct Hr as [_ Hr]. discriminate Hr.
    + subst pre. apply (Hf l cmd post E2). now rewrite <- app_assoc.
Qed.

(** A [try] whose clause catches every [Exception], reports it and exits
    with the status 1. *)
Lemma final_try (body : S unit) (l : nat) :
  orderly mach tolerated body ->
  final mach
    (try_except body
       (fun e =>
          if is_exception e
          then Some (bind (print_err l [VExc e])
                       (fun _ => raise (SystemExit 1)))
          else None)).
Proof.
  intros Hb h. specialize (Hb h). unfold try_except, events, result in *.
  destruct (body h) as [t [e|[]]]; simpl in *.
  - destruct Hb as [He Hb]. rewrite (He e eq_refl). simpl.
    split; [now right|]. intros pre cmd post E F.
    split; [|reflexivity].
    apply app_eq_app in E. destruct E as [k [[E1 E2] | [E1 E2]]].
    + destruct k as [|x k].
      * simpl in E2. discriminate E2.
      * injection E2 as <- ->.
        destruct (Hb pre cmd k E1 F) as [R _].
        now rewrite runs_app, R.
    + destruct k as [|x [|y k]]; discriminate E2.
  - destruct Hb as [_ Hb]. split; [now left|].
    intros pre cmd post E F. destruct (Hb pre cmd post E F) as [_ [e C]].
    discriminate C.
Qed.

End Final.

Lemma final_run_full_setup mach lower self :
  final mach (run_full_setup mach lower self).
Proof.
  unfold run_full_setup.
  apply final_bind; [apply harmless_title|intros _].
  repeat (apply final_bind; [apply harmless_print|intros _]).
  apply final_try.
  apply orderly_bind; [apply orderly_clone|intros _].
  apply orderly_bind; [apply orderly_nodejs|intros _].
  apply orderly_bind; [apply quiet_orderly, quiet_api_key|intros _].
  apply orderly_bind; [apply orderly_playwright|intros _].
  apply orderly_bind; [apply orderly_github_cli|intros _].
  apply orderly_bind; [apply orderly_ssh_keys|intros _].
  apply orderly_bind; [apply orderly_sync|intros _].
  apply quiet_orderly. unfold print_title_header. quiet_tac.
Qed.

Lemma harmless_get_secrets mach : harmless (get_secrets_from_env mach).
Proof.
  unfold get_secrets_from_env.
  apply harmless_bind; [apply harmless_title|intros _].
  repeat (apply harmless_bind; [apply harmless_getenv|intros ?]).
  destruct (_ || _).
  - repeat (apply harmless_bind;
            [first [apply harmless_print_err | apply harmless_print]
            |intros _]).
    apply harmless_exit.
  - apply harmless_ret.
Qed.

Lemma final_main mach lower : final mach (main mach lower).
Proof.
  unfold main.
  apply final_bind; [apply harmless_title|intros _].
  apply final_bind; [apply harmless_get_secrets|intros vm].
  apply final_run_full_setup.
Qed.

(** The script ends normally or with the exit status 1: whatever the
    machine answers, no other exception leaves [main], nor
    [run_full_setup]. *)
Theorem script_ends_with_status_0_or_1 :
  forall (mach : machine) (lower : pystr -> pystr) (h : list event),
    (result (main mach lower h) = inr tt
     \/ result (main mach lower h) = inl (SystemExit 1))
    /\ forall self : VMSetup,
        result (run_full_setup mach lower self h) = inr tt
        \/ result (run_full_setup mach lower self h) = inl (SystemExit 1).
Proof.
  intros mach lower h. split.
  - apply (final_main mach lower h).
  - intros self. apply (final_run_full_setup mach lower self h).
Qed.

(** The setup stops at the first failure: after a process that cannot be
    started, that expires, or that exits with a status other than zero
    (unless it is [ssh-keygen], [git pull] or [git push]), the script starts
    no other process and exits with the status 1. *)
Theorem setup_stops_at_first_failure :
  forall (mach : machine) (lower : pystr -> pystr) (h pre : list event)
         (c : command) (post : list event),
    fatal tolerated (proc mach (h ++ pre) c) c ->
    (events (main mach lower h) = pre ++ Run c :: post ->
     runs post = [] /\ result (main mach lower h) = inl (SystemExit 1))
    /\ forall self : VMSetup,
        events (run_full_setup mach lower self h) = pre ++ Run c :: post ->
        runs post = []
        /\ result (run_full_setup mach lower self h) = inl (SystemExit 1).
Proof.
  intros mach lower h pre c post F. split.
  - intros E. exact (proj2 (final_main mach lower h) pre c post E F).
  - intros self E.
    exact (proj2 (final_run_full_setup mach lower self h) pre c post E F).
Qed.

Lemma setup_stops_at_first_failure_witness :
  runs (skipn 19 (events (main clone_fails ascii_lower []))) = []
  /\ result (main clone_fails ascii_lower []) = inl (SystemExit 1).
Proof.
  assert (F : fatal tolerated
                (proc clone_fails
                   ([] ++ firstn 18 (events (main clone_fails ascii_lower [])))
                   (argv [py "git"; py "clone"; default_repo]))
                (argv [py "git"; py "clone"; default_repo])).
  { simpl. split; [discriminate|]. split; [reflexivity|].
    intros [[self E] | [p [E | E]]]; discriminate E. }
  apply (proj1 (setup_stops_at_first_failure clone_fails ascii_lower []
                  (firstn 18 (events (main clone_fails ascii_lower [])))
                  (argv [py "git"; py "clone"; default_repo])
                  (skipn 19 (events (main clone_fails ascii_lower [])))
                  F)).
  vm_compute. reflexivity.
Defined.

(** ** [sync_repository] *)

(** Without the directory of the repository, [sync_repository] starts no
    process.  With it, when [git fetch] succeeds, [git pull] and
    [git push] are both run, whatever the exit status of each: a pull that
    fails does not keep the push from being tried, and the function
    returns. *)
Theorem sync_tolerates_pull_and_push :
  forall (mach : machine) (self : VMSetup) (repo_name : pystr)
         (h : list event),
    let repo_path := Named repo_name in
    ((forall h', exists_ mach h' repo_path = false) ->
     runs (events (sync_repository mach self repo_name h)) = []
     /\ result (sync_repository mach self repo_name h) = inr tt)
    /\ ((forall h', exists_ mach h' repo_path = true) ->
        (forall h', exists out err,
            proc mach h' (git_fetch repo_path) = Exited 0 out err) ->
        (forall h', exists rc out err,
            proc mach h' (git_pull repo_path) = Exited rc out err) ->
        (forall h', exists rc out err,
            proc mach h' (git_push repo_path) = Exited rc out err) ->
        runs (events (sync_repository mach self repo_name h))
        = [git_fetch repo_path; git_pull repo_path; git_push repo_path]
        /\ result (sync_repository mach self repo_name h) = inr tt).
Proof.
  intros mach self repo_name h repo_path. subst repo_path. split.
  - intros Hex. unfold sync_repository, bind, path_exists. simpl.
    rewrite Hex. simpl. now split.
  - intros Hex Hfetch Hpull Hpush.
    unfold sync_repository, bind, try_except, path_exists, run. simpl.
    rewrite Hex. simpl. rewrite !cli_run_spec.
    match goal with
    | |- context [proc mach ?h' (git_fetch ?p)] =>
        destruct (Hfetch h') as [out [err ->]]
    end.
    simpl. rewrite !cli_run_spec.
    match goal with
    | |- context [proc mach ?h' (git_pull ?p)] =>
        destruct (Hpull h') as [rc1 [out1 [err1 ->]]]
    end.
    simpl. destruct (rc1 =? 0)%Z; simpl; rewrite !cli_run_spec;
      match goal with
      | |- context [proc mach ?h' (git_push ?p)] =>
          destruct (Hpush h') as [rc2 [out2 [err2 ->]]]
      end;
      simpl; destruct (rc2 =? 0)%Z; simpl; now split.
Qed.

Lemma sync_tolerates_pull_and_push_witness :
  runs (events (sync_repository reluctant
                  {| github_repo := default_repo; project_repo := [];
                     email := py "me@example.org"; api_key := py "sk-key" |}
                  (py "ralph-inferno") []))
  = [git_fetch (Named (py "ralph-inferno"));
     git_pull (Named (py "ralph-inferno"));
     git_push (Named (py "ralph-inferno"))]
  /\ result (sync_repository reluctant
               {| github_repo := default_repo; project_repo := [];
                  email := py "me@example.org"; api_key := py "sk-key" |}
               (py "ralph-inferno") [])
     = inr tt.
Proof.
  apply (proj2 (sync_tolerates_pull_and_push reluctant
                  {| github_repo := default_repo; project_repo := [];
                     email := py "me@example.org";
                     api_key := py "sk-key" |}
                  (py "ralph-inferno") [])).
  - reflexivity.
  - intros h'. now exists [], [].
  - intros h'. now exists 1%Z, [], [].
  - intros h'. now exists 1%Z, [], [].
Defined.

(** ** [setup_ssh_keys] *)

(** [setup_ssh_keys] starts one process at most, [ssh-keygen], and only when
    no key exists or the answer at the terminal, in lower case, is [y]: with
    any other answer an existing key is kept. *)
Theorem ssh_keygen_needs_consent :
  forall (mach : machine) (lower : pystr -> pystr) (self : VMSetup)
         (present : bool) (answer : pystr) (h : list event),
    (forall h',
        exists_ mach h' (Home [py ".ssh"; py "id_ed25519"]) = present) ->
    (forall h', input_ mach h' = Some answer) ->
    runs (events (setup_ssh_keys mach lower self h))
    = if negb present || pystr_eqb (lower answer) (py "y")
      then [{| args := inr [py "ssh-keygen"; py "-t"; py "ed25519";
                            py "-C"; email self];
               shell := false; capture_output := false; check := true;
               cwd := None; env := None; timeout := None |}]
      else [].
Proof.
  intros mach lower self present answer h Hex Hin.
  unfold setup_ssh_keys, bind, try_except, path_exists, input, run. simpl.
  rewrite Hex. destruct present; simpl.
  - rewrite Hin. destruct (pystr_eqb (lower answer) (py "y")); simpl;
      [|reflexivity].
    rewrite cli_run_spec.
    destruct (proc mach _ (ssh_keygen self)) as [rc out err| |]; simpl;
      try reflexivity.
    destruct (rc =? 0)%Z; simpl; [|reflexivity].
    destruct (exists_ mach _ _); simpl; [|reflexivity].
    unfold read_file. destruct (read_ mach _ _); reflexivity.
  - rewrite cli_run_spec.
    destruct (proc mach _ (ssh_keygen self)) as [rc out err| |]; simpl;
      try reflexivity.
    destruct (rc =? 0)%Z; simpl; [|reflexivity].
    destruct (exists_ mach _ _); simpl; [|reflexivity].
    unfold read_file. destruct (read_ mach _ _); reflexivity.
Qed.

(** A key exists and the answer is [yes]: no process is started. *)
Lemma ssh_keygen_needs_consent_witness :
  runs (events (setup_ssh_keys reluctant ascii_lower
                  {| github_repo := default_repo; project_repo := [];
                     email := py "me@example.org"; api_key := py "sk-key" |}
                  []))
  = [].
Proof.
  apply (ssh_keygen_needs_consent reluctant ascii_lower
           {| github_repo := default_repo; project_repo := [];
              email := py "me@example.org"; api_key := py "sk-key" |}
           true (py "yes") []); reflexivity.
Defined.

(** ** [get_secrets_from_env] *)

Lemma written_app (name : pystr) (h t : list event) :
  written name (h ++ t)
  = match written name t with
    | Some v => Some v
    | None => written name h
    end.
Proof.
  induction h as [|e h IH]; simpl.
  - now destruct (written name t).
  - rewrite IH. now destruct (written name t).
Qed.

Lemma getenv_value_current mach h name default :
  getenv_value mach h name default
  = match current mach h name with
    | Some v => v
    | None => default
    end.
Proof. unfold getenv_value, current. now destruct (written name h). Qed.

Lemma get_secrets_spec (mach : machine) (h : list event) :
  let box := [Print stdout_stream 93 [VStr fire];
              Print stdout_stream 94 [VStr fire; VNone];
              Print stdout_stream 95 [VStr fire]] in
  let e := getenv_value mach h (py "GIT_EMAIL") masked_email in
  let k := getenv_value mach h (py "OPENROUTER_API_KEY") masked_key in
  get_secrets_from_env mach h
  = if str_contains (py "{{") e || str_contains (py "{{") k
    then (box ++ [Print stderr_stream 351 []; Print stdout_stream 352 [];
                  Print stdout_stream 353 []; Print stdout_stream 354 [];
                  Print stdout_stream 355 []],
          inl (SystemExit 1))
    else (box,
          inr {| github_repo :=
                   getenv_value mach h (py "GITHUB_REPO") default_repo;
                 project_repo := getenv_value mach h (py "PROJECT_REPO") [];
                 email := e;
                 api_key := k |}).
Proof.
  cbv zeta. unfold get_secrets_from_env, bind, getenv, getenv_value.
  simpl. rewrite !app_nil_r, !written_app. simpl.
  destruct (_ || _); reflexivity.
Qed.

(** [get_secrets_from_env] returns the configuration of the environment
    when the email address and the key are set and neither contains [{{];
    it exits with the status 1 when one of them is not set or contains
    [{{].  A key or an address that is set and empty is accepted.  In both
    cases it starts no process and writes nothing. *)
Theorem secrets_are_validated :
  forall (mach : machine) (h : list event),
    let value := current mach h in
    let run := get_secrets_from_env mach h in
    (forall e k : pystr,
        value (py "GIT_EMAIL") = Some e ->
        value (py "OPENROUTER_API_KEY") = Some k ->
        str_contains (py "{{") e = false ->
        str_contains (py "{{") k = false ->
        result run
        = inr {| github_repo :=
                   match value (py "GITHUB_REPO") with
                   | Some r => r
                   | None =>
                       py "https://github.com/sandstream/ralph-inferno.git"
                   end;
                 project_repo :=
                   match value (py "PROJECT_REPO") with
                   | Some p => p
                   | None => []
                   end;
                 email := e;
                 api_key := k |})
    /\ (value (py "GIT_EMAIL") = None
        \/ value (py "OPENROUTER_API_KEY") = None
        \/ (exists e, value (py "GIT_EMAIL") = Some e
                      /\ str_contains (py "{{") e = true)
        \/ (exists k, value (py "OPENROUTER_API_KEY") = Some k
                      /\ str_contains (py "{{") k = true) ->
        result run = inl (SystemExit 1))
    /\ runs (events run) = []
    /\ writes (events run) = [].
Proof.
  intros mach h value run. subst run value.
  rewrite get_secrets_spec. cbv zeta. rewrite !getenv_value_current.
  split; [|split].
  - intros e k He Hk Ce Ck. rewrite He, Hk, Ce, Ck. reflexivity.
  - intros [He | [Hk | [[e [He Ce]] | [k [Hk Ck]]]]].
    + rewrite He. reflexivity.
    + rewrite Hk.
      destruct (current mach h (py "GIT_EMAIL")) as [e|];
        [|reflexivity].
      replace (str_contains (py "{{") masked_key) with true by reflexivity.
      now rewrite orb_true_r.
    + rewrite He, Ce. reflexivity.
    + rewrite Hk, Ck. now rewrite orb_true_r.
  - destruct (_ || _); now split.
Qed.

(** An address, and a key that is set and empty. *)
Lemma secrets_are_validated_witness :
  let mach :=
    {| proc := fun _ _ => NotStarted;
       exists_ := fun _ _ => false;
       input_ := fun _ => None;
       read_ := fun _ _ => None;
       writable := fun _ _ => false;
       environ := fun name =>
                    if pystr_eqb name (py "GIT_EMAIL")
                    then Some (py "me@example.org")
                    else if pystr_eqb name (py "OPENROUTER_API_KEY")
                         then Some []
                         else None |} in
  result (get_secrets_from_env mach [])
  = inr {| github_repo := default_repo; project_repo := [];
           email := py "me@example.org"; api_key := [] |}.
Proof.
  cbv zeta.
  refine (proj1 (secrets_are_validated _ []) (py "me@example.org") []
            _ _ _ _); reflexivity.
Defined.

(** Run without an email address or without a key in the environment, the
    script starts no process, writes no file and no variable, and exits
    with the status 1. *)
Theorem unconfigured_script_changes_nothing :
  forall (mach : machine) (lower : pystr -> pystr),
    environ mach (py "GIT_EMAIL") = None
    \/ environ mach (py "OPENROUTER_API_KEY") = None ->
    runs (events (main mach lower [])) = []
    /\ writes (events (main mach lower [])) = []
    /\ result (main mach lower []) = inl (SystemExit 1).
Proof.
  intros mach lower H. unfold main, bind. simpl.
  rewrite get_secrets_spec. cbv zeta. unfold getenv_value. simpl.
  assert (E : str_contains (py "{{")
                match environ mach (py "GIT_EMAIL") with
                | Some v => v
                | None => masked_email
                end
              || str_contains (py "{{")
                   match environ mach (py "OPENROUTER_API_KEY") with
                   | Some v => v
                   | None => masked_key
                   end = true).
  { destruct H as [-> | ->]; [reflexivity|]. apply orb_true_r. }
  rewrite E. now repeat split.
Qed.

Lemma unconfigured_script_changes_nothing_witness :
  runs (events (main (bare_machine []) ascii_lower [])) = []
  /\ writes (events (main (bare_machine []) ascii_lower [])) = []
  /\ result (main (bare_machine []) ascii_lower []) = inl (SystemExit 1).
Proof.
  apply (unconfigured_script_changes_nothing (bare_machine []) ascii_lower).
  left. reflexivity.
Defined.

(** ** [CommandLineInterface.run] and [setup_api_key] *)

(** [CommandLineInterface.run] ends as [subprocess.run] does: it returns
    its result or raises its exception again, which it reports on [stderr]
    first, and it starts no process of its own. *)
Theorem run_reports_and_raises_again :
  forall (mach : machine) (c : command) (h : list event),
    result (cli_run mach c h) = result (subprocess_run mach c h)
    /\ (forall r, result (cli_run mach c h) = inr r ->
        events (cli_run mach c h) = [Run c])
    /\ (forall e, result (cli_run mach c h) = inl e ->
        exists report,
          events (cli_run mach c h) = Run c :: report
          /\ report <> []
          /\ forallb on_stderr report = true).
Proof.
  intros mach c h. rewrite cli_run_spec.
  unfold subprocess_run, events, result.
  destruct (proc mach h c) as [rc out err| |]; cbv zeta; simpl.
  - destruct (check c && negb (rc =? 0)%Z); simpl.
    + split; [reflexivity|]. split; [discriminate|].
      intros e _. eexists. split; [reflexivity|]. now split.
    + split; [reflexivity|]. split; [reflexivity|]. discriminate.
  - split; [reflexivity|]. split; [discriminate|].
    intros e _. eexists. split; [reflexivity|]. now split.
  - split; [reflexivity|]. split; [discriminate|].
    intros e _. eexists. split; [reflexivity|]. now split.
Qed.

(** After [setup_api_key] the variable [OPENROUTER_API_KEY] of the process
    holds the key, whether or not [.bashrc] could be written.  When the
    function returns, it has appended one block to [.bashrc], the comment
    and the [export] line with the key between double quotes, and written
    nothing else; when [.bashrc] cannot be opened it raises [OSError] with
    the variable already set. *)
Theorem api_key_is_exported :
  forall (mach : machine) (self : VMSetup) (h : list event),
    let run := setup_api_key mach self h in
    current mach (h ++ events run) (py "OPENROUTER_API_KEY")
    = Some (api_key self)
    /\ (result run = inr tt ->
        writes (events run)
        = [SetEnv (py "OPENROUTER_API_KEY") (api_key self);
           Append (Home [py ".bashrc"])
             ([10%N] ++ py "# Added by VM setup script" ++ [10%N]
              ++ py "export OPENROUTER_API_KEY=" ++ [34%N] ++ api_key self
              ++ [34%N] ++ [10%N])])
    /\ (forall e, result run = inl e ->
        e = OSError
        /\ writes (events run)
           = [SetEnv (py "OPENROUTER_API_KEY") (api_key self)]).
Proof.
  intros mach self h run. subst run.
  unfold setup_api_key, bind, append_file, current, events, result. simpl.
  destruct (writable mach _ _); simpl.
  - split; [|split].
    + rewrite written_app. reflexivity.
    + reflexivity.
    + discriminate.
  - split; [|split].
    + rewrite written_app. reflexivity.
    + discriminate.
    + intros e H. injection H as <-. now split.
Qed.

End SetupFacts.
